(** * MRI reconstruction notebook: k-space shift, transform, masking,
      interference injection and sinusoid synthesis

    A shallow embedding of the numeric cells of [notebook.ipynb].  Python
    floats and numpy's complex numbers are idealised as real numbers and
    pairs of reals; every exception the cells can raise is a value of
    [PyError]. *)

From Stdlib Require Import List ZArith Reals Lra Lia Bool Arith Permutation.
Import ListNotations.

(** ** Exceptions and fallible results *)

Inductive PyError : Type :=
| ValueError
| IndexError
| ZeroDivisionError.

Inductive result (A : Type) : Type :=
| Ok (a : A)
| Raise (e : PyError).

Arguments Ok {A} a.
Arguments Raise {A} e.

Definition bind {A B : Type} (m : result A) (k : A -> result B) : result B :=
  match m with
  | Ok a => k a
  | Raise e => Raise e
  end.

Notation "x <- m ;; k" := (bind m (fun x => k))
  (at level 61, m at next level, right associativity).

(** [for i in l: s = body(i, s)], stopping at the first exception. *)
Fixpoint for_in {S : Type} (l : list nat) (body : nat -> S -> result S) (s : S)
  : result S :=
  match l with
  | [] => Ok s
  | i :: t => s' <- body i s ;; for_in t body s'
  end.

(** [range(n)]. *)
Definition range (n : nat) : list nat := seq 0 n.

(** ** Two-dimensional arrays

    A 2-D [ndarray] is the list of its rows; [shape0] is [a.shape[0]] and
    [shape1] is [a.shape[1]]. *)

Definition ndarray2 (A : Type) : Type := list (list A).

Definition shape0 {A : Type} (a : ndarray2 A) : nat := length a.

Definition shape1 {A : Type} (a : ndarray2 A) : nat := length (hd [] a).

(** Every row has [N] entries and there are [M] rows. *)
Definition rect {A : Type} (M N : nat) (a : ndarray2 A) : Prop :=
  length a = M /\ Forall (fun row => length row = N) a.

(** [a[i][j]], with [d] outside the array. *)
Definition get2 {A : Type} (d : A) (a : ndarray2 A) (i j : nat) : A :=
  nth j (nth i a []) d.

(** The array whose entry [(i, j)] is [f i j]. *)
Definition tabulate2 {A : Type} (M N : nat) (f : nat -> nat -> A) : ndarray2 A :=
  map (fun i => map (fun j => f i j) (seq 0 N)) (seq 0 M).

(** [np.zeros((M, N))] with [d] as the zero of the element type. *)
Definition zeros2 {A : Type} (d : A) (M N : nat) : ndarray2 A :=
  repeat (repeat d N) M.

(** Replace entry [i] of a list; nothing happens when [i] is out of range
    (callers check the index first). *)
Fixpoint list_set {A : Type} (i : nat) (v : A) (l : list A) : list A :=
  match l, i with
  | [], _ => []
  | _ :: t, O => v :: t
  | x :: t, S i' => x :: list_set i' v t
  end.

(** numpy's integer indexing on an axis of length [n]: indices in
    [[0, n)] are taken as they are, indices in [[-n, 0)] count from the
    end, everything else raises [IndexError]. *)
Definition py_index (n : nat) (i : Z) : result nat :=
  if (0 <=? i)%Z && (i <? Z.of_nat n)%Z then Ok (Z.to_nat i)
  else if (- Z.of_nat n <=? i)%Z && (i <? 0)%Z then Ok (Z.to_nat (i + Z.of_nat n))
  else Raise IndexError.

(** [a[r, c] = v]. *)
Definition setitem2 {A : Type} (a : ndarray2 A) (r c : Z) (v : A)
  : result (ndarray2 A) :=
  i <- py_index (length a) r ;;
  j <- py_index (length (nth i a [])) c ;;
  Ok (list_set i (list_set j v (nth i a [])) a).

(** A slice bound adjusted to an axis of length [n], as Python's
    [slice.indices] does for step 1: a negative bound has [n] added and is
    then clipped at 0, a non-negative one is clipped at [n]. *)
Definition slice_adjust (n : nat) (i : Z) : nat :=
  if (i <? 0)%Z then Z.to_nat (Z.max (i + Z.of_nat n) 0)
  else Z.to_nat (Z.min i (Z.of_nat n)).

(** Whether position [k] of an axis of length [n] is selected by the
    slice [start:stop]. *)
Definition in_slice (n : nat) (start stop : Z) (k : nat) : bool :=
  (slice_adjust n start <=? k) && (k <? slice_adjust n stop).

Fixpoint mapi_from {A B : Type} (i : nat) (f : nat -> A -> B) (l : list A) : list B :=
  match l with
  | [] => []
  | x :: t => f i x :: mapi_from (S i) f t
  end.

Definition mapi {A B : Type} (f : nat -> A -> B) (l : list A) : list B :=
  mapi_from 0 f l.

(** [a[r0:r1, c0:c1] = v]: slice assignment never raises. *)
Definition setslice2 {A : Type} (a : ndarray2 A) (r0 r1 c0 c1 : Z) (v : A)
  : ndarray2 A :=
  mapi (fun i row =>
          if in_slice (length a) r0 r1 i
          then mapi (fun j x => if in_slice (length row) c0 c1 j then v else x) row
          else row) a.

(** ** Centre of k-space

    [Cx = Nx/2.0] and [int(Cx)]: halving is exact in floating point and
    [int] truncates toward zero. *)
Definition int_center (n : nat) : Z := Z.quot (Z.of_nat n) 2.

(** ** The frequency mask (cell "select a rectangular portion")

    [frequency_mask = np.zeros((Nx,Ny), dtype=bool)] followed by
    [frequency_mask[y_start:y_stop+1, x_start:x_stop+1] = True], with
    [Cx = Nx/2.0] and [Cy = Ny/2.0]. *)
Definition x_start (Nx : nat) (OFFSETx Kx_half_side : Z) : Z :=
  (int_center Nx + OFFSETx - Kx_half_side)%Z.

Definition x_stop (Nx : nat) (OFFSETx Kx_half_side : Z) : Z :=
  (int_center Nx + OFFSETx + Kx_half_side)%Z.

Definition y_start (Ny : nat) (OFFSETy Ky_half_side : Z) : Z :=
  (int_center Ny + OFFSETy - Ky_half_side)%Z.

Definition y_stop (Ny : nat) (OFFSETy Ky_half_side : Z) : Z :=
  (int_center Ny + OFFSETy + Ky_half_side)%Z.

Definition buildRectangularMask (Nx Ny : nat)
  (OFFSETx OFFSETy Kx_half_side Ky_half_side : Z) : result (ndarray2 bool) :=
  let frequency_mask := zeros2 false Nx Ny in
  Ok (setslice2 frequency_mask
        (y_start Ny OFFSETy Ky_half_side) (y_stop Ny OFFSETy Ky_half_side + 1)
        (x_start Nx OFFSETx Kx_half_side) (x_stop Nx OFFSETx Kx_half_side + 1)
        true).

(** ** The interference (cell "simulate an interference")

    [kspace_mod = kspace.copy()] followed by
    [kspace_mod[int(Cy)+OFFSETy, int(Cx)+OFFSETx] = value], where
    [Nx = kspace.shape[0]] and [Ny = kspace.shape[1]]. *)
Definition injectPoint {A : Type} (kspace : ndarray2 A) (OFFSETx OFFSETy : Z)
  (value : A) : result (ndarray2 A) :=
  let Nx := shape0 kspace in
  let Ny := shape1 kspace in
  setitem2 kspace (int_center Ny + OFFSETy) (int_center Nx + OFFSETx) value.

(** ** The shift ([np.fft.fftshift])

    [np.roll(l, s)] on one axis: the entry at [i] moves to [(i + s) mod n]. *)
Definition roll {A : Type} (s : Z) (l : list A) : list A :=
  let n := length l in
  let k := Z.to_nat (s mod Z.of_nat n) in
  skipn (n - k) l ++ firstn (n - k) l.

(** [np.fft.fftshift(a)]: every axis is rolled by half its length,
    rounded down. *)
Definition fftshift {A : Type} (a : ndarray2 A) : ndarray2 A :=
  map (roll (Z.of_nat (shape1 a) / 2)) (roll (Z.of_nat (shape0 a) / 2) a).

(** Modelled from the spec: the inverse shift, which the notebook never
    calls; it is [np.fft.ifftshift], rolling every axis back by half its
    length, rounded down. *)
Definition ifftshift {A : Type} (a : ndarray2 A) : ndarray2 A :=
  map (roll (- (Z.of_nat (shape1 a) / 2))) (roll (- (Z.of_nat (shape0 a) / 2)) a).

Local Open Scope R_scope.

(** ** The sinusoid ([calculate_sinusoid])

    Python's float division: a zero divisor raises.  The notebook passes
    Python floats ([K_max], [K_x], [K_y]) for the periods and the
    frequencies. *)
Definition py_div (a b : R) : result R :=
  if Req_EM_T b 0 then Raise ZeroDivisionError else Ok (a / b).

(** The right-hand side of the assignment in the inner loop,
    [np.pi * np.sin(2*np.pi*fx*x/wx+phix+2*np.pi*fy*y/wy+phiy)]; the
    quotient by [wx] is evaluated before the quotient by [wy]. *)
Definition sinusoid_value (wx wy fx fy phix phiy : R) (x y : nat) : result R :=
  tx <- py_div (2 * PI * fx * INR x) wx ;;
  ty <- py_div (2 * PI * fy * INR y) wy ;;
  Ok (PI * sin (tx + phix + ty + phiy)).

Definition calculate_sinusoid (dimension : list Z) (wx wy fx fy phix phiy : R)
  : result (ndarray2 R) :=
  if negb (length dimension =? 2)%nat then Raise ValueError
  else
    let d0 := nth 0 dimension 0%Z in
    let d1 := nth 1 dimension 0%Z in
    (* np.zeros refuses a negative size *)
    if ((d0 <? 0) || (d1 <? 0))%Z then Raise ValueError
    else
      let sin_xy := zeros2 0 (Z.to_nat d0) (Z.to_nat d1) in
      (* sin_xy.shape is dimension *)
      for_in (range (Z.to_nat d0))
        (fun y sin_xy =>
           for_in (range (Z.to_nat d1))
             (fun x sin_xy =>
                v <- sinusoid_value wx wy fx fy phix phiy x y ;;
                setitem2 sin_xy (Z.of_nat x) (Z.of_nat y) v)
             sin_xy)
        sin_xy.

(** ** [calculate_sinusoid] on operands of either kind

    The function checks no type, and what [/] does with a zero divisor
    depends on the operands.  When both are Python numbers ([int] or
    [float]) Python raises [ZeroDivisionError].  As soon as one of them is
    a numpy scalar (such as [np.float64]) the division is numpy's, which
    prints a warning and returns [inf] or [nan]; the notebook leaves
    numpy's error handling at its default. *)
Inductive operand : Type :=
| PyNumber (r : R)
| NpScalar (r : R).

Definition value (o : operand) : R :=
  match o with
  | PyNumber r => r
  | NpScalar r => r
  end.

Definition is_python (o : operand) : bool :=
  match o with
  | PyNumber _ => true
  | NpScalar _ => false
  end.

(** An [np.float64]: a finite value, idealised as a real number, or one of
    [inf], [-inf] and [nan]. *)
Inductive float64 : Type :=
| Finite (r : R)
| NonFinite.

Definition float64_map (f : R -> R) (a : float64) : float64 :=
  match a with
  | Finite x => Finite (f x)
  | NonFinite => NonFinite
  end.

(** In the sums and products below a non-finite operand gives a non-finite
    result. *)
Definition float64_map2 (f : R -> R -> R) (a b : float64) : float64 :=
  match a, b with
  | Finite x, Finite y => Finite (f x y)
  | _, _ => NonFinite
  end.

(** A value met while the right-hand side is evaluated: a Python float or
    an [np.float64]. *)
Inductive scalar : Type :=
| PyFloat (r : R)
| NpFloat (v : float64).

Definition of_operand (o : operand) : scalar :=
  match o with
  | PyNumber r => PyFloat r
  | NpScalar r => NpFloat (Finite r)
  end.

Definition to_float64 (s : scalar) : float64 :=
  match s with
  | PyFloat r => Finite r
  | NpFloat v => v
  end.

(** [a * b] and [a + b]: a Python float only when both operands are. *)
Definition scalar_op (f : R -> R -> R) (a b : scalar) : scalar :=
  match a, b with
  | PyFloat x, PyFloat y => PyFloat (f x y)
  | _, _ => NpFloat (float64_map2 f (to_float64 a) (to_float64 b))
  end.

(** [a / b] for a divisor [b] that is an argument of the function: Python's
    division between Python numbers, numpy's otherwise. *)
Definition scalar_div (a : scalar) (b : operand) : result scalar :=
  match a, b with
  | PyFloat x, PyNumber y => q <- py_div x y ;; Ok (PyFloat q)
  | _, _ =>
      Ok (NpFloat (if Req_EM_T (value b) 0 then NonFinite
                   else float64_map (fun x => x / value b) (to_float64 a)))
  end.

(** [np.sin] takes either kind and returns an [np.float64]. *)
Definition np_sin (s : scalar) : float64 := float64_map sin (to_float64 s).

(** [2*np.pi*f*x/w], in the order Python evaluates it; [2], [np.pi] and
    the loop variable are Python numbers. *)
Definition phase_term (f w : operand) (x : nat) : result scalar :=
  scalar_div
    (scalar_op Rmult
       (scalar_op Rmult (scalar_op Rmult (PyFloat 2) (PyFloat PI)) (of_operand f))
       (PyFloat (INR x)))
    w.

(** The right-hand side of the assignment, as [sinusoid_value]. *)
Definition sinusoid_value_mixed (wx wy fx fy phix phiy : operand) (x y : nat)
  : result float64 :=
  tx <- phase_term fx wx x ;;
  ty <- phase_term fy wy y ;;
  Ok (float64_map (Rmult PI)
        (np_sin (scalar_op Rplus
                   (scalar_op Rplus (scalar_op Rplus tx (of_operand phix)) ty)
                   (of_operand phiy)))).

(** [calculate_sinusoid] itself; [sin_xy] is an array of [np.float64]. *)
Definition calculate_sinusoid_mixed (dimension : list Z)
  (wx wy fx fy phix phiy : operand) : result (ndarray2 float64) :=
  if negb (length dimension =? 2)%nat then Raise ValueError
  else
    let d0 := nth 0 dimension 0%Z in
    let d1 := nth 1 dimension 0%Z in
    if ((d0 <? 0) || (d1 <? 0))%Z then Raise ValueError
    else
      let sin_xy := zeros2 (Finite 0) (Z.to_nat d0) (Z.to_nat d1) in
      for_in (range (Z.to_nat d0))
        (fun y sin_xy =>
           for_in (range (Z.to_nat d1))
             (fun x sin_xy =>
                v <- sinusoid_value_mixed wx wy fx fy phix phiy x y ;;
                setitem2 sin_xy (Z.of_nat x) (Z.of_nat y) v)
             sin_xy)
        sin_xy.

(** The quotient by [w] is a division of Python numbers by zero. *)
Definition python_zero_division (f w : operand) : Prop :=
  value w = 0 /\ is_python f = true /\ is_python w = true.

(** A result with [f] applied to its value. *)
Definition result_map {A B : Type} (f : A -> B) (m : result A) : result B :=
  match m with
  | Ok a => Ok (f a)
  | Raise e => Raise e
  end.

(** ** Complex numbers

    A complex number is the pair of its real and imaginary parts. *)
Definition C : Type := (R * R)%type.

Definition C0 : C := (0, 0).

Definition Cadd (z w : C) : C := (fst z + fst w, snd z + snd w).

Definition Cmul (z w : C) : C :=
  (fst z * fst w - snd z * snd w, fst z * snd w + snd z * fst w).

(** A complex number divided by a real one. *)
Definition Cdivr (z : C) (r : R) : C := (fst z / r, snd z / r).


(** The squared magnitude and the magnitude ([np.abs]). *)
Definition Cnorm2 (z : C) : R := fst z * fst z + snd z * snd z.

Definition Cabs (z : C) : R := sqrt (Cnorm2 z).

(** [exp(i * theta)]. *)
Definition Cexp_i (theta : R) : C := (cos theta, sin theta).

(** [f 0 + f 1 + ... + f (n-1)]. *)
Fixpoint Csum (n : nat) (f : nat -> C) : C :=
  match n with
  | O => C0
  | S k => Cadd (Csum k f) (f k)
  end.

Fixpoint Rsum (n : nat) (f : nat -> R) : R :=
  match n with
  | O => 0
  | S k => Rsum k f + f k
  end.

(** ** The transform ([np.fft.fft2] with [norm='ortho'])

    The discrete Fourier sum of a 1-D signal at frequency [k]; [sgn] is
    [-1] for the forward transform and [1] for the backward one. *)
Definition dft (sgn : R) (x : list C) (k : nat) : C :=
  Csum (length x)
    (fun m => Cmul (nth m x C0)
                (Cexp_i (sgn * (2 * PI * INR m * INR k / INR (length x))))).

(** [np.fft.fft(x, norm='ortho')] and [np.fft.ifft(x, norm='ortho')]: both
    directions are scaled by [1/sqrt(n)]. *)
Definition fft_ortho (x : list C) : list C :=
  map (fun k => Cdivr (dft (-1) x k) (sqrt (INR (length x)))) (seq 0 (length x)).

Definition ifft_ortho (x : list C) : list C :=
  map (fun k => Cdivr (dft 1 x k) (sqrt (INR (length x)))) (seq 0 (length x)).

(** Column [j] of an array. *)
Definition column (a : ndarray2 C) (j : nat) : list C :=
  map (fun row => nth j row C0) a.

(** A 1-D transform [t] applied along the last axis (to every row) and
    along the first axis (to every column). *)
Definition along_axis1 (t : list C -> list C) (a : ndarray2 C) : ndarray2 C :=
  map t a.

Definition along_axis0 (t : list C -> list C) (a : ndarray2 C) : ndarray2 C :=
  tabulate2 (shape0 a) (shape1 a) (fun k l => nth k (t (column a l)) C0).

(** numpy transforms the last axis first, then the first axis. *)
Definition fft2_ortho (a : ndarray2 C) : ndarray2 C :=
  along_axis0 fft_ortho (along_axis1 fft_ortho a).

Definition ifft2_ortho (a : ndarray2 C) : ndarray2 C :=
  along_axis0 ifft_ortho (along_axis1 ifft_ortho a).

(** [a / r] for a real scalar [r]. *)
Definition div_scalar (a : ndarray2 C) (r : R) : ndarray2 C :=
  map (map (fun z => Cdivr z r)) a.

(** The reconstruction cell:
    [img = np.fft.fft2( kspace_shifted / np.sqrt(Nx*Ny), norm='ortho' )]
    with [Nx], [Ny] the two sizes of the array. *)
Definition forward (kspace_shifted : ndarray2 C) : ndarray2 C :=
  let Nx := shape0 kspace_shifted in
  let Ny := shape1 kspace_shifted in
  fft2_ortho (div_scalar kspace_shifted (sqrt (INR (Nx * Ny)))).



(** The sum of squared magnitudes, [np.sum(np.abs(a)**2)]. *)
Definition energy (a : ndarray2 C) : R :=
  fold_right Rplus 0 (map (fun z => (Cabs z) ^ 2) (concat a)).

(** ** Definitions used in the statements below *)

(** The value the documentation of [calculate_sinusoid] gives for pixel
    [(x, y)]. *)
Definition sinusoid_formula (wx wy fx fy phix phiy : R) (x y : nat) : R :=
  PI * sin (2 * PI * fx * INR x / wx + phix + 2 * PI * fy * INR y / wy + phiy).

(** The rectangle [lo..hi] of an axis of length [n] needs no adjustment. *)
Definition bounds_inside (n : nat) (lo hi : Z) : Prop :=
  (0 <= lo /\ 0 <= hi < Z.of_nat n)%Z.

(** A 3 x 3 array of integers. *)
Definition sample_3x3 : ndarray2 Z :=
  [[1; 2; 3]; [4; 5; 6]; [7; 8; 9]]%Z.

(** A 4 x 4 array of integers. *)
Definition sample_4x4 : ndarray2 Z :=
  [[1; 2; 3; 4]; [5; 6; 7; 8]; [9; 10; 11; 12]; [13; 14; 15; 16]]%Z.

(** The complex unit and the conjugate. *)
Definition C1 : C := (1, 0).

Definition Cconj (z : C) : C := (fst z, - snd z).

(** The entry the orthonormal transform multiplies [x[m]] with when it
    computes output [k]; [s] is the sign of the exponent. *)
Definition kernel (s : R) (n m k : nat) : C :=
  Cdivr (Cexp_i (s * (2 * PI * INR m * INR k / INR n))) (sqrt (INR n)).

(** The linear map with matrix [K] on signals of any length. *)
Definition lin (K : nat -> nat -> nat -> C) (x : list C) : list C :=
  map (fun k => Csum (length x) (fun m => Cmul (nth m x C0) (K (length x) m k)))
      (seq 0 (length x)).

(** The sum of squared magnitudes of a 1-D signal. *)
Definition energy1 (x : list C) : R :=
  fold_right Rplus 0 (map (fun z => (Cabs z) ^ 2) x).

(** The orthonormal 2-D transform with exponent sign [s]. *)
Definition transform2 (s : R) (a : ndarray2 C) : ndarray2 C :=
  along_axis0 (lin (kernel s)) (along_axis1 (lin (kernel s)) a).

(** The 4 x 4 spectrum of zeros with 10+10i written at the centre. *)
Definition point_spectrum : ndarray2 C :=
  [[C0; C0; C0; C0]; [C0; C0; C0; C0]; [C0; C0; (10, 10); C0]; [C0; C0; C0; C0]].


(** The 2 x 2 and the 3 x 3 spectrum with a single 1 at the origin. *)
Definition unit_2x2 : ndarray2 C := [[C1; C0]; [C0; C0]].

Definition unit_3x3 : ndarray2 C := [[C1; C0; C0]; [C0; C0; C0]; [C0; C0; C0]].

(** ** The rest of the notebook's numeric cells *)

(** [l[start:stop]]: the part of a list between the adjusted bounds. *)
Definition getslice {A : Type} (l : list A) (start stop : Z) : list A :=
  let s := slice_adjust (length l) start in
  let e := slice_adjust (length l) stop in
  firstn (e - s) (skipn s l).

(** [a[r0:r1, c0:c1]]. *)
Definition getslice2 {A : Type} (a : ndarray2 A) (r0 r1 c0 c1 : Z) : ndarray2 A :=
  map (fun row => getslice row c0 c1) (getslice a r0 r1).

(** The extracted portion,
    [kspace_mod = kspace[y_start:y_stop+1,x_start:x_stop+1]], with [Nx] and
    [Ny] the two sizes of [kspace]. *)
Definition selectPortion {A : Type} (kspace : ndarray2 A)
  (OFFSETx OFFSETy Kx_half_side Ky_half_side : Z) : ndarray2 A :=
  let Nx := shape0 kspace in
  let Ny := shape1 kspace in
  getslice2 kspace
    (y_start Ny OFFSETy Ky_half_side) (y_stop Ny OFFSETy Ky_half_side + 1)
    (x_start Nx OFFSETx Kx_half_side) (x_stop Nx OFFSETx Kx_half_side + 1).

Fixpoint map2 {A B D : Type} (f : A -> B -> D) (l : list A) (l' : list B) : list D :=
  match l, l' with
  | x :: t, y :: t' => f x y :: map2 f t t'
  | _, _ => []
  end.

(** [frequency_mask==0]: True where the mask is False. *)
Definition mask_eq_0 (frequency_mask : ndarray2 bool) : ndarray2 bool :=
  map (map negb) frequency_mask.

(** [a[b] = v] for a boolean array [b]: numpy raises [IndexError] unless
    [b] has the shape of [a]. *)
Definition setitem_bool {A : Type} (a : ndarray2 A) (b : ndarray2 bool) (v : A)
  : result (ndarray2 A) :=
  if ((shape0 b =? shape0 a) && (shape1 b =? shape1 a))%nat
  then Ok (map2 (map2 (fun x (m : bool) => if m then v else x)) a b)
  else Raise IndexError.

(** The masking cell: [kspace_mod = kspace.copy()] followed by
    [kspace_mod[frequency_mask==0] = 0. + 1j*0.]. *)
Definition applyMask (kspace : ndarray2 C) (frequency_mask : ndarray2 bool)
  : result (ndarray2 C) :=
  setitem_bool kspace (mask_eq_0 frequency_mask) C0.

(** The reconstruction as every cell runs it:
    [np.fft.fftshift] followed by the scaled [np.fft.fft2]. *)
Definition reconstruct (kspace : ndarray2 C) : ndarray2 C :=
  forward (fftshift kspace).

(** numpy's broadcasting of one axis: equal lengths, or one of them 1. *)
Definition broadcast_dim (n m : nat) : result nat :=
  if (n =? m)%nat then Ok n
  else if (n =? 1)%nat then Ok m
  else if (m =? 1)%nat then Ok n
  else Raise ValueError.

(** Entry [(i, j)] of an array stretched along its axes of length 1. *)
Definition broadcast_get {A : Type} (d : A) (a : ndarray2 A) (i j : nat) : A :=
  get2 d a (if (shape0 a =? 1)%nat then 0%nat else i)
           (if (shape1 a =? 1)%nat then 0%nat else j).

(** [difference = np.abs(img) - np.abs(img_mod)]. *)
Definition magnitudeDifference (img img_mod : ndarray2 C) : result (ndarray2 R) :=
  M <- broadcast_dim (shape0 img) (shape0 img_mod) ;;
  N <- broadcast_dim (shape1 img) (shape1 img_mod) ;;
  Ok (tabulate2 M N
        (fun i j => Cabs (broadcast_get C0 img i j)
                    - Cabs (broadcast_get C0 img_mod i j))).

(** [Cx = Nx/2.0]. *)
Definition center (Nx : nat) : R := INR Nx / 2.

(** [resolution = 220.0 / Nx] and [K_max = 1. / resolution]. *)
Definition resolution (Nx : nat) : result R := py_div 220 (INR Nx).

Definition K_max (Nx : nat) : result R :=
  r <- resolution Nx ;; py_div 1 r.

(** [K_max/2. * (ix-Cx)/Cx], the frequency the notebook assigns to the
    integer [ix]. *)
Definition frequency (Kmax Cx : R) (ix : Z) : result R :=
  py_div (Kmax / 2 * (IZR ix - Cx)) Cx.

(** [K_x] of pixel [ix] as the sinusoid cell computes it from [Nx] alone. *)
Definition pixel_frequency (Nx : nat) (ix : Z) : result R :=
  k <- K_max Nx ;; frequency k (center Nx) ix.

(** Entrywise difference and sum of complex numbers, and exact 2-D
    Fourier sum, used to state what the reconstruction computes. *)
Definition Csub (z w : C) : C := (fst z - fst w, snd z - snd w).

(** [sum_m sum_n f m n exp(-2 pi i (m k/M + n l/N))]. *)
Definition fourier_sum (M N : nat) (f : nat -> nat -> C) (k l : nat) : C :=
  Csum M (fun m => Csum N (fun n =>
    Cmul (f m n)
         (Cexp_i (- (2 * PI * (INR m * INR k / INR M + INR n * INR l / INR N)))))).

Definition dft2 (M N : nat) (a : ndarray2 C) (k l : nat) : C :=
  fourier_sum M N (get2 C0 a) k l.

(** The index to which [np.fft.fftshift] moves entry [p] of an axis of
    length [n]. *)
Definition shift_target (n p : nat) : nat := ((p + n / 2) mod n)%nat.

(** The entry of the Fourier kernel of an axis of length [n]. *)
Definition axis_kernel (n m k : nat) : C :=
  Cexp_i (- (2 * PI * (INR m * INR k / INR n))).

(** [a[r, c]] read with two integer indices. *)
Definition getitem2 {A : Type} (d : A) (a : ndarray2 A) (r c : Z) : result A :=
  i <- py_index (length a) r ;;
  j <- py_index (length (nth i a [])) c ;;
  Ok (nth j (nth i a []) d).

(** What a loop body asks for: the next item, or [break]. *)
Inductive flow : Type :=
| Continue
| Break.

(** [for i in l: ...] with a body that may [break]. *)
Fixpoint for_in_break {S : Type} (l : list nat)
  (body : nat -> S -> result (S * flow)) (s : S) : result S :=
  match l with
  | [] => Ok s
  | i :: t =>
      r <- body i s ;;
      match snd r with
      | Break => Ok (fst r)
      | Continue => for_in_break t body (fst r)
      end
  end.

(** One sub-plot of the sinusoid figure: its position in the 4 x 10 grid,
    the image shown, and the two numbers of its caption. *)
Record subplot : Type := {
  position : nat;
  picture : ndarray2 R;
  caption : Z * Z
}.

(** [plt.subplot(4, 10, n)] accepts the positions 1 to 40 only. *)
Definition subplot_4x10 (n : nat) : result nat :=
  if ((1 <=? n) && (n <=? 40))%nat then Ok n else Raise ValueError.

(** The body of the inner loop of the sinusoid cell, for row [iy] and
    column [ix]; the state is [image_number] and the sub-plots drawn. *)
Definition draw_cell (Nx Ny : nat) (kmax : R) (frequency_mask : ndarray2 bool)
  (iy ix : nat) (st : nat * list subplot) : result ((nat * list subplot) * flow) :=
  selected <- getitem2 false frequency_mask (Z.of_nat iy) (Z.of_nat ix) ;;
  if selected : bool then
    let image_number := S (fst st) in
    if (40 <? image_number)%nat then Ok ((image_number, snd st), Break)
    else
      K_x <- frequency kmax (center Nx) (Z.of_nat ix) ;;
      K_y <- frequency kmax (center Ny) (Z.of_nat iy) ;;
      sin2D <- calculate_sinusoid [Z.of_nat Ny; Z.of_nat Nx] kmax kmax K_y K_x 0 0 ;;
      pos <- subplot_4x10 image_number ;;
      Ok ((image_number,
           snd st ++ [ {| position := pos;
                          picture := sin2D;
                          caption := (Z.of_nat ix - int_center Nx,
                                      Z.of_nat iy - int_center Ny)%Z |} ]),
          Continue)
  else Ok (st, Continue).

(** The sinusoid cell: rows from the last to the first, columns in order,
    [K_max] as the resolution cell computed it. *)
Definition show_sinusoids (Nx Ny : nat) (frequency_mask : ndarray2 bool)
  : result (nat * list subplot) :=
  kmax <- K_max Nx ;;
  for_in (rev (range Ny))
    (fun iy st => for_in_break (range Nx) (draw_cell Nx Ny kmax frequency_mask iy) st)
    (0%nat, []).

(** What the figure holds after [c] selected coefficients were met: the
    first [min 40 c] of them, at the positions 1, 2, ... *)
Definition figure_after (c : nat) (st : nat * list subplot) : Prop :=
  length (snd st) = Nat.min 40 c /\
  map position (snd st) = seq 1 (Nat.min 40 c) /\
  ((c <= 40)%nat -> fst st = c) /\
  ((40 < c)%nat -> (40 < fst st)%nat).

(** The number of True entries of a mask. *)
Definition count_true (mask : ndarray2 bool) : nat :=
  length (filter (fun b : bool => b) (concat mask)).

(** * Properties *)

(** ** Results and loops *)

Lemma for_in_app {S : Type} (l1 l2 : list nat) (body : nat -> S -> result S) (s : S) :
  for_in (l1 ++ l2) body s = (s' <- for_in l1 body s ;; for_in l2 body s').
Proof.
  revert s; induction l1 as [|i l1 IH]; intros s; simpl; [reflexivity|].
  destruct (body i s) as [s'|e]; simpl; [apply IH | reflexivity].
Qed.

(** ** Lists and indices *)

Lemma range_head (n : nat) : (1 <= n)%nat -> range n = 0%nat :: seq 1 (n - 1).
Proof.
  intros H; unfold range. destruct n as [|n]; [lia|].
  simpl. now rewrite Nat.sub_0_r.
Qed.

Lemma list_set_length {A : Type} (i : nat) (v : A) (l : list A) :
  length (list_set i v l) = length l.
Proof.
  revert i; induction l as [|x l IH]; intros [|i]; simpl; auto.
Qed.

Lemma nth_list_set_eq {A : Type} (i : nat) (v d : A) (l : list A) :
  (i < length l)%nat -> nth i (list_set i v l) d = v.
Proof.
  revert i; induction l as [|x l IH]; intros [|i] H; simpl in *; try lia; auto.
  apply IH; lia.
Qed.

Lemma nth_list_set_neq {A : Type} (i j : nat) (v d : A) (l : list A) :
  i <> j -> nth j (list_set i v l) d = nth j l d.
Proof.
  revert i j; induction l as [|x l IH]; intros [|i] [|j] H; simpl; auto; try congruence.
Qed.

Lemma py_index_inside (n : nat) (i : Z) :
  (0 <= i < Z.of_nat n)%Z -> py_index n i = Ok (Z.to_nat i).
Proof.
  intros H; unfold py_index.
  destruct (Z.leb_spec 0 i); destruct (Z.ltb_spec i (Z.of_nat n)); simpl; try lia.
  reflexivity.
Qed.

Lemma py_index_wraps (n : nat) (i : Z) :
  (- Z.of_nat n <= i < 0)%Z -> py_index n i = Ok (Z.to_nat (i + Z.of_nat n)).
Proof.
  intros H; unfold py_index.
  destruct (Z.leb_spec 0 i); destruct (Z.ltb_spec i (Z.of_nat n)); simpl; try lia.
  destruct (Z.leb_spec (- Z.of_nat n) i); destruct (Z.ltb_spec i 0); simpl; try lia.
  reflexivity.
Qed.

Lemma py_index_outside (n : nat) (i : Z) :
  (i < - Z.of_nat n \/ Z.of_nat n <= i)%Z -> py_index n i = Raise IndexError.
Proof.
  intros H; unfold py_index.
  destruct (Z.leb_spec 0 i); destruct (Z.ltb_spec i (Z.of_nat n)); simpl; try lia;
    destruct (Z.leb_spec (- Z.of_nat n) i); destruct (Z.ltb_spec i 0); simpl; try lia;
    reflexivity.
Qed.

Lemma py_index_bound (n : nat) (i : Z) (k : nat) :
  py_index n i = Ok k -> (k < n)%nat.
Proof.
  unfold py_index.
  destruct (Z.leb_spec 0 i); destruct (Z.ltb_spec i (Z.of_nat n)); simpl;
    try (intros E; injection E as <-; lia);
    destruct (Z.leb_spec (- Z.of_nat n) i); destruct (Z.ltb_spec i 0); simpl;
    try discriminate; intros E; injection E as <-; lia.
Qed.

Lemma py_index_of_nat (n k : nat) :
  (k < n)%nat -> py_index n (Z.of_nat k) = Ok k.
Proof.
  intros H; rewrite py_index_inside by lia. now rewrite Nat2Z.id.
Qed.

Lemma py_index_of_nat_out (n k : nat) :
  (n <= k)%nat -> py_index n (Z.of_nat k) = Raise IndexError.
Proof.
  intros H; apply py_index_outside; lia.
Qed.

(** ** Shapes *)

Lemma rect_nth_length {A : Type} (M N : nat) (a : ndarray2 A) (i : nat) :
  rect M N a -> (i < M)%nat -> length (nth i a []) = N.
Proof.
  intros [HM HN] Hi. rewrite Forall_forall in HN.
  apply HN, nth_In; lia.
Qed.

Lemma rect_zeros2 {A : Type} (d : A) (M N : nat) : rect M N (zeros2 d M N).
Proof.
  unfold rect, zeros2; split; [apply repeat_length|].
  apply Forall_forall; intros row Hrow.
  apply repeat_spec in Hrow; subst; apply repeat_length.
Qed.

Lemma rect_list_set {A : Type} (M N : nat) (a : ndarray2 A) (i : nat) (row : list A) :
  rect M N a -> length row = N -> rect M N (list_set i row a).
Proof.
  intros [HM HN] Hrow; split; [now rewrite list_set_length|].
  clear HM; revert i; induction HN as [|r a Hr Ha IH]; intros [|i]; simpl;
    constructor; auto.
Qed.

Lemma get2_zeros2 {A : Type} (d : A) (M N i j : nat) :
  get2 d (zeros2 d M N) i j = d.
Proof.
  unfold get2, zeros2.
  destruct (Nat.lt_ge_cases i M) as [Hi|Hi].
  - rewrite (nth_indep _ [] (repeat d N)) by (rewrite repeat_length; lia).
    rewrite nth_repeat. apply nth_repeat.
  - rewrite (nth_overflow (repeat (repeat d N) M))
      by (rewrite repeat_length; lia).
    now destruct j.
Qed.

(** [a[i, j] = v] with both indices inside the array. *)
Lemma setitem2_inside {A : Type} (M N : nat) (a : ndarray2 A) (i j : nat) (v : A) :
  rect M N a -> (i < M)%nat -> (j < N)%nat ->
  setitem2 a (Z.of_nat i) (Z.of_nat j) v
  = Ok (list_set i (list_set j v (nth i a [])) a).
Proof.
  intros Ha Hi Hj; unfold setitem2.
  rewrite py_index_of_nat by (destruct Ha; lia); simpl.
  rewrite (rect_nth_length M N) by assumption.
  now rewrite py_index_of_nat by lia.
Qed.

Lemma setitem2_row_outside {A : Type} (a : ndarray2 A) (i : nat) (c : Z) (v : A) :
  (length a <= i)%nat -> setitem2 a (Z.of_nat i) c v = Raise IndexError.
Proof.
  intros Hi; unfold setitem2. now rewrite py_index_of_nat_out.
Qed.

Lemma setitem2_col_outside {A : Type} (M N : nat) (a : ndarray2 A) (i j : nat) (v : A) :
  rect M N a -> (i < M)%nat -> (N <= j)%nat ->
  setitem2 a (Z.of_nat i) (Z.of_nat j) v = Raise IndexError.
Proof.
  intros Ha Hi Hj; unfold setitem2.
  rewrite py_index_of_nat by (destruct Ha; lia); simpl.
  rewrite (rect_nth_length M N) by assumption.
  now rewrite py_index_of_nat_out.
Qed.

Lemma get2_list_set {A : Type} (d : A) (M N : nat) (a : ndarray2 A) (i j i' j' : nat) (v : A) :
  rect M N a -> (i < M)%nat -> (j < N)%nat ->
  get2 d (list_set i (list_set j v (nth i a [])) a) i' j'
  = if (i =? i')%nat && (j =? j')%nat then v else get2 d a i' j'.
Proof.
  intros Ha Hi Hj; unfold get2.
  destruct (Nat.eqb_spec i i') as [<-|Hii]; simpl.
  - rewrite (nth_list_set_eq i _ []) by (destruct Ha; lia).
    destruct (Nat.eqb_spec j j') as [<-|Hjj].
    + apply nth_list_set_eq. rewrite (rect_nth_length M N); auto.
    + now apply nth_list_set_neq.
  - now rewrite (nth_list_set_neq i i').
Qed.

(** ** The sinusoid *)

Lemma py_div_zero (a : R) : py_div a 0 = Raise ZeroDivisionError.
Proof.
  unfold py_div. destruct (Req_EM_T 0 0) as [_|H]; [reflexivity | now elim H].
Qed.

Lemma py_div_nonzero (a b : R) : b <> 0 -> py_div a b = Ok (a / b).
Proof.
  intros H; unfold py_div. destruct (Req_EM_T b 0) as [E|_]; [now elim H | reflexivity].
Qed.

Lemma sinusoid_value_zero_period (wx wy fx fy phix phiy : R) (x y : nat) :
  wx = 0 \/ wy = 0 ->
  sinusoid_value wx wy fx fy phix phiy x y = Raise ZeroDivisionError.
Proof.
  intros [->| ->]; unfold sinusoid_value.
  - now rewrite py_div_zero.
  - destruct (Req_EM_T wx 0) as [->|Hwx].
    + now rewrite py_div_zero.
    + rewrite (py_div_nonzero _ wx) by assumption; simpl.
      now rewrite py_div_zero.
Qed.

Section Sinusoid.

Variables wx wy fx fy phix phiy : R.

(** The body of the inner loop, for a fixed [y]. *)
Let inner (y x : nat) (sin_xy : ndarray2 R) : result (ndarray2 R) :=
  v <- sinusoid_value wx wy fx fy phix phiy x y ;;
  setitem2 sin_xy (Z.of_nat x) (Z.of_nat y) v.

Let formula := sinusoid_formula wx wy fx fy phix phiy.

Hypothesis wx_nonzero : wx <> 0.
Hypothesis wy_nonzero : wy <> 0.

Lemma sinusoid_value_ok (x y : nat) :
  sinusoid_value wx wy fx fy phix phiy x y = Ok (formula x y).
Proof.
  unfold sinusoid_value. now rewrite !py_div_nonzero by assumption.
Qed.

Variables n0 n1 : nat.

(** The inner loop over [range(m)], with [y] a valid column and [m] no
    more than the number of rows, fills [sin_xy[0..m-1, y]]. *)
Lemma inner_loop_ok (y m : nat) (a : ndarray2 R) :
  rect n0 n1 a -> (y < n1)%nat -> (m <= n0)%nat ->
  exists a', for_in (range m) (inner y) a = Ok a' /\ rect n0 n1 a' /\
    forall x' y', get2 0 a' x' y'
      = if (x' <? m)%nat && (y' =? y)%nat then formula x' y' else get2 0 a x' y'.
Proof.
  intros Ha Hy; unfold range; induction m as [|m IH]; intros Hm.
  - exists a; simpl; repeat split; auto; apply Ha.
  - destruct IH as [a1 [E1 [R1 G1]]]; [lia|].
    rewrite seq_S, for_in_app, E1; simpl.
    unfold inner at 1. rewrite sinusoid_value_ok; simpl.
    rewrite (setitem2_inside n0 n1) by (auto; lia).
    eexists; split; [reflexivity|]; split.
    + apply rect_list_set; [assumption|].
      rewrite list_set_length. apply (rect_nth_length n0 n1); auto; lia.
    + intros x' y'. rewrite (get2_list_set 0 n0 n1) by (auto; lia).
      rewrite G1.
      destruct (Nat.eqb_spec m x'); destruct (Nat.eqb_spec y y');
        destruct (Nat.eqb_spec y' y); destruct (Nat.ltb_spec x' m);
        destruct (Nat.ltb_spec x' (S m)); simpl; subst; try lia; reflexivity.
Qed.

(** With more columns than rows the inner loop runs past the last row. *)
Lemma inner_loop_overflow (y : nat) (a : ndarray2 R) :
  rect n0 n1 a -> (y < n1)%nat -> (n0 < n1)%nat ->
  for_in (range n1) (inner y) a = Raise IndexError.
Proof.
  intros Ha Hy Hlt.
  destruct (inner_loop_ok y n0 a Ha Hy (le_n _)) as [a1 [E1 [R1 _]]].
  unfold range in *.
  replace n1 with (n0 + S (n1 - S n0))%nat at 1 by lia.
  rewrite seq_app, for_in_app, E1; simpl.
  unfold inner at 1. rewrite sinusoid_value_ok; simpl.
  rewrite setitem2_row_outside; [reflexivity | destruct R1; lia].
Qed.

(** A column index past the last column is refused at the first pixel. *)
Lemma inner_loop_bad_column (y m : nat) (a : ndarray2 R) :
  rect n0 n1 a -> (n1 <= y)%nat -> (1 <= n0)%nat -> (1 <= m)%nat ->
  for_in (range m) (inner y) a = Raise IndexError.
Proof.
  intros Ha Hy Hn0 Hm. destruct m as [|m]; [lia|].
  unfold range; simpl. unfold inner at 1. rewrite sinusoid_value_ok; simpl.
  now rewrite (setitem2_col_outside n0 n1 a 0 y) by (auto; lia).
Qed.

(** The outer loop over [range(k)] when no index leaves the array. *)
Lemma outer_loop_ok (k : nat) (a : ndarray2 R) :
  rect n0 n1 a -> (n1 <= n0)%nat -> (k <= n1)%nat ->
  exists a',
    for_in (range k) (fun y s => for_in (range n1) (inner y) s) a = Ok a' /\
    rect n0 n1 a' /\
    forall x' y', get2 0 a' x' y'
      = if (x' <? n1)%nat && (y' <? k)%nat then formula x' y' else get2 0 a x' y'.
Proof.
  intros Ha Hle; unfold range at 1; induction k as [|k IH]; intros Hk.
  - exists a; simpl; repeat split; try apply Ha.
    intros x' y'. now rewrite andb_false_r.
  - destruct IH as [a1 [E1 [R1 G1]]]; [lia|].
    rewrite seq_S, for_in_app, E1; simpl.
    destruct (inner_loop_ok k n1 a1 R1) as [a2 [E2 [R2 G2]]]; [lia|lia|].
    rewrite E2; simpl.
    exists a2; split; [reflexivity|]; split; [assumption|].
    intros x' y'; rewrite G2, G1.
    destruct (Nat.ltb_spec x' n1); destruct (Nat.eqb_spec y' k);
      destruct (Nat.ltb_spec y' k); destruct (Nat.ltb_spec y' (S k));
      simpl; subst; try lia; reflexivity.
Qed.

Lemma loops_square (n : nat) :
  n0 = n -> n1 = n ->
  exists a,
    for_in (range n) (fun y s => for_in (range n) (inner y) s) (zeros2 0 n n) = Ok a /\
    rect n n a /\
    forall x y, (x < n)%nat -> (y < n)%nat -> get2 0 a x y = formula x y.
Proof.
  intros E0 E1.
  destruct (outer_loop_ok n (zeros2 0 n n)) as [a [Ea [Ra Ga]]];
    try lia; [rewrite E0, E1; apply rect_zeros2|].
  rewrite E1 in Ea, Ga.
  exists a; split; [exact Ea|]; split; [now rewrite E0, E1 in Ra|].
  intros x y Hx Hy; rewrite Ga.
  destruct (Nat.ltb_spec x n); destruct (Nat.ltb_spec y n); simpl; try lia.
  reflexivity.
Qed.

Lemma loops_non_square :
  (1 <= n0)%nat -> (1 <= n1)%nat -> n0 <> n1 ->
  for_in (range n0) (fun y s => for_in (range n1) (inner y) s) (zeros2 0 n0 n1)
  = Raise IndexError.
Proof.
  intros H0 H1 Hne.
  destruct (Nat.lt_ge_cases n0 n1) as [Hlt|Hge].
  - (* more columns than rows: the first pass of the inner loop fails *)
    rewrite (range_head n0) by lia; simpl.
    rewrite inner_loop_overflow; auto using rect_zeros2; lia.
  - (* more rows than columns: y reaches the number of columns *)
    destruct (outer_loop_ok n1 (zeros2 0 n0 n1)) as [a [Ea [Ra _]]];
      auto using rect_zeros2.
    unfold range at 1.
    replace n0 with (n1 + S (n0 - S n1))%nat at 1 by lia.
    rewrite seq_app, for_in_app. unfold range at 1 in Ea. rewrite Ea; simpl.
    rewrite inner_loop_bad_column; auto.
Qed.

End Sinusoid.

(** On a square shape every pixel gets the documented value. *)
Lemma calculate_sinusoid_square (n : Z) (wx wy fx fy phix phiy : R) :
  (0 <= n)%Z -> wx <> 0 -> wy <> 0 ->
  exists a,
    calculate_sinusoid [n; n] wx wy fx fy phix phiy = Ok a /\
    rect (Z.to_nat n) (Z.to_nat n) a /\
    forall x y, (x < Z.to_nat n)%nat -> (y < Z.to_nat n)%nat ->
      get2 0 a x y = sinusoid_formula wx wy fx fy phix phiy x y.
Proof.
  intros Hn Hwx Hwy; unfold calculate_sinusoid; simpl.
  destruct (Z.ltb_spec n 0); [lia|]; simpl.
  exact (loops_square wx wy fx fy phix phiy Hwx Hwy
           (Z.to_nat n) (Z.to_nat n) (Z.to_nat n) eq_refl eq_refl).
Qed.

(** On a shape that is not square the loops index outside the array. *)
Lemma calculate_sinusoid_non_square (d0 d1 : Z) (wx wy fx fy phix phiy : R) :
  (1 <= d0)%Z -> (1 <= d1)%Z -> d0 <> d1 -> wx <> 0 -> wy <> 0 ->
  calculate_sinusoid [d0; d1] wx wy fx fy phix phiy = Raise IndexError.
Proof.
  intros H0 H1 Hne Hwx Hwy; unfold calculate_sinusoid; simpl.
  destruct (Z.ltb_spec d0 0); [lia|]; destruct (Z.ltb_spec d1 0); [lia|]; simpl.
  apply (loops_non_square wx wy fx fy phix phiy Hwx Hwy); lia.
Qed.

(** C7 (defect of the code).  The documented value is promised at every
    pixel of every shape with both sizes at least 1.  For the shape
    (1, 2), with periods 1 and all frequencies and phases 0,
    [calculate_sinusoid] raises [IndexError] instead of returning an array:
    [y] runs over the first axis and [x] over the second, but the store is
    [sin_xy[x,y]]. *)
Theorem calculate_sinusoid_1x2_raises :
  calculate_sinusoid [1; 2]%Z 1 1 0 0 0 0 = Raise IndexError.
Proof.
  apply calculate_sinusoid_non_square; try lia; lra.
Qed.

(** C8 (counterexample).  With both periods zero and the shape (3, 0) the
    inner loop never runs, no quotient is evaluated, and the call returns
    the empty array of that shape. *)
Lemma calculate_sinusoid_zero_period_empty :
  calculate_sinusoid [3; 0]%Z 0 0 1 1 0 0 = Ok [[]; []; []] /\
  calculate_sinusoid [3; 0]%Z 0 0 1 1 0 0 <> Raise ZeroDivisionError.
Proof.
  assert (E : calculate_sinusoid [3; 0]%Z 0 0 1 1 0 0 = Ok [[]; []; []])
    by reflexivity.
  split; [exact E | rewrite E; discriminate].
Qed.

(** ** The sinusoid on operands of either kind *)

Lemma for_in_ext {S : Type} (l : list nat) (b1 b2 : nat -> S -> result S) (s : S) :
  (forall i s', b1 i s' = b2 i s') -> for_in l b1 s = for_in l b2 s.
Proof.
  intros H; revert s; induction l as [|i l IH]; intros s; simpl; [reflexivity|].
  rewrite H. destruct (b2 i s) as [s'|e]; simpl; [apply IH | reflexivity].
Qed.

(** A loop whose body never raises [e] does not raise [e]. *)
Lemma for_in_never {S : Type} (e : PyError) (l : list nat)
  (body : nat -> S -> result S) (s : S) :
  (forall i s', body i s' <> Raise e) -> for_in l body s <> Raise e.
Proof.
  intros H; revert s; induction l as [|i l IH]; intros s; simpl; [discriminate|].
  destruct (body i s) as [s'|e'] eqn:E; simpl; [apply IH|].
  rewrite <- E; apply H.
Qed.

(** A loop on the image of a state under [g]. *)
Lemma for_in_map {S T : Type} (g : S -> T) (l : list nat)
  (b1 : nat -> S -> result S) (b2 : nat -> T -> result T) (s : S) :
  (forall i s', b2 i (g s') = result_map g (b1 i s')) ->
  for_in l b2 (g s) = result_map g (for_in l b1 s).
Proof.
  intros H; revert s; induction l as [|i l IH]; intros s; simpl; [reflexivity|].
  rewrite H. destruct (b1 i s) as [s'|e]; simpl; [apply IH | reflexivity].
Qed.

Lemma list_set_map {A B : Type} (f : A -> B) (i : nat) (v : A) (l : list A) :
  list_set i (f v) (map f l) = map f (list_set i v l).
Proof.
  revert i; induction l as [|x l IH]; intros [|i]; simpl; try reflexivity.
  now rewrite IH.
Qed.

Lemma setitem2_map {A B : Type} (f : A -> B) (a : ndarray2 A) (r c : Z) (v : A) :
  setitem2 (map (map f) a) r c (f v) = result_map (map (map f)) (setitem2 a r c v).
Proof.
  unfold setitem2. rewrite length_map.
  destruct (py_index (length a) r) as [i|e]; simpl; [|reflexivity].
  change (@nil B) with (map f []).
  rewrite (map_nth (map f) a []), length_map.
  destruct (py_index (length (nth i a [])) c) as [j|e]; simpl; [|reflexivity].
  now rewrite list_set_map, (list_set_map (map f)).
Qed.

Lemma py_index_error (n : nat) (i : Z) (e : PyError) :
  py_index n i = Raise e -> e = IndexError.
Proof.
  unfold py_index.
  destruct ((0 <=? i)%Z && (i <? Z.of_nat n)%Z); [discriminate|].
  destruct ((- Z.of_nat n <=? i)%Z && (i <? 0)%Z); [discriminate|].
  now intros [= <-].
Qed.

(** An indexed store raises nothing but [IndexError]. *)
Lemma setitem2_error {A : Type} (a : ndarray2 A) (r c : Z) (v : A) (e : PyError) :
  setitem2 a r c v = Raise e -> e = IndexError.
Proof.
  unfold setitem2.
  destruct (py_index (length a) r) as [i|e1] eqn:E1; simpl;
    [| intros [= <-]; exact (py_index_error _ _ _ E1)].
  destruct (py_index (length (nth i a [])) c) as [j|e2] eqn:E2; simpl;
    [discriminate | intros [= <-]; exact (py_index_error _ _ _ E2)].
Qed.

(** The quotient [2*np.pi*f*x/w] raises exactly on a division of Python
    numbers by zero; in every other case it has a value, which is not
    finite when [w] is zero. *)
Lemma phase_term_raises (f w : operand) (x : nat) :
  python_zero_division f w -> phase_term f w x = Raise ZeroDivisionError.
Proof.
  intros [Hw [Hf Hp]]. destruct f as [f|f]; [|discriminate].
  destruct w as [w|w]; [|discriminate]. simpl in Hw; subst w.
  unfold phase_term; simpl. now rewrite py_div_zero.
Qed.

Lemma phase_term_value (f w : operand) (x : nat) :
  ~ python_zero_division f w ->
  exists t, phase_term f w x = Ok t /\
            (value w = 0 -> to_float64 t = NonFinite).
Proof.
  intros Hn. destruct f as [f|f], w as [w|w]; unfold phase_term; simpl.
  - destruct (Req_EM_T w 0) as [->|Hw].
    + elim Hn; repeat split; reflexivity.
    + rewrite py_div_nonzero by assumption; simpl.
      eexists; split; [reflexivity | intros E; contradiction].
  - eexists; split; [reflexivity|]. intros ->.
    now destruct (Req_EM_T 0 0) as [_|H]; [|elim H].
  - eexists; split; [reflexivity|]. intros ->.
    now destruct (Req_EM_T 0 0) as [_|H]; [|elim H].
  - eexists; split; [reflexivity|]. intros ->.
    now destruct (Req_EM_T 0 0) as [_|H]; [|elim H].
Qed.

Lemma scalar_op_non_finite_l (f : R -> R -> R) (a b : scalar) :
  to_float64 a = NonFinite -> to_float64 (scalar_op f a b) = NonFinite.
Proof.
  destruct a as [x|[x|]]; simpl; try discriminate. now destruct b.
Qed.

Lemma scalar_op_non_finite_r (f : R -> R -> R) (a b : scalar) :
  to_float64 b = NonFinite -> to_float64 (scalar_op f a b) = NonFinite.
Proof.
  destruct b as [y|[y|]]; simpl; try discriminate.
  now destruct a as [x|[x|]].
Qed.

Section Fill.

Variable A : Type.
Variable d : A.
Variable f : nat -> nat -> A.
Variable n : nat.

(** [sin_xy[x,y] = f x y] *)
Let store (y x : nat) (s : ndarray2 A) : result (ndarray2 A) :=
  setitem2 s (Z.of_nat x) (Z.of_nat y) (f x y).

Lemma fill_inner (y m : nat) (a : ndarray2 A) :
  rect n n a -> (y < n)%nat -> (m <= n)%nat ->
  exists a', for_in (range m) (store y) a = Ok a' /\ rect n n a' /\
    forall x' y', get2 d a' x' y'
      = if (x' <? m)%nat && (y' =? y)%nat then f x' y' else get2 d a x' y'.
Proof.
  intros Ha Hy; unfold range; induction m as [|m IH]; intros Hm.
  - exists a; simpl; repeat split; auto; apply Ha.
  - destruct IH as [a1 [E1 [R1 G1]]]; [lia|].
    rewrite seq_S, for_in_app, E1; simpl.
    unfold store at 1.
    rewrite (setitem2_inside n n) by (auto; lia).
    eexists; split; [reflexivity|]; split.
    + apply rect_list_set; [assumption|].
      rewrite list_set_length. apply (rect_nth_length n n); auto; lia.
    + intros x' y'. rewrite (get2_list_set d n n) by (auto; lia).
      rewrite G1.
      destruct (Nat.eqb_spec m x'); destruct (Nat.eqb_spec y y');
        destruct (Nat.eqb_spec y' y); destruct (Nat.ltb_spec x' m);
        destruct (Nat.ltb_spec x' (S m)); simpl; subst; try lia; reflexivity.
Qed.

Lemma fill_outer (k : nat) (a : ndarray2 A) :
  rect n n a -> (k <= n)%nat ->
  exists a',
    for_in (range k) (fun y s => for_in (range n) (store y) s) a = Ok a' /\
    rect n n a' /\
    forall x' y', get2 d a' x' y'
      = if (x' <? n)%nat && (y' <? k)%nat then f x' y' else get2 d a x' y'.
Proof.
  intros Ha; unfold range at 1; induction k as [|k IH]; intros Hk.
  - exists a; simpl; repeat split; try apply Ha.
    intros x' y'. now rewrite andb_false_r.
  - destruct IH as [a1 [E1 [R1 G1]]]; [lia|].
    rewrite seq_S, for_in_app, E1; simpl.
    destruct (fill_inner k n a1 R1) as [a2 [E2 [R2 G2]]]; [lia|lia|].
    rewrite E2; simpl.
    exists a2; split; [reflexivity|]; split; [assumption|].
    intros x' y'; rewrite G2, G1.
    destruct (Nat.ltb_spec x' n); destruct (Nat.eqb_spec y' k);
      destruct (Nat.ltb_spec y' k); destruct (Nat.ltb_spec y' (S k));
      simpl; subst; try lia; reflexivity.
Qed.

End Fill.

Lemma python_zero_division_dec (f w : operand) :
  python_zero_division f w \/ ~ python_zero_division f w.
Proof.
  unfold python_zero_division.
  destruct (Req_dec (value w) 0) as [Hw|Hw]; [|right; tauto].
  destruct (is_python f); [|right; intros [_ [H _]]; discriminate].
  destruct (is_python w); [left; auto | right; intros [_ [_ H]]; discriminate].
Qed.

Section Mixed.

Variables wx wy fx fy phix phiy : operand.

Let val := sinusoid_value_mixed wx wy fx fy phix phiy.

(** The body of the inner loop, for a fixed [y]. *)
Let inner (y x : nat) (sin_xy : ndarray2 float64) : result (ndarray2 float64) :=
  v <- val x y ;; setitem2 sin_xy (Z.of_nat x) (Z.of_nat y) v.

Lemma sinusoid_value_mixed_raises (x y : nat) :
  python_zero_division fx wx \/ python_zero_division fy wy ->
  val x y = Raise ZeroDivisionError.
Proof.
  intros H; unfold val, sinusoid_value_mixed.
  destruct (python_zero_division_dec fx wx) as [Hx|Hx].
  - now rewrite phase_term_raises.
  - destruct (phase_term_value fx wx x Hx) as [tx [-> _]]; simpl.
    destruct H as [H|H]; [contradiction|].
    now rewrite phase_term_raises.
Qed.

(** Without such a division the right-hand side has a value, which is
    not finite when a period is zero. *)
Lemma sinusoid_value_mixed_value (x y : nat) :
  ~ (python_zero_division fx wx \/ python_zero_division fy wy) ->
  exists v, val x y = Ok v /\
            (value wx = 0 \/ value wy = 0 -> v = NonFinite).
Proof.
  intros Hn; unfold val, sinusoid_value_mixed.
  destruct (phase_term_value fx wx x) as [tx [-> Hx]]; [tauto|]; simpl.
  destruct (phase_term_value fy wy y) as [ty [-> Hy]]; [tauto|]; simpl.
  eexists; split; [reflexivity|].
  intros Hw. unfold np_sin.
  rewrite scalar_op_non_finite_l; [reflexivity|].
  destruct Hw as [Hw|Hw].
  - apply scalar_op_non_finite_l, scalar_op_non_finite_l; auto.
  - apply scalar_op_non_finite_r; auto.
Qed.

Lemma inner_not_zero_division (y x : nat) (a : ndarray2 float64) :
  ~ (python_zero_division fx wx \/ python_zero_division fy wy) ->
  inner y x a <> Raise ZeroDivisionError.
Proof.
  intros Hn; unfold inner.
  destruct (sinusoid_value_mixed_value x y Hn) as [v [-> _]]; simpl.
  intros E; apply setitem2_error in E; discriminate.
Qed.

(** On a square shape, without a division of Python numbers by zero, the
    loops fill the array with the values of the right-hand side. *)
Lemma mixed_loops_square (n : nat) :
  ~ (python_zero_division fx wx \/ python_zero_division fy wy) ->
  exists a,
    for_in (range n) (fun y s => for_in (range n) (inner y) s)
      (zeros2 (Finite 0) n n) = Ok a /\
    rect n n a /\
    forall x y, (x < n)%nat -> (y < n)%nat -> val x y = Ok (get2 (Finite 0) a x y).
Proof.
  intros Hn.
  set (g := fun x y => match val x y with Ok v => v | Raise _ => NonFinite end).
  assert (Hg : forall x y, val x y = Ok (g x y)).
  { intros x y; unfold g.
    now destruct (sinusoid_value_mixed_value x y Hn) as [v [-> _]]. }
  destruct (fill_outer float64 (Finite 0) g n n (zeros2 (Finite 0) n n))
    as [a [Ea [Ra Ga]]]; [apply rect_zeros2 | lia |].
  exists a; split; [|split; [exact Ra|]].
  - rewrite <- Ea. apply for_in_ext; intros y s.
    apply for_in_ext; intros x s'. unfold inner. now rewrite Hg.
  - intros x y Hx Hy. rewrite Ga, Hg.
    destruct (Nat.ltb_spec x n); destruct (Nat.ltb_spec y n); simpl; try lia.
    reflexivity.
Qed.

End Mixed.

(** On Python numbers the function is [calculate_sinusoid]. *)
Lemma sinusoid_value_mixed_python (wx wy fx fy phix phiy : R) (x y : nat) :
  sinusoid_value_mixed (PyNumber wx) (PyNumber wy) (PyNumber fx) (PyNumber fy)
    (PyNumber phix) (PyNumber phiy) x y
  = result_map Finite (sinusoid_value wx wy fx fy phix phiy x y).
Proof.
  unfold sinusoid_value_mixed, sinusoid_value, phase_term; simpl.
  destruct (py_div (2 * PI * fx * INR x) wx) as [tx|e]; simpl; [|reflexivity].
  destruct (py_div (2 * PI * fy * INR y) wy) as [ty|e]; simpl; reflexivity.
Qed.

Lemma zeros2_map {A B : Type} (f : A -> B) (d : A) (M N : nat) :
  zeros2 (f d) M N = map (map f) (zeros2 d M N).
Proof.
  unfold zeros2. now rewrite !map_repeat.
Qed.

Lemma calculate_sinusoid_mixed_python (dimension : list Z)
  (wx wy fx fy phix phiy : R) :
  calculate_sinusoid_mixed dimension (PyNumber wx) (PyNumber wy) (PyNumber fx)
    (PyNumber fy) (PyNumber phix) (PyNumber phiy)
  = result_map (map (map Finite))
      (calculate_sinusoid dimension wx wy fx fy phix phiy).
Proof.
  unfold calculate_sinusoid_mixed, calculate_sinusoid.
  destruct (negb (length dimension =? 2)%nat); [reflexivity|].
  destruct ((nth 0 dimension 0 <? 0) || (nth 1 dimension 0 <? 0))%Z;
    [reflexivity|].
  rewrite (zeros2_map Finite). apply for_in_map; intros y s.
  apply for_in_map; intros x s'.
  rewrite sinusoid_value_mixed_python.
  destruct (sinusoid_value wx wy fx fy phix phiy x y) as [v|e]; simpl;
    [apply setitem2_map | reflexivity].
Qed.

(** C8 (amended).  For every shape of two sizes that are both at least 1
    and all frequencies and phases, [calculate_sinusoid] raises
    [ZeroDivisionError] exactly when a period is zero and that period and
    the frequency it goes with are both Python numbers.  When a period is
    zero and no such division occurs, because the period or its frequency
    is a numpy scalar, the quotient is [inf] or [nan], and on a square
    shape the call returns an array of that shape whose entries are all
    non-finite. *)
Theorem calculate_sinusoid_zero_period (d0 d1 : Z)
  (wx wy fx fy phix phiy : operand) :
  (1 <= d0)%Z -> (1 <= d1)%Z ->
  (calculate_sinusoid_mixed [d0; d1] wx wy fx fy phix phiy
     = Raise ZeroDivisionError
   <-> python_zero_division fx wx \/ python_zero_division fy wy) /\
  (value wx = 0 \/ value wy = 0 ->
   ~ (python_zero_division fx wx \/ python_zero_division fy wy) ->
   d0 = d1 ->
   exists a,
     calculate_sinusoid_mixed [d0; d1] wx wy fx fy phix phiy = Ok a /\
     rect (Z.to_nat d0) (Z.to_nat d1) a /\
     forall x y, (x < Z.to_nat d0)%nat -> (y < Z.to_nat d1)%nat ->
       get2 (Finite 0) a x y = NonFinite).
Proof.
  intros H0 H1.
  assert (E : calculate_sinusoid_mixed [d0; d1] wx wy fx fy phix phiy
    = for_in (range (Z.to_nat d0))
        (fun y s =>
           for_in (range (Z.to_nat d1))
             (fun x s' =>
                v <- sinusoid_value_mixed wx wy fx fy phix phiy x y ;;
                setitem2 s' (Z.of_nat x) (Z.of_nat y) v) s)
        (zeros2 (Finite 0) (Z.to_nat d0) (Z.to_nat d1))).
  { unfold calculate_sinusoid_mixed; simpl.
    destruct (Z.ltb_spec d0 0); [lia|]; destruct (Z.ltb_spec d1 0); [lia|].
    reflexivity. }
  rewrite E; clear E. split; [split|].
  - intros Hr.
    destruct (python_zero_division_dec fx wx) as [Hx|Hx]; [now left|].
    destruct (python_zero_division_dec fy wy) as [Hy|Hy]; [now right|].
    exfalso; revert Hr. apply for_in_never; intros y s.
    apply for_in_never; intros x s'.
    apply (inner_not_zero_division wx wy fx fy phix phiy y x s'); tauto.
  - intros Hz.
    rewrite (range_head (Z.to_nat d0)) by lia; simpl.
    rewrite (range_head (Z.to_nat d1)) by lia; simpl.
    now rewrite (sinusoid_value_mixed_raises wx wy fx fy phix phiy).
  - intros Hw Hn <-.
    destruct (mixed_loops_square wx wy fx fy phix phiy (Z.to_nat d0) Hn)
      as [a [Ea [Ra Ga]]].
    exists a; split; [exact Ea|]; split; [exact Ra|].
    intros x y Hx Hy.
    destruct (sinusoid_value_mixed_value wx wy fx fy phix phiy x y Hn)
      as [v [Ev Hv]].
    specialize (Ga x y Hx Hy). rewrite Ev in Ga.
    injection Ga as <-. now apply Hv.
Qed.

Lemma calculate_sinusoid_zero_period_witness :
  calculate_sinusoid_mixed [4; 4]%Z (PyNumber 0) (PyNumber 4) (PyNumber 1)
    (PyNumber 1) (PyNumber 0) (PyNumber 0) = Raise ZeroDivisionError /\
  exists a,
    calculate_sinusoid_mixed [4; 4]%Z (NpScalar 0) (PyNumber 4) (PyNumber 1)
      (PyNumber 1) (PyNumber 0) (PyNumber 0) = Ok a /\
    rect (Z.to_nat 4) (Z.to_nat 4) a /\
    forall x y, (x < Z.to_nat 4)%nat -> (y < Z.to_nat 4)%nat ->
      get2 (Finite 0) a x y = NonFinite.
Proof.
  split.
  - apply (calculate_sinusoid_zero_period 4 4); [lia | lia |].
    left; repeat split; reflexivity.
  - apply (calculate_sinusoid_zero_period 4 4); [lia | lia | | | reflexivity].
    + left; reflexivity.
    + intros [[_ [_ H]]|[H _]]; [discriminate | simpl in H; lra].
Defined.

(** C10.  Whenever [dimension] does not have exactly two entries,
    [calculate_sinusoid] raises [ValueError], whatever the other arguments
    are (zero periods included): the guard comes before the allocation and
    the loops. *)
Theorem calculate_sinusoid_bad_length (dimension : list Z) (wx wy fx fy phix phiy : R) :
  length dimension <> 2%nat ->
  calculate_sinusoid dimension wx wy fx fy phix phiy = Raise ValueError.
Proof.
  intros H; unfold calculate_sinusoid.
  destruct (Nat.eqb_spec (length dimension) 2); [contradiction | reflexivity].
Qed.

Lemma calculate_sinusoid_bad_length_witness :
  calculate_sinusoid [4; 4; 4]%Z 0 0 1 1 0 0 = Raise ValueError.
Proof.
  apply (calculate_sinusoid_bad_length [4; 4; 4]%Z 0 0 1 1 0 0); simpl; lia.
Defined.

(** ** Slice assignment and the frequency mask *)

Lemma mapi_from_length {A B : Type} (f : nat -> A -> B) (l : list A) (s : nat) :
  length (mapi_from s f l) = length l.
Proof.
  revert s; induction l as [|x l IH]; intros s; simpl; auto.
Qed.

Lemma nth_mapi_from {A B : Type} (f : nat -> A -> B) (l : list A) (s i : nat) (d : A) (e : B) :
  (i < length l)%nat -> nth i (mapi_from s f l) e = f (s + i)%nat (nth i l d).
Proof.
  revert s i; induction l as [|x l IH]; intros s [|i] H; simpl in *; try lia.
  - now rewrite Nat.add_0_r.
  - rewrite IH by lia. f_equal; lia.
Qed.

Lemma Forall_mapi_from {A B : Type} (P : A -> Prop) (Q : B -> Prop)
  (f : nat -> A -> B) (l : list A) (s : nat) :
  (forall i x, P x -> Q (f i x)) -> Forall P l -> Forall Q (mapi_from s f l).
Proof.
  intros Hf Hl; revert s; induction Hl as [|x l Hx Hl IH]; intros s; simpl;
    constructor; auto.
Qed.

Lemma setslice2_rect {A : Type} (M N : nat) (a : ndarray2 A) (r0 r1 c0 c1 : Z) (v : A) :
  rect M N a -> rect M N (setslice2 a r0 r1 c0 c1 v).
Proof.
  intros [HM HN]; unfold setslice2, mapi; split.
  - now rewrite mapi_from_length.
  - apply Forall_mapi_from with (P := fun row => length row = N); [|exact HN].
    intros i row Hrow.
    destruct (in_slice (length a) r0 r1 i); [now rewrite mapi_from_length | assumption].
Qed.

Lemma get2_setslice2 {A : Type} (d : A) (M N : nat) (a : ndarray2 A)
  (r0 r1 c0 c1 : Z) (v : A) (i j : nat) :
  rect M N a -> (i < M)%nat -> (j < N)%nat ->
  get2 d (setslice2 a r0 r1 c0 c1 v) i j
  = if in_slice M r0 r1 i && in_slice N c0 c1 j then v else get2 d a i j.
Proof.
  intros Ha Hi Hj; unfold get2, setslice2, mapi.
  assert (HM : length a = M) by apply Ha.
  rewrite (nth_mapi_from _ a 0 i []) by lia; simpl.
  rewrite HM. destruct (in_slice M r0 r1 i); simpl; [|reflexivity].
  rewrite (nth_mapi_from _ _ 0 j d) by (rewrite (rect_nth_length M N); auto).
  simpl. now rewrite (rect_nth_length M N) by auto.
Qed.

Lemma in_slice_iff (n : nat) (start stop : Z) (k : nat) :
  in_slice n start stop k = true
  <-> (slice_adjust n start <= k < slice_adjust n stop)%nat.
Proof.
  unfold in_slice. rewrite andb_true_iff, Nat.leb_le, Nat.ltb_lt. tauto.
Qed.

(** A slice bound inside the axis is taken as it is. *)
Lemma slice_adjust_inside (n : nat) (i : Z) :
  (0 <= i <= Z.of_nat n)%Z -> slice_adjust n i = Z.to_nat i.
Proof.
  intros H; unfold slice_adjust.
  destruct (Z.ltb_spec i 0); [lia|]. f_equal; lia.
Qed.

Lemma in_slice_inside (n : nat) (lo hi : Z) (k : nat) :
  bounds_inside n lo hi ->
  in_slice n lo (hi + 1) k = true <-> (lo <= Z.of_nat k <= hi)%Z.
Proof.
  intros [Hlo Hhi]; rewrite in_slice_iff.
  rewrite (slice_adjust_inside n (hi + 1)) by lia.
  unfold slice_adjust. destruct (Z.ltb_spec lo 0); lia.
Qed.

(** C6 (counterexample).  On a 4 x 4 array with zero offset and
    half-extents 3 the bounds are -1 and 5 on both axes, outside [0, 4);
    [buildRectangularMask] raises nothing and returns a mask, True at the
    single entry (3, 3) that the adjusted slices [-1:6] select. *)
Lemma buildRectangularMask_out_of_range_returns :
  (x_start 4 0 3 < 0)%Z /\ (Z.of_nat 4 <= x_stop 4 0 3)%Z /\
  (y_start 4 0 3 < 0)%Z /\ (Z.of_nat 4 <= y_stop 4 0 3)%Z /\
  buildRectangularMask 4 4 0 0 3 3
  = Ok [[false; false; false; false];
        [false; false; false; false];
        [false; false; false; false];
        [false; false; false; true]].
Proof.
  repeat split; vm_compute; congruence.
Qed.

(** C6 (amended).  [buildRectangularMask] never fails: for every shape,
    offset and half-extents it returns a mask of shape (Nx, Ny).  The
    bounds are adjusted the way numpy adjusts slice bounds (a negative
    bound has the axis length added and is clipped at 0, any other bound
    is clipped at the axis length), and the mask is True exactly on the
    adjusted rectangle: bounds outside the array are never reported. *)
Theorem buildRectangularMask_never_fails (Nx Ny : nat) (OFFSETx OFFSETy Kx Ky : Z) :
  exists mask,
    buildRectangularMask Nx Ny OFFSETx OFFSETy Kx Ky = Ok mask /\
    rect Nx Ny mask /\
    forall y x, (y < Nx)%nat -> (x < Ny)%nat ->
      (get2 false mask y x = true <->
       (slice_adjust Nx (y_start Ny OFFSETy Ky) <= y
          < slice_adjust Nx (y_stop Ny OFFSETy Ky + 1))%nat /\
       (slice_adjust Ny (x_start Nx OFFSETx Kx) <= x
          < slice_adjust Ny (x_stop Nx OFFSETx Kx + 1))%nat).
Proof.
  eexists; split; [reflexivity|]; split.
  - apply setslice2_rect, rect_zeros2.
  - intros y x Hy Hx.
    rewrite (get2_setslice2 false Nx Ny) by auto using rect_zeros2.
    rewrite get2_zeros2, <- !in_slice_iff.
    destruct (in_slice Nx _ _ y); destruct (in_slice Ny _ _ x); simpl;
      intuition congruence.
Qed.

(** C5.  When the rectangle lies inside the array (its bounds are valid
    indices of the axis they slice: rows for [y], columns for [x]),
    [buildRectangularMask] returns a mask of shape (Nx, Ny) whose entry at
    row [y] and column [x] is True exactly when
    [int(Cy)+OFFSETy-Ky <= y <= int(Cy)+OFFSETy+Ky] and
    [int(Cx)+OFFSETx-Kx <= x <= int(Cx)+OFFSETx+Kx], where [int(Cx)] and
    [int(Cy)] are [Nx/2] and [Ny/2] truncated toward zero. *)
Theorem buildRectangularMask_inside (Nx Ny : nat) (OFFSETx OFFSETy Kx Ky : Z) :
  bounds_inside Nx (y_start Ny OFFSETy Ky) (y_stop Ny OFFSETy Ky) ->
  bounds_inside Ny (x_start Nx OFFSETx Kx) (x_stop Nx OFFSETx Kx) ->
  exists mask,
    buildRectangularMask Nx Ny OFFSETx OFFSETy Kx Ky = Ok mask /\
    rect Nx Ny mask /\
    forall y x, (y < Nx)%nat -> (x < Ny)%nat ->
      (get2 false mask y x = true <->
       (Z.quot (Z.of_nat Ny) 2 + OFFSETy - Ky <= Z.of_nat y
          <= Z.quot (Z.of_nat Ny) 2 + OFFSETy + Ky)%Z /\
       (Z.quot (Z.of_nat Nx) 2 + OFFSETx - Kx <= Z.of_nat x
          <= Z.quot (Z.of_nat Nx) 2 + OFFSETx + Kx)%Z).
Proof.
  intros Hy Hx.
  eexists; split; [reflexivity|]; split.
  - apply setslice2_rect, rect_zeros2.
  - intros y x Hyy Hxx.
    rewrite (get2_setslice2 false Nx Ny) by auto using rect_zeros2.
    rewrite get2_zeros2.
    rewrite <- (in_slice_inside Nx _ _ y Hy), <- (in_slice_inside Ny _ _ x Hx).
    destruct (in_slice Nx _ _ y); destruct (in_slice Ny _ _ x); simpl;
      intuition congruence.
Qed.

Lemma buildRectangularMask_inside_witness :
  exists mask,
    buildRectangularMask 8 8 0 0 3 3 = Ok mask /\
    rect 8 8 mask /\
    forall y x, (y < 8)%nat -> (x < 8)%nat ->
      (get2 false mask y x = true <->
       (Z.quot (Z.of_nat 8) 2 + 0 - 3 <= Z.of_nat y
          <= Z.quot (Z.of_nat 8) 2 + 0 + 3)%Z /\
       (Z.quot (Z.of_nat 8) 2 + 0 - 3 <= Z.of_nat x
          <= Z.quot (Z.of_nat 8) 2 + 0 + 3)%Z).
Proof.
  apply (buildRectangularMask_inside 8 8 0 0 3 3); vm_compute; intuition congruence.
Defined.

(** ** The interference *)

Lemma mod_wrap (n x : Z) :
  (- n <= x < n)%Z -> (x mod n = if x <? 0 then x + n else x)%Z.
Proof.
  intros H. destruct (Z.ltb_spec x 0).
  - rewrite <- (Z.mod_small (x + n) n) by lia.
    now rewrite <- (Z_mod_plus_full x 1 n), Z.mul_1_l.
  - apply Z.mod_small; lia.
Qed.

(** An index in [[-n, n)] selects position [i mod n]. *)
Lemma py_index_valid (n : nat) (i : Z) :
  (- Z.of_nat n <= i < Z.of_nat n)%Z ->
  py_index n i = Ok (Z.to_nat (i mod Z.of_nat n)).
Proof.
  intros H. rewrite mod_wrap by assumption.
  destruct (Z.ltb_spec i 0).
  - apply py_index_wraps; lia.
  - apply py_index_inside; lia.
Qed.

Lemma py_index_valid_bound (n : nat) (i : Z) :
  (- Z.of_nat n <= i < Z.of_nat n)%Z -> (Z.to_nat (i mod Z.of_nat n) < n)%nat.
Proof.
  intros H. apply (py_index_bound n i). now apply py_index_valid.
Qed.

(** C9 (counterexample).  In a 4 x 4 spectrum of zeros the position
    (OFFSETx, OFFSETy) = (-3, 0) converts to row 2 and column 2 - 3 = -1,
    outside the array; [injectPoint] raises nothing and overwrites the
    coefficient at row 2, column 3. *)
Lemma injectPoint_negative_index_wraps :
  (int_center 4 + -3 < 0)%Z /\
  injectPoint (zeros2 0%Z 4 4) (-3) 0 7%Z
  = Ok [[0; 0; 0; 0]; [0; 0; 0; 0]; [0; 0; 0; 7]; [0; 0; 0; 0]]%Z.
Proof.
  split; vm_compute; reflexivity.
Qed.

(** C9 (amended).  [injectPoint] converts the position to the index
    (row, column) = (int(Cy)+OFFSETy, int(Cx)+OFFSETx), where [Cx] and [Cy]
    are half the first and the second size.  When the row lies in
    [[-Nx, Nx)] and the column in [[-Ny, Ny)], it returns an array of the
    same shape in which exactly one coefficient, the one at
    (row mod Nx, column mod Ny), is overwritten by the value (a negative
    index counts from the end of its axis); otherwise it raises
    [IndexError]. *)
Theorem injectPoint_spec {A : Type} (d : A) (kspace : ndarray2 A)
  (OFFSETx OFFSETy : Z) (value : A) :
  rect (shape0 kspace) (shape1 kspace) kspace ->
  ((- Z.of_nat (shape0 kspace) <= int_center (shape1 kspace) + OFFSETy
      < Z.of_nat (shape0 kspace))%Z ->
   (- Z.of_nat (shape1 kspace) <= int_center (shape0 kspace) + OFFSETx
      < Z.of_nat (shape1 kspace))%Z ->
   exists kspace_mod,
     injectPoint kspace OFFSETx OFFSETy value = Ok kspace_mod /\
     rect (shape0 kspace) (shape1 kspace) kspace_mod /\
     forall i j, (i < shape0 kspace)%nat -> (j < shape1 kspace)%nat ->
       get2 d kspace_mod i j
       = if (Z.of_nat i =? (int_center (shape1 kspace) + OFFSETy)
                             mod Z.of_nat (shape0 kspace))%Z
            && (Z.of_nat j =? (int_center (shape0 kspace) + OFFSETx)
                                mod Z.of_nat (shape1 kspace))%Z
         then value else get2 d kspace i j)
  /\
  (~ ((- Z.of_nat (shape0 kspace) <= int_center (shape1 kspace) + OFFSETy
         < Z.of_nat (shape0 kspace))%Z /\
      (- Z.of_nat (shape1 kspace) <= int_center (shape0 kspace) + OFFSETx
         < Z.of_nat (shape1 kspace))%Z) ->
   injectPoint kspace OFFSETx OFFSETy value = Raise IndexError).
Proof.
  set (Nx := shape0 kspace); set (Ny := shape1 kspace).
  set (r := (int_center Ny + OFFSETy)%Z); set (c := (int_center Nx + OFFSETx)%Z).
  intros Hrect.
  assert (Hinj : injectPoint kspace OFFSETx OFFSETy value = setitem2 kspace r c value)
    by reflexivity.
  rewrite Hinj; unfold setitem2; fold (shape0 kspace); fold Nx.
  split.
  - intros Hr Hc.
    pose proof (py_index_valid_bound Nx r Hr) as Br.
    pose proof (py_index_valid_bound Ny c Hc) as Bc.
    rewrite (py_index_valid Nx r Hr); simpl.
    rewrite (rect_nth_length Nx Ny) by assumption.
    rewrite (py_index_valid Ny c Hc); simpl.
    eexists; split; [reflexivity|]; split.
    + apply rect_list_set; [assumption|].
      rewrite list_set_length. now apply (rect_nth_length Nx Ny).
    + intros i j Hi Hj. rewrite (get2_list_set d Nx Ny) by assumption.
      assert (0 <= r mod Z.of_nat Nx)%Z by (apply Z.mod_pos_bound; lia).
      assert (0 <= c mod Z.of_nat Ny)%Z by (apply Z.mod_pos_bound; lia).
      destruct (Nat.eqb_spec (Z.to_nat (r mod Z.of_nat Nx)) i);
        destruct (Nat.eqb_spec (Z.to_nat (c mod Z.of_nat Ny)) j);
        destruct (Z.eqb_spec (Z.of_nat i) (r mod Z.of_nat Nx));
        destruct (Z.eqb_spec (Z.of_nat j) (c mod Z.of_nat Ny));
        simpl; try reflexivity; lia.
  - intros Hout.
    destruct (Z_le_dec (- Z.of_nat Nx) r) as [Hr1|Hr1];
      [destruct (Z_lt_dec r (Z.of_nat Nx)) as [Hr2|Hr2]|];
      try (rewrite (py_index_outside Nx r) by lia; reflexivity).
    pose proof (py_index_valid_bound Nx r (conj Hr1 Hr2)) as Br.
    rewrite (py_index_valid Nx r) by lia; simpl.
    rewrite (rect_nth_length Nx Ny) by assumption.
    rewrite (py_index_outside Ny c) by lia; reflexivity.
Qed.

Lemma injectPoint_spec_witness :
  exists kspace_mod,
    injectPoint (zeros2 0%Z 4 4) (-3) 0 7%Z = Ok kspace_mod /\
    rect 4 4 kspace_mod /\
    forall i j, (i < 4)%nat -> (j < 4)%nat ->
      get2 0%Z kspace_mod i j
      = if (Z.of_nat i =? 2)%Z && (Z.of_nat j =? 3)%Z
        then 7%Z else get2 0%Z (zeros2 0%Z 4 4) i j.
Proof.
  apply (proj1 (injectPoint_spec 0%Z (zeros2 0%Z 4 4) (-3) 0 7%Z
                  (rect_zeros2 0%Z 4 4)));
    vm_compute; intuition congruence.
Defined.

(** ** The shift *)

Lemma roll_length {A : Type} (s : Z) (l : list A) : length (roll s l) = length l.
Proof.
  unfold roll. rewrite length_app, length_skipn, length_firstn. lia.
Qed.

(** Entry [i] of the rolled list is entry [(i - s) mod n] of the list. *)
Lemma nth_roll {A : Type} (d : A) (s : Z) (l : list A) (i : nat) :
  (i < length l)%nat ->
  nth i (roll s l) d
  = nth (Z.to_nat ((Z.of_nat i - s) mod Z.of_nat (length l))) l d.
Proof.
  intros Hi. set (n := length l) in *.
  assert (Hk : (0 <= s mod Z.of_nat n < Z.of_nat n)%Z) by (apply Z.mod_pos_bound; lia).
  rewrite <- Zminus_mod_idemp_r.
  unfold roll; fold n. set (k := (s mod Z.of_nat n)%Z) in *.
  rewrite (mod_wrap (Z.of_nat n) (Z.of_nat i - k)) by lia.
  destruct (Z.ltb_spec (Z.of_nat i - k) 0) as [Hlt|Hge].
  - rewrite app_nth1 by (rewrite length_skipn; fold n; lia).
    rewrite nth_skipn. f_equal; lia.
  - rewrite app_nth2 by (rewrite length_skipn; fold n; lia).
    rewrite length_skipn; fold n.
    rewrite nth_firstn.
    destruct (Nat.ltb_spec (i - (n - (n - Z.to_nat k))) (n - Z.to_nat k)); [|lia].
    f_equal; lia.
Qed.

Lemma roll_roll {A : Type} (s t : Z) (l : list A) :
  roll t (roll s l) = roll (s + t) l.
Proof.
  destruct l as [|x l']; [reflexivity|]. set (l := x :: l').
  apply (nth_ext _ _ x x); [now rewrite !roll_length|].
  intros i Hi; rewrite !roll_length in Hi.
  rewrite !nth_roll; rewrite ?roll_length; try assumption.
  - assert (Hn : (0 < Z.of_nat (length l))%Z) by (simpl; lia).
    rewrite Z2Nat.id by (apply Z.mod_pos_bound; exact Hn).
    rewrite Zminus_mod_idemp_l. do 2 f_equal; f_equal; lia.
  - assert (Hn : (0 < Z.of_nat (length l))%Z) by (simpl; lia).
    pose proof (Z.mod_pos_bound (Z.of_nat i - t) _ Hn). lia.
Qed.

(** Rolling by a multiple of the length changes nothing. *)
Lemma roll_multiple {A : Type} (s : Z) (l : list A) :
  (s mod Z.of_nat (length l) = 0)%Z -> roll s l = l.
Proof.
  intros H; unfold roll. rewrite H; simpl.
  rewrite Nat.sub_0_r, skipn_all, firstn_all. reflexivity.
Qed.

Lemma roll_map {A B : Type} (f : A -> B) (s : Z) (l : list A) :
  roll s (map f l) = map f (roll s l).
Proof.
  unfold roll. rewrite length_map, map_app, skipn_map, firstn_map. reflexivity.
Qed.

Lemma rect_roll {A : Type} (M N : nat) (s : Z) (a : ndarray2 A) :
  rect M N a -> rect M N (roll s a).
Proof.
  intros [HM HN]; split; [now rewrite roll_length|].
  unfold roll. set (k := (length a - _)%nat).
  rewrite <- (firstn_skipn k a) in HN. apply Forall_app in HN.
  apply Forall_app; tauto.
Qed.

Lemma rect_map_roll {A : Type} (M N : nat) (s : Z) (a : ndarray2 A) :
  rect M N a -> rect M N (map (roll s) a).
Proof.
  intros [HM HN]; split; [now rewrite length_map|].
  apply Forall_map. revert HN; apply Forall_impl.
  intros row Hrow; now rewrite roll_length.
Qed.

(** The second size of a rectangular array with at least one row. *)
Lemma rect_shape1 {A : Type} (M N : nat) (a : ndarray2 A) :
  rect M N a -> (1 <= M)%nat -> shape1 a = N.
Proof.
  intros [HM HN] H1. destruct a as [|row a]; simpl in *; [lia|].
  now inversion HN.
Qed.

Lemma map_roll_rows {A : Type} (M N : nat) (s : Z) (a : ndarray2 A) :
  rect M N a -> (s mod Z.of_nat N = 0)%Z -> map (roll s) a = a.
Proof.
  intros [_ HN] Hs. induction HN as [|row a Hrow Ha IH]; simpl; [reflexivity|].
  rewrite IH. f_equal. apply roll_multiple. now rewrite Hrow.
Qed.

(** Two rolls of both axes compose into one. *)
Lemma roll2_roll2 {A : Type} (s0 s1 t0 t1 : Z) (a : ndarray2 A) :
  map (roll t1) (roll t0 (map (roll s1) (roll s0 a)))
  = map (roll (s1 + t1)) (roll (s0 + t0) a).
Proof.
  rewrite roll_map, map_map, roll_roll.
  apply map_ext; intros row; apply roll_roll.
Qed.

Lemma fftshift_rect {A : Type} (M N : nat) (a : ndarray2 A) :
  rect M N a -> rect M N (fftshift a).
Proof.
  intros Ha; unfold fftshift. now apply rect_map_roll, rect_roll.
Qed.

Lemma ifftshift_rect {A : Type} (M N : nat) (a : ndarray2 A) :
  rect M N a -> rect M N (ifftshift a).
Proof.
  intros Ha; unfold ifftshift. now apply rect_map_roll, rect_roll.
Qed.

Lemma rect_nil {A : Type} (N : nat) (a : ndarray2 A) : rect 0 N a -> a = [].
Proof.
  intros [H _]. now destruct a.
Qed.

(** Shifting twice rolls each axis by twice half its length. *)
Lemma fftshift_fftshift {A : Type} (M N : nat) (a : ndarray2 A) :
  rect M N a ->
  fftshift (fftshift a)
  = map (roll (Z.of_nat N / 2 + Z.of_nat N / 2))
      (roll (Z.of_nat M / 2 + Z.of_nat M / 2) a).
Proof.
  intros Ha. destruct M as [|M'].
  - apply rect_nil in Ha; subst; reflexivity.
  - set (M := S M') in *.
    pose proof (fftshift_rect M N a Ha) as Hs.
    unfold fftshift at 1.
    rewrite (rect_shape1 M N (fftshift a)) by (auto; unfold M; lia).
    replace (shape0 (fftshift a)) with M by (symmetry; apply Hs).
    unfold fftshift.
    rewrite (rect_shape1 M N a) by (auto; unfold M; lia).
    replace (shape0 a) with M by (symmetry; apply Ha).
    apply roll2_roll2.
Qed.

Lemma fftshift_ifftshift {A : Type} (M N : nat) (a : ndarray2 A) :
  rect M N a -> fftshift (ifftshift a) = a.
Proof.
  intros Ha. destruct M as [|M'].
  - apply rect_nil in Ha; subst; reflexivity.
  - set (M := S M') in *.
    pose proof (ifftshift_rect M N a Ha) as Hs.
    unfold fftshift.
    rewrite (rect_shape1 M N (ifftshift a)) by (auto; unfold M; lia).
    replace (shape0 (ifftshift a)) with M by (symmetry; apply Hs).
    unfold ifftshift.
    rewrite (rect_shape1 M N a) by (auto; unfold M; lia).
    replace (shape0 a) with M by (symmetry; apply Ha).
    rewrite roll2_roll2.
    rewrite (map_roll_rows M N); [| now apply rect_roll | ].
    + apply roll_multiple. replace (length a) with M by (symmetry; apply Ha).
      now replace (- (Z.of_nat M / 2) + Z.of_nat M / 2)%Z with 0%Z by lia.
    + now replace (- (Z.of_nat N / 2) + Z.of_nat N / 2)%Z with 0%Z by lia.
Qed.

(** The shift only moves entries around. *)
Lemma roll_permutation {A : Type} (s : Z) (l : list A) : Permutation (roll s l) l.
Proof.
  unfold roll. set (k := (length l - _)%nat).
  rewrite <- (firstn_skipn k l) at 3. apply Permutation_app_comm.
Qed.

Lemma concat_roll_permutation {A : Type} (s : Z) (a : ndarray2 A) :
  Permutation (concat (roll s a)) (concat a).
Proof.
  unfold roll. set (k := (length a - _)%nat).
  rewrite <- (firstn_skipn k a) at 3. rewrite !concat_app.
  apply Permutation_app_comm.
Qed.

Lemma concat_map_roll_permutation {A : Type} (s : Z) (a : ndarray2 A) :
  Permutation (concat (map (roll s) a)) (concat a).
Proof.
  induction a as [|row a IH]; simpl; [constructor|].
  apply Permutation_app; [apply roll_permutation | exact IH].
Qed.

Lemma fftshift_permutation {A : Type} (a : ndarray2 A) :
  Permutation (concat (fftshift a)) (concat a).
Proof.
  unfold fftshift.
  etransitivity; [apply concat_map_roll_permutation | apply concat_roll_permutation].
Qed.

Lemma half_twice_even (n : nat) :
  Nat.even n = true -> (Z.of_nat n / 2 + Z.of_nat n / 2 = Z.of_nat n)%Z.
Proof.
  intros H; apply Nat.even_spec in H; destruct H as [m ->].
  replace (Z.of_nat (2 * m)) with (Z.of_nat m * 2)%Z by lia.
  rewrite Z.div_mul by lia. lia.
Qed.

Lemma half_twice_odd (n : nat) :
  Nat.odd n = true -> (Z.of_nat n / 2 + Z.of_nat n / 2 = Z.of_nat n - 1)%Z.
Proof.
  intros H; apply Nat.odd_spec in H; destruct H as [m ->].
  replace (Z.of_nat (2 * m + 1)) with (Z.of_nat m * 2 + 1)%Z by lia.
  rewrite Z.div_add_l by lia. change (1 / 2)%Z with 0%Z. lia.
Qed.

Lemma get2_roll2 {A : Type} (d : A) (M N : nat) (t0 t1 : Z) (a : ndarray2 A) (i j : nat) :
  rect M N a -> (i < M)%nat -> (j < N)%nat ->
  get2 d (map (roll t1) (roll t0 a)) i j
  = get2 d a (Z.to_nat ((Z.of_nat i - t0) mod Z.of_nat M))
             (Z.to_nat ((Z.of_nat j - t1) mod Z.of_nat N)).
Proof.
  intros Ha Hi Hj; unfold get2.
  assert (HM : length a = M) by apply Ha.
  assert (Hb : (Z.to_nat ((Z.of_nat i - t0) mod Z.of_nat M) < M)%nat).
  { pose proof (Z.mod_pos_bound (Z.of_nat i - t0) (Z.of_nat M)); lia. }
  rewrite (nth_indep _ [] (roll t1 []))
    by (rewrite length_map, roll_length; lia).
  rewrite map_nth, (nth_roll []), HM by lia.
  rewrite nth_roll; rewrite (rect_nth_length M N); auto.
Qed.

Lemma rect_tabulate2 {A : Type} (M N : nat) (f : nat -> nat -> A) :
  rect M N (tabulate2 M N f).
Proof.
  unfold rect, tabulate2; split; [now rewrite length_map, length_seq|].
  apply Forall_map, Forall_forall; intros i _.
  now rewrite length_map, length_seq.
Qed.

Lemma get2_tabulate2 {A : Type} (d : A) (M N : nat) (f : nat -> nat -> A) (i j : nat) :
  (i < M)%nat -> (j < N)%nat -> get2 d (tabulate2 M N f) i j = f i j.
Proof.
  intros Hi Hj; unfold get2, tabulate2.
  rewrite (nth_indep _ [] (map (fun j => f 0%nat j) (seq 0 N)))
    by (now rewrite length_map, length_seq).
  rewrite (map_nth (fun i => map (fun j => f i j) (seq 0 N)) (seq 0 M) 0%nat).
  rewrite seq_nth by assumption; simpl.
  rewrite (nth_indep _ d (f i 0%nat)) by (now rewrite length_map, length_seq).
  rewrite (map_nth (fun j => f i j) (seq 0 N) 0%nat).
  now rewrite seq_nth.
Qed.

(** For an odd size of at least 3 the double shift moves the origin. *)
Lemma double_shift_moves (n : nat) :
  Nat.odd n = true -> (3 <= n)%nat ->
  Z.to_nat ((Z.of_nat 0 - (Z.of_nat n / 2 + Z.of_nat n / 2)) mod Z.of_nat n) = 1%nat.
Proof.
  intros Ho H3. rewrite half_twice_odd by assumption.
  replace (Z.of_nat 0 - (Z.of_nat n - 1))%Z with (1 + (-1) * Z.of_nat n)%Z by lia.
  rewrite Z_mod_plus_full, Z.mod_small by lia. reflexivity.
Qed.

Lemma double_shift_bound (n : nat) (t : Z) :
  (1 <= n)%nat -> (Z.to_nat ((Z.of_nat 0 - t) mod Z.of_nat n) < n)%nat.
Proof.
  intros H. pose proof (Z.mod_pos_bound (Z.of_nat 0 - t) (Z.of_nat n)). lia.
Qed.

(** C4.  For a rectangular array of shape (M, N): when both sizes are
    even, shifting twice gives the array back; for all sizes, the shift of
    the inverse shift gives the array back; the entries of the shifted
    array are the entries of the array in another order, whatever the
    element type is (no arithmetic on values); and when one of the sizes is
    odd and at least 3 (the other being at least 1) there is an array of
    that shape that the double shift changes. *)
Theorem shift_laws {A : Type} (M N : nat) (a : ndarray2 A) :
  rect M N a ->
  (Nat.even M = true -> Nat.even N = true -> fftshift (fftshift a) = a) /\
  fftshift (ifftshift a) = a /\
  Permutation (concat (fftshift a)) (concat a) /\
  ((Nat.odd M = true /\ 3 <= M)%nat \/ (Nat.odd N = true /\ 3 <= N)%nat ->
   (1 <= M)%nat -> (1 <= N)%nat ->
   exists b : ndarray2 (nat * nat), rect M N b /\ fftshift (fftshift b) <> b).
Proof.
  intros Ha; split; [|split; [|split]].
  - intros HM HN. rewrite (fftshift_fftshift M N) by assumption.
    rewrite !half_twice_even by assumption.
    rewrite (map_roll_rows M N);
      [| now apply rect_roll | apply Z_mod_same_full].
    apply roll_multiple. replace (length a) with M by (symmetry; apply Ha).
    apply Z_mod_same_full.
  - now apply (fftshift_ifftshift M N).
  - apply fftshift_permutation.
  - intros Hodd HM HN.
    set (b := tabulate2 M N (fun i j => (i, j))).
    assert (Hb : rect M N b) by apply rect_tabulate2.
    exists b; split; [exact Hb|]. intros E.
    assert (G : get2 (0, 0)%nat (fftshift (fftshift b)) 0 0 = (0, 0)%nat).
    { rewrite E. unfold b. now rewrite get2_tabulate2 by lia. }
    rewrite (fftshift_fftshift M N), (get2_roll2 _ M N) in G by (auto; lia).
    unfold b in G. rewrite get2_tabulate2 in G by (apply double_shift_bound; lia).
    destruct Hodd as [[Ho H3]|[Ho H3]];
      rewrite (double_shift_moves _ Ho H3) in G; discriminate.
Qed.

Lemma shift_laws_witness :
  fftshift (ifftshift sample_3x3) = sample_3x3 /\
  exists b : ndarray2 (nat * nat), rect 3 3 b /\ fftshift (fftshift b) <> b.
Proof.
  assert (Ha : rect 3 3 sample_3x3) by (split; [reflexivity | repeat constructor]).
  destruct (shift_laws 3 3 sample_3x3 Ha) as [_ [H2 [_ H3]]].
  split; [exact H2 | apply H3; [left; split; [reflexivity | lia] | lia | lia]].
Defined.

(** ** Complex arithmetic *)

Ltac Ceq :=
  unfold C0, C1, Cadd, Cmul, Cdivr, Cconj, Cnorm2, Cexp_i in *; simpl in *;
  apply injective_projections; simpl.

Lemma Cadd_comm (z w : C) : Cadd z w = Cadd w z.
Proof. Ceq; ring. Qed.

Lemma Cadd_assoc (z w u : C) : Cadd z (Cadd w u) = Cadd (Cadd z w) u.
Proof. Ceq; ring. Qed.

Lemma Cadd_0_l (z : C) : Cadd C0 z = z.
Proof. destruct z; Ceq; ring. Qed.

Lemma Cadd_0_r (z : C) : Cadd z C0 = z.
Proof. destruct z; Ceq; ring. Qed.

Lemma Cmul_comm (z w : C) : Cmul z w = Cmul w z.
Proof. Ceq; ring. Qed.

Lemma Cmul_assoc (z w u : C) : Cmul z (Cmul w u) = Cmul (Cmul z w) u.
Proof. Ceq; ring. Qed.

Lemma Cmul_0_l (z : C) : Cmul C0 z = C0.
Proof. Ceq; ring. Qed.

Lemma Cmul_0_r (z : C) : Cmul z C0 = C0.
Proof. Ceq; ring. Qed.

Lemma Cmul_1_r (z : C) : Cmul z C1 = z.
Proof. destruct z; Ceq; ring. Qed.

Lemma Cmul_add_distr_l (z w u : C) : Cmul z (Cadd w u) = Cadd (Cmul z w) (Cmul z u).
Proof. Ceq; ring. Qed.

Lemma Cmul_add_distr_r (z w u : C) : Cmul (Cadd w u) z = Cadd (Cmul w z) (Cmul u z).
Proof. Ceq; ring. Qed.

Lemma Cdivr_add (z w : C) (r : R) : Cdivr (Cadd z w) r = Cadd (Cdivr z r) (Cdivr w r).
Proof. Ceq; unfold Rdiv; ring. Qed.

Lemma Cdivr_mul_l (z w : C) (r : R) : Cdivr (Cmul z w) r = Cmul (Cdivr z r) w.
Proof. Ceq; unfold Rdiv; ring. Qed.

Lemma Cdivr_mul_r (z w : C) (r : R) : Cdivr (Cmul z w) r = Cmul z (Cdivr w r).
Proof. Ceq; unfold Rdiv; ring. Qed.

Lemma Cdivr_0 (r : R) : Cdivr C0 r = C0.
Proof. Ceq; unfold Rdiv; ring. Qed.

Lemma Cdivr_Cdivr (z : C) (r s : R) :
  r <> 0 -> s <> 0 -> Cdivr (Cdivr z r) s = Cdivr z (r * s).
Proof. intros Hr Hs; Ceq; field; auto. Qed.

Lemma Cconj_add (z w : C) : Cconj (Cadd z w) = Cadd (Cconj z) (Cconj w).
Proof. Ceq; ring. Qed.

Lemma Cconj_mul (z w : C) : Cconj (Cmul z w) = Cmul (Cconj z) (Cconj w).
Proof. Ceq; ring. Qed.

Lemma Cconj_divr (z : C) (r : R) : Cconj (Cdivr z r) = Cdivr (Cconj z) r.
Proof. Ceq; unfold Rdiv; ring. Qed.

Lemma Cmul_conj (z : C) : Cmul z (Cconj z) = (Cnorm2 z, 0).
Proof. Ceq; ring. Qed.

Lemma Cnorm2_nonneg (z : C) : 0 <= Cnorm2 z.
Proof. unfold Cnorm2; nra. Qed.

Lemma Cabs_sqr (z : C) : (Cabs z) ^ 2 = Cnorm2 z.
Proof.
  unfold Cabs. simpl. rewrite Rmult_1_r. apply sqrt_sqrt, Cnorm2_nonneg.
Qed.

Lemma Cnorm2_divr (z : C) (r : R) : r <> 0 -> Cnorm2 (Cdivr z r) = Cnorm2 z / (r * r).
Proof. intros Hr; unfold Cnorm2, Cdivr; simpl; field; auto. Qed.

(** In a product that vanishes one factor vanishes. *)
Lemma Cmul_integral (z w : C) : Cmul z w = C0 -> z <> C0 -> w = C0.
Proof.
  destruct z as [a b], w as [c d]; unfold Cmul, C0; simpl; intros E Hz.
  injection E as E1 E2.
  assert (Hn : 0 < a * a + b * b).
  { destruct (Req_dec a 0) as [->|Ha]; [|nra].
    destruct (Req_dec b 0) as [->|Hb]; [now elim Hz | nra]. }
  assert (Hc : (a * a + b * b) * c = 0).
  { replace ((a * a + b * b) * c) with (a * (a * c - b * d) + b * (a * d + b * c))
      by ring. rewrite E1, E2; ring. }
  assert (Hd : (a * a + b * b) * d = 0).
  { replace ((a * a + b * b) * d) with (a * (a * d + b * c) - b * (a * c - b * d))
      by ring. rewrite E1, E2; ring. }
  apply Rmult_integral in Hc, Hd.
  f_equal; lra.
Qed.

(** *** The complex exponential *)

Lemma Cexp_i_0 : Cexp_i 0 = C1.
Proof. unfold Cexp_i, C1. now rewrite cos_0, sin_0. Qed.

Lemma Cexp_i_add (a b : R) : Cexp_i (a + b) = Cmul (Cexp_i a) (Cexp_i b).
Proof.
  unfold Cexp_i, Cmul; simpl. rewrite cos_plus, sin_plus. f_equal; ring.
Qed.

Lemma Cexp_i_conj (a : R) : Cconj (Cexp_i a) = Cexp_i (- a).
Proof. unfold Cexp_i, Cconj; simpl. now rewrite cos_neg, sin_neg. Qed.

Lemma Cexp_i_2PI_nat (k : nat) : Cexp_i (2 * PI * INR k) = C1.
Proof.
  unfold Cexp_i, C1.
  replace (2 * PI * INR k) with (0 + 2 * INR k * PI) by ring.
  now rewrite cos_period, sin_period, cos_0, sin_0.
Qed.

(** [exp(2 pi i d) = 1] for every integer [d]. *)
Lemma Cexp_i_2PI_Z (d : Z) : Cexp_i (2 * PI * IZR d) = C1.
Proof.
  destruct (Z_le_gt_dec 0 d) as [Hd|Hd].
  - rewrite <- (Z2Nat.id d Hd), <- INR_IZR_INZ. apply Cexp_i_2PI_nat.
  - replace (2 * PI * IZR d) with (- (2 * PI * IZR (- d)))
      by (rewrite opp_IZR; ring).
    rewrite <- Cexp_i_conj.
    rewrite <- (Z2Nat.id (- d)), <- INR_IZR_INZ by lia.
    rewrite Cexp_i_2PI_nat. unfold Cconj, C1; simpl. f_equal; ring.
Qed.

(** [exp(2 pi i d / n)] is not 1 when [0 < |d| < n]. *)
Lemma Cexp_i_root_neq_1 (n : nat) (d : Z) :
  (d <> 0)%Z -> (- Z.of_nat n < d < Z.of_nat n)%Z ->
  Cexp_i (2 * PI * IZR d / INR n) <> C1.
Proof.
  intros Hd Hn E. unfold Cexp_i, C1 in E. injection E as Ec _.
  assert (Hpos : 0 < INR n) by (apply lt_0_INR; lia).
  set (h := PI * IZR d / INR n).
  replace (2 * PI * IZR d / INR n) with (2 * h) in Ec by (unfold h; field; lra).
  rewrite cos_2a_sin in Ec.
  assert (Hs : sin h = 0) by nra.
  pose proof PI_RGT_0 as Hpi.
  assert (HnZ : IZR (Z.of_nat n) = INR n) by (symmetry; apply INR_IZR_INZ).
  destruct (Z_lt_ge_dec 0 d) as [Hp|Hp].
  - assert (0 < sin h); [|lra].
    assert (IZR d < INR n) by (rewrite <- HnZ; apply IZR_lt; lia).
    assert (0 < IZR d) by (apply IZR_lt; lia).
    apply sin_gt_0; unfold h.
    + apply Rdiv_lt_0_compat; nra.
    + apply Rmult_lt_reg_r with (INR n); [lra|].
      unfold Rdiv. rewrite Rmult_assoc, Rinv_l by lra. nra.
  - assert (0 < sin (- h)); [|rewrite sin_neg in *; lra].
    assert (- INR n < IZR d) by (rewrite <- HnZ, <- opp_IZR; apply IZR_lt; lia).
    assert (IZR d < 0) by (apply IZR_lt; lia).
    replace (- h) with (PI * (- IZR d) / INR n) by (unfold h; field; lra).
    apply sin_gt_0.
    + apply Rdiv_lt_0_compat; nra.
    + apply Rmult_lt_reg_r with (INR n); [lra|].
      unfold Rdiv. rewrite Rmult_assoc, Rinv_l by lra. nra.
Qed.

(** ** Finite sums *)

Lemma Rsum_ext (n : nat) (f g : nat -> R) :
  (forall i, (i < n)%nat -> f i = g i) -> Rsum n f = Rsum n g.
Proof.
  induction n as [|n IH]; intros H; simpl; [reflexivity|].
  rewrite IH, H by (intros; auto with arith). reflexivity.
Qed.

Lemma Rsum_plus (n : nat) (f g : nat -> R) :
  Rsum n (fun i => f i + g i) = Rsum n f + Rsum n g.
Proof.
  induction n as [|n IH]; simpl; [ring | rewrite IH; ring].
Qed.

Lemma Rsum_0 (n : nat) : Rsum n (fun _ => 0) = 0.
Proof.
  induction n as [|n IH]; simpl; [reflexivity | rewrite IH; ring].
Qed.

Lemma Rsum_scal (n : nat) (c : R) (f : nat -> R) :
  Rsum n (fun i => f i * c) = Rsum n f * c.
Proof.
  induction n as [|n IH]; simpl; [ring | rewrite IH; ring].
Qed.

Lemma Rsum_exchange (n m : nat) (f : nat -> nat -> R) :
  Rsum n (fun i => Rsum m (fun j => f i j))
  = Rsum m (fun j => Rsum n (fun i => f i j)).
Proof.
  induction n as [|n IH]; simpl.
  - now rewrite Rsum_0.
  - now rewrite IH, Rsum_plus.
Qed.

(** A sum over the entries of a list, by position. *)
Lemma fold_right_Rsum {A : Type} (d : A) (g : A -> R) (x : list A) :
  fold_right Rplus 0 (map g x) = Rsum (length x) (fun i => g (nth i x d)).
Proof.
  induction x as [|z x IH] using rev_ind; [reflexivity|].
  rewrite map_app, fold_right_app, length_app, Nat.add_comm; simpl.
  rewrite app_nth2, Nat.sub_diag by lia; simpl.
  rewrite (Rsum_ext _ _ (fun i => g (nth i x d)))
    by (intros i Hi; now rewrite app_nth1).
  rewrite <- IH, Rplus_0_r.
  generalize (map g x) as l. induction l as [|a l IHl]; simpl; [ring|].
  rewrite IHl; ring.
Qed.

Lemma Csum_fst (n : nat) (f : nat -> C) : fst (Csum n f) = Rsum n (fun i => fst (f i)).
Proof.
  induction n as [|n IH]; simpl; [reflexivity | now rewrite IH].
Qed.

Lemma Csum_snd (n : nat) (f : nat -> C) : snd (Csum n f) = Rsum n (fun i => snd (f i)).
Proof.
  induction n as [|n IH]; simpl; [reflexivity | now rewrite IH].
Qed.

Lemma Csum_ext (n : nat) (f g : nat -> C) :
  (forall i, (i < n)%nat -> f i = g i) -> Csum n f = Csum n g.
Proof.
  induction n as [|n IH]; intros H; simpl; [reflexivity|].
  rewrite IH, H by (intros; auto with arith). reflexivity.
Qed.

Lemma Csum_0 (n : nat) : Csum n (fun _ => C0) = C0.
Proof.
  induction n as [|n IH]; simpl; [reflexivity | rewrite IH; apply Cadd_0_l].
Qed.

Lemma Csum_mul_l (n : nat) (c : C) (f : nat -> C) :
  Csum n (fun i => Cmul c (f i)) = Cmul c (Csum n f).
Proof.
  induction n as [|n IH]; simpl.
  - now rewrite Cmul_0_r.
  - now rewrite IH, Cmul_add_distr_l.
Qed.

Lemma Csum_mul_r (n : nat) (c : C) (f : nat -> C) :
  Csum n (fun i => Cmul (f i) c) = Cmul (Csum n f) c.
Proof.
  induction n as [|n IH]; simpl.
  - now rewrite Cmul_0_l.
  - now rewrite IH, Cmul_add_distr_r.
Qed.

Lemma Csum_divr (n : nat) (r : R) (f : nat -> C) :
  Csum n (fun i => Cdivr (f i) r) = Cdivr (Csum n f) r.
Proof.
  induction n as [|n IH]; simpl.
  - now rewrite Cdivr_0.
  - now rewrite IH, Cdivr_add.
Qed.

Lemma Csum_conj (n : nat) (f : nat -> C) :
  Cconj (Csum n f) = Csum n (fun i => Cconj (f i)).
Proof.
  induction n as [|n IH]; simpl.
  - unfold Cconj, C0; simpl. f_equal; ring.
  - now rewrite Cconj_add, IH.
Qed.

Lemma Csum_exchange (n m : nat) (f : nat -> nat -> C) :
  Csum n (fun i => Csum m (fun j => f i j))
  = Csum m (fun j => Csum n (fun i => f i j)).
Proof.
  apply injective_projections.
  - rewrite !Csum_fst.
    rewrite (Rsum_ext n _ (fun i => Rsum m (fun j => fst (f i j))))
      by (intros; apply Csum_fst).
    rewrite Rsum_exchange. apply Rsum_ext; intros; symmetry; apply Csum_fst.
  - rewrite !Csum_snd.
    rewrite (Rsum_ext n _ (fun i => Rsum m (fun j => snd (f i j))))
      by (intros; apply Csum_snd).
    rewrite Rsum_exchange. apply Rsum_ext; intros; symmetry; apply Csum_snd.
Qed.

(** A sum whose terms vanish except at position [k]. *)
Lemma Csum_single (n k : nat) (f : nat -> C) :
  (k < n)%nat -> (forall i, (i < n)%nat -> i <> k -> f i = C0) ->
  Csum n f = f k.
Proof.
  induction n as [|n IH]; intros Hk Hf; [lia|]; simpl.
  destruct (Nat.eq_dec k n) as [->|Hne].
  - rewrite (Csum_ext n f (fun _ => C0)) by (intros; apply Hf; lia).
    now rewrite Csum_0, Cadd_0_l.
  - rewrite IH by (try lia; intros; apply Hf; lia).
    rewrite (Hf n) by lia. apply Cadd_0_r.
Qed.

(** ** Orthogonality of the Fourier kernel *)

(** The geometric series of [w = exp(i theta)], before dividing by [w - 1]. *)
Lemma Cexp_i_geometric (n : nat) (theta : R) :
  Cadd (Cmul (Cexp_i theta) (Csum n (fun k => Cexp_i (INR k * theta)))) C1
  = Cadd (Csum n (fun k => Cexp_i (INR k * theta))) (Cexp_i (INR n * theta)).
Proof.
  induction n as [|n IH].
  - simpl. rewrite Rmult_0_l, Cexp_i_0, Cmul_0_r. reflexivity.
  - cbn [Csum]. rewrite Cmul_add_distr_l.
    rewrite <- Cadd_assoc, (Cadd_comm (Cmul _ (Cexp_i (INR n * theta))) C1).
    rewrite Cadd_assoc, IH. rewrite <- Cexp_i_add. rewrite S_INR.
    do 2 f_equal. ring.
Qed.

(** The sum of the [n] powers of a root of unity other than 1 vanishes. *)
Lemma Cexp_i_roots_sum (n : nat) (d : Z) :
  (d <> 0)%Z -> (- Z.of_nat n < d < Z.of_nat n)%Z ->
  Csum n (fun k => Cexp_i (INR k * (2 * PI * IZR d / INR n))) = C0.
Proof.
  intros Hd Hn. set (theta := 2 * PI * IZR d / INR n).
  assert (Hpos : 0 < INR n) by (apply lt_0_INR; lia).
  pose proof (Cexp_i_geometric n theta) as G.
  replace (INR n * theta) with (2 * PI * IZR d) in G by (unfold theta; field; lra).
  rewrite Cexp_i_2PI_Z in G.
  pose proof (Cexp_i_root_neq_1 n d Hd Hn) as Hw. fold theta in Hw.
  set (S := Csum n (fun k => Cexp_i (INR k * theta))) in *.
  apply (Cmul_integral (Cadd (Cexp_i theta) (-1, 0))).
  - rewrite Cmul_add_distr_r.
    destruct S as [c e]; destruct (Cexp_i theta) as [a b].
    unfold Cadd, Cmul, C1, C0 in *; simpl in *.
    injection G as G1 G2. f_equal; lra.
  - intros E; apply Hw. destruct (Cexp_i theta) as [a b].
    unfold Cadd, C0, C1 in *; simpl in *. injection E as E1 E2. f_equal; lra.
Qed.

Lemma Cexp_i_unit_sum (n : nat) :
  Csum n (fun _ => C1) = (INR n, 0).
Proof.
  induction n as [|n IH]; [reflexivity|].
  cbn [Csum]. rewrite IH, S_INR. unfold Cadd, C1; simpl. f_equal; ring.
Qed.

(** [sum_k exp(s 2 pi i m k/n) exp(-s 2 pi i j k/n)] is [n] when [m = j]
    and 0 otherwise, for [s] either sign. *)
Lemma kernel_orthogonal (s : R) (n m j : nat) :
  s = 1 \/ s = -1 -> (m < n)%nat -> (j < n)%nat ->
  Csum n (fun k => Cmul (Cexp_i (s * (2 * PI * INR m * INR k / INR n)))
                        (Cexp_i (- s * (2 * PI * INR j * INR k / INR n))))
  = if (m =? j)%nat then (INR n, 0) else C0.
Proof.
  intros Hs Hm Hj.
  assert (Hpos : 0 < INR n) by (apply lt_0_INR; lia).
  destruct (Nat.eqb_spec m j) as [->|Hne].
  - rewrite <- Cexp_i_unit_sum. apply Csum_ext; intros k _.
    rewrite <- Cexp_i_add, <- Cexp_i_0. f_equal. ring.
  - set (d := (if Req_EM_T s 1 then Z.of_nat m - Z.of_nat j
               else Z.of_nat j - Z.of_nat m)%Z).
    rewrite <- (Cexp_i_roots_sum n d);
      [| unfold d; destruct (Req_EM_T s 1); lia
       | unfold d; destruct (Req_EM_T s 1); lia].
    apply Csum_ext; intros k _. rewrite <- Cexp_i_add. f_equal.
    assert (Hd : IZR d = s * (INR m - INR j)).
    { unfold d. destruct (Req_EM_T s 1) as [->|Hs1].
      - rewrite minus_IZR, <- !INR_IZR_INZ. ring.
      - destruct Hs as [->| ->]; [now elim Hs1|].
        rewrite minus_IZR, <- !INR_IZR_INZ. ring. }
    rewrite Hd. field. lra.
Qed.

(** ** The one-dimensional transform *)

Lemma nth_map_seq {A : Type} (f : nat -> A) (n k : nat) (d : A) :
  (k < n)%nat -> nth k (map f (seq 0 n)) d = f k.
Proof.
  intros Hk. rewrite (nth_indep _ d (f 0%nat)) by (now rewrite length_map, length_seq).
  rewrite (map_nth f (seq 0 n) 0%nat). now rewrite seq_nth.
Qed.

Lemma map_nth_seq {A : Type} (d : A) (x : list A) :
  map (fun i => nth i x d) (seq 0 (length x)) = x.
Proof.
  apply (nth_ext _ _ d d); [now rewrite length_map, length_seq|].
  intros i Hi. rewrite length_map, length_seq in Hi.
  now rewrite (nth_map_seq (fun i => nth i x d)).
Qed.

Lemma lin_length (K : nat -> nat -> nat -> C) (x : list C) :
  length (lin K x) = length x.
Proof. unfold lin. now rewrite length_map, length_seq. Qed.

Lemma nth_lin (K : nat -> nat -> nat -> C) (x : list C) (k : nat) :
  (k < length x)%nat ->
  nth k (lin K x) C0 = Csum (length x) (fun m => Cmul (nth m x C0) (K (length x) m k)).
Proof. intros Hk; unfold lin. now rewrite nth_map_seq. Qed.

Lemma fft_ortho_lin (x : list C) : fft_ortho x = lin (kernel (-1)) x.
Proof.
  unfold fft_ortho, lin, dft, kernel. apply map_ext; intros k.
  rewrite <- Csum_divr. apply Csum_ext; intros m _. apply Cdivr_mul_r.
Qed.

Lemma ifft_ortho_lin (x : list C) : ifft_ortho x = lin (kernel 1) x.
Proof.
  unfold ifft_ortho, lin, dft, kernel. apply map_ext; intros k.
  rewrite <- Csum_divr. apply Csum_ext; intros m _. apply Cdivr_mul_r.
Qed.

Lemma Cmul_4 (a b c d : C) : Cmul (Cmul a b) (Cmul c d) = Cmul (Cmul a c) (Cmul b d).
Proof. Ceq; ring. Qed.

(** The two kernels of opposite sign are inverse matrices. *)
Lemma kernel_pair (s : R) (n m j : nat) :
  s = 1 \/ s = -1 -> (m < n)%nat -> (j < n)%nat ->
  Csum n (fun k => Cmul (kernel s n m k) (kernel (- s) n k j))
  = if (m =? j)%nat then C1 else C0.
Proof.
  intros Hs Hm Hj.
  assert (Hpos : 0 < INR n) by (apply lt_0_INR; lia).
  assert (Hsq : sqrt (INR n) <> 0) by (apply Rgt_not_eq, sqrt_lt_R0, Hpos).
  rewrite (Csum_ext n _
    (fun k => Cdivr (Cmul (Cexp_i (s * (2 * PI * INR m * INR k / INR n)))
                          (Cexp_i (- s * (2 * PI * INR j * INR k / INR n))))
                    (INR n))).
  - rewrite Csum_divr, kernel_orthogonal by assumption.
    destruct (m =? j)%nat; unfold Cdivr, C1, C0; simpl; f_equal; field; lra.
  - intros k _. unfold kernel.
    rewrite <- Cdivr_mul_l, <- Cdivr_mul_r, Cdivr_Cdivr by assumption.
    rewrite sqrt_sqrt by lra.
    do 3 f_equal. field; lra.
Qed.

Lemma Cmul_delta (n j : nat) (f : nat -> C) :
  (j < n)%nat ->
  Csum n (fun m => Cmul (f m) (if (m =? j)%nat then C1 else C0)) = f j.
Proof.
  intros Hj. rewrite (Csum_single n j).
  - rewrite Nat.eqb_refl. apply Cmul_1_r.
  - exact Hj.
  - intros i _ Hi. destruct (Nat.eqb_spec i j); [congruence | apply Cmul_0_r].
Qed.

(** The transform with kernel [-s] undoes the transform with kernel [s]. *)
Lemma lin_kernel_inverse (s : R) (x : list C) :
  s = 1 \/ s = -1 -> lin (kernel (- s)) (lin (kernel s) x) = x.
Proof.
  intros Hs. rewrite <- (map_nth_seq C0 x) at 2.
  unfold lin at 1. rewrite lin_length.
  apply map_ext_in; intros j Hj. apply in_seq in Hj.
  set (n := length x) in *.
  rewrite (Csum_ext n _
    (fun k => Csum n (fun m => Cmul (nth m x C0)
                                 (Cmul (kernel s n m k) (kernel (- s) n k j))))).
  - rewrite Csum_exchange.
    rewrite (Csum_ext n _
      (fun m => Cmul (nth m x C0) (if (m =? j)%nat then C1 else C0))).
    + apply Cmul_delta; lia.
    + intros m Hm. rewrite Csum_mul_l. f_equal. apply kernel_pair; auto; lia.
  - intros k Hk. rewrite nth_lin by (fold n; lia). fold n.
    rewrite <- Csum_mul_r. apply Csum_ext; intros m _.
    symmetry; apply Cmul_assoc.
Qed.

Lemma ifft_fft_ortho (x : list C) : ifft_ortho (fft_ortho x) = x.
Proof.
  rewrite fft_ortho_lin, ifft_ortho_lin.
  replace 1 with (- -1) by ring. apply lin_kernel_inverse; now right.
Qed.

Lemma fft_ifft_ortho (x : list C) : fft_ortho (ifft_ortho x) = x.
Proof.
  rewrite fft_ortho_lin, ifft_ortho_lin.
  apply (lin_kernel_inverse 1); now left.
Qed.

(** *** Energy of a signal *)

Lemma energy1_Rsum (x : list C) :
  energy1 x = Rsum (length x) (fun i => Cnorm2 (nth i x C0)).
Proof.
  unfold energy1. rewrite (fold_right_Rsum C0).
  apply Rsum_ext; intros i _. apply Cabs_sqr.
Qed.

Lemma kernel_conj (s : R) (n m k : nat) :
  Cconj (kernel s n m k) = kernel (- s) n k m.
Proof.
  unfold kernel. rewrite Cconj_divr, Cexp_i_conj. do 2 f_equal.
  unfold Rdiv; ring.
Qed.

(** Parseval's relation for the orthonormal kernels. *)
Lemma lin_kernel_energy (s : R) (x : list C) :
  s = 1 \/ s = -1 -> energy1 (lin (kernel s) x) = energy1 x.
Proof.
  intros Hs. rewrite !energy1_Rsum, lin_length. set (n := length x).
  assert (E : Csum n (fun k => Cmul (nth k (lin (kernel s) x) C0)
                                 (Cconj (nth k (lin (kernel s) x) C0)))
              = Csum n (fun m => Cmul (nth m x C0) (Cconj (nth m x C0)))).
  { rewrite (Csum_ext n _
      (fun k => Csum n (fun m => Csum n (fun j =>
         Cmul (Cmul (nth m x C0) (Cconj (nth j x C0)))
              (Cmul (kernel s n m k) (kernel (- s) n k j)))))).
    - rewrite Csum_exchange. apply Csum_ext; intros m Hm.
      rewrite Csum_exchange.
      rewrite (Csum_ext n _
        (fun j => Cmul (Cmul (nth m x C0) (Cconj (nth j x C0)))
                    (if (m =? j)%nat then C1 else C0))).
      + rewrite (Csum_single n m).
        * rewrite Nat.eqb_refl. apply Cmul_1_r.
        * exact Hm.
        * intros j _ Hj. destruct (Nat.eqb_spec m j); [congruence | apply Cmul_0_r].
      + intros j Hj. rewrite Csum_mul_l. f_equal. now apply kernel_pair.
    - intros k Hk. rewrite nth_lin by (fold n; lia). fold n.
      rewrite Csum_conj, <- Csum_mul_r. apply Csum_ext; intros m _.
      rewrite <- Csum_mul_l. apply Csum_ext; intros j _.
      rewrite Cconj_mul, kernel_conj. apply Cmul_4. }
  apply (f_equal fst) in E. rewrite !Csum_fst in E.
  transitivity (Rsum n (fun i => fst (Cmul (nth i (lin (kernel s) x) C0)
                                        (Cconj (nth i (lin (kernel s) x) C0))))).
  - apply Rsum_ext; intros i _. now rewrite Cmul_conj.
  - rewrite E. apply Rsum_ext; intros i _. now rewrite Cmul_conj.
Qed.

Lemma fft_ortho_energy (x : list C) : energy1 (fft_ortho x) = energy1 x.
Proof. rewrite fft_ortho_lin. apply lin_kernel_energy; now right. Qed.

(** ** Two-dimensional arrays, entry by entry *)

Lemma tabulate2_ext {A : Type} (M N : nat) (f g : nat -> nat -> A) :
  (forall i j, (i < M)%nat -> (j < N)%nat -> f i j = g i j) ->
  tabulate2 M N f = tabulate2 M N g.
Proof.
  intros H; unfold tabulate2.
  apply map_ext_in; intros i Hi; apply in_seq in Hi.
  apply map_ext_in; intros j Hj; apply in_seq in Hj.
  apply H; lia.
Qed.

Lemma tabulate2_get2 {A : Type} (d : A) (M N : nat) (a : ndarray2 A) :
  rect M N a -> tabulate2 M N (get2 d a) = a.
Proof.
  intros Ha. assert (HM : length a = M) by apply Ha.
  transitivity (map (fun i => nth i a []) (seq 0 (length a)));
    [|apply map_nth_seq].
  unfold tabulate2, get2. rewrite HM.
  apply map_ext_in; intros i Hi; apply in_seq in Hi.
  transitivity (map (fun j => nth j (nth i a []) d) (seq 0 (length (nth i a []))));
    [|apply map_nth_seq].
  rewrite (rect_nth_length M N) by (auto; lia). reflexivity.
Qed.

(** Two arrays of one shape with the same entries are equal. *)
Lemma array_ext {A : Type} (d : A) (M N : nat) (a b : ndarray2 A) :
  rect M N a -> rect M N b ->
  (forall i j, (i < M)%nat -> (j < N)%nat -> get2 d a i j = get2 d b i j) ->
  a = b.
Proof.
  intros Ha Hb H.
  rewrite <- (tabulate2_get2 d M N a Ha), <- (tabulate2_get2 d M N b Hb).
  now apply tabulate2_ext.
Qed.

Lemma rect_shape0 {A : Type} (M N : nat) (a : ndarray2 A) : rect M N a -> shape0 a = M.
Proof. intros [H _]; exact H. Qed.

Section AlongAxes.

Variables M N : nat.

Lemma column_length (a : ndarray2 C) (l : nat) :
  rect M N a -> length (column a l) = M.
Proof. intros Ha; unfold column. rewrite length_map. apply Ha. Qed.

Lemma nth_column (a : ndarray2 C) (m l : nat) :
  nth m (column a l) C0 = get2 C0 a m l.
Proof.
  unfold column, get2.
  destruct (Nat.lt_ge_cases m (length a)) as [Hm|Hm].
  - rewrite (nth_indep _ C0 (nth l [] C0)) by (now rewrite length_map).
    now rewrite (map_nth (fun row => nth l row C0) a []).
  - rewrite nth_overflow by (now rewrite length_map).
    rewrite (nth_overflow a) by assumption. now destruct l.
Qed.

Lemma rect_along_axis1 (t : list C -> list C) (a : ndarray2 C) :
  (forall x, length (t x) = length x) -> rect M N a ->
  rect M N (along_axis1 t a).
Proof.
  intros Ht [HM HN]; split.
  - unfold along_axis1; now rewrite length_map.
  - apply Forall_map. revert HN; apply Forall_impl.
    intros row Hrow; now rewrite Ht.
Qed.

Lemma get2_along_axis1 (t : list C -> list C) (a : ndarray2 C) (i j : nat) :
  rect M N a -> (i < M)%nat ->
  get2 C0 (along_axis1 t a) i j = nth j (t (nth i a [])) C0.
Proof.
  intros Ha Hi; unfold get2, along_axis1.
  rewrite (nth_indep _ [] (t [])) by (rewrite length_map; destruct Ha; lia).
  now rewrite map_nth.
Qed.

Hypothesis M_pos : (1 <= M)%nat.

Lemma rect_along_axis0 (t : list C -> list C) (a : ndarray2 C) :
  rect M N a -> rect M N (along_axis0 t a).
Proof.
  intros Ha; unfold along_axis0.
  rewrite (rect_shape0 M N), (rect_shape1 M N) by assumption.
  apply rect_tabulate2.
Qed.

Lemma get2_along_axis0 (t : list C -> list C) (a : ndarray2 C) (k l : nat) :
  rect M N a -> (k < M)%nat -> (l < N)%nat ->
  get2 C0 (along_axis0 t a) k l = nth k (t (column a l)) C0.
Proof.
  intros Ha Hk Hl; unfold along_axis0.
  rewrite (rect_shape0 M N), (rect_shape1 M N) by assumption.
  now rewrite get2_tabulate2.
Qed.

(** Entries of a kernel transform along the last and the first axis. *)
Lemma get2_axis1_lin (K : nat -> nat -> nat -> C) (a : ndarray2 C) (i j : nat) :
  rect M N a -> (i < M)%nat -> (j < N)%nat ->
  get2 C0 (along_axis1 (lin K) a) i j
  = Csum N (fun n => Cmul (get2 C0 a i n) (K N n j)).
Proof.
  intros Ha Hi Hj. rewrite get2_along_axis1 by assumption.
  rewrite nth_lin; rewrite (rect_nth_length M N) by assumption; [|exact Hj].
  reflexivity.
Qed.

Lemma get2_axis0_lin (K : nat -> nat -> nat -> C) (a : ndarray2 C) (i j : nat) :
  rect M N a -> (i < M)%nat -> (j < N)%nat ->
  get2 C0 (along_axis0 (lin K) a) i j
  = Csum M (fun m => Cmul (get2 C0 a m j) (K M m i)).
Proof.
  intros Ha Hi Hj. rewrite get2_along_axis0 by assumption.
  rewrite nth_lin; rewrite (column_length a j Ha); [|exact Hi].
  apply Csum_ext; intros m _. now rewrite nth_column.
Qed.

(** Transforms along different axes commute. *)
Lemma axes_commute (K1 K2 : nat -> nat -> nat -> C) (a : ndarray2 C) :
  rect M N a ->
  along_axis1 (lin K1) (along_axis0 (lin K2) a)
  = along_axis0 (lin K2) (along_axis1 (lin K1) a).
Proof.
  intros Ha.
  assert (R1 : rect M N (along_axis1 (lin K1) a))
    by (apply rect_along_axis1; [apply lin_length | exact Ha]).
  assert (R0 : rect M N (along_axis0 (lin K2) a)) by now apply rect_along_axis0.
  apply (array_ext C0 M N).
  - apply rect_along_axis1; [apply lin_length | exact R0].
  - now apply rect_along_axis0.
  - intros i j Hi Hj.
    rewrite get2_axis1_lin, get2_axis0_lin by assumption.
    rewrite (Csum_ext N _
      (fun n => Csum M (fun m =>
         Cmul (Cmul (get2 C0 a m n) (K2 M m i)) (K1 N n j)))).
    + rewrite Csum_exchange. apply Csum_ext; intros m Hm.
      rewrite get2_axis1_lin by assumption.
      rewrite <- Csum_mul_r. apply Csum_ext; intros n _.
      rewrite <- !Cmul_assoc. f_equal. apply Cmul_comm.
    + intros n Hn. rewrite get2_axis0_lin by assumption.
      now rewrite <- Csum_mul_r.
Qed.

(** A transform along an axis followed by its inverse. *)
Lemma axis1_inverse (s t : list C -> list C) (a : ndarray2 C) :
  (forall x, s (t x) = x) -> along_axis1 s (along_axis1 t a) = a.
Proof.
  intros Hst; unfold along_axis1. rewrite map_map.
  rewrite (map_ext _ (fun x => x)) by exact Hst. apply map_id.
Qed.

Lemma axis0_inverse (K1 K2 : nat -> nat -> nat -> C) (a : ndarray2 C) :
  rect M N a -> (forall x, lin K1 (lin K2 x) = x) ->
  along_axis0 (lin K1) (along_axis0 (lin K2) a) = a.
Proof.
  intros Ha Hinv.
  assert (R0 : rect M N (along_axis0 (lin K2) a)) by now apply rect_along_axis0.
  apply (array_ext C0 M N); [now apply rect_along_axis0 | exact Ha |].
  intros i j Hi Hj. rewrite get2_along_axis0 by assumption.
  replace (column (along_axis0 (lin K2) a) j) with (lin K2 (column a j)).
  - now rewrite Hinv, nth_column.
  - apply (nth_ext _ _ C0 C0).
    + now rewrite lin_length, !column_length.
    + intros k Hk. rewrite lin_length, column_length in Hk by assumption.
      now rewrite nth_column, get2_along_axis0.
Qed.

End AlongAxes.

(** ** The two-dimensional transform *)

Lemma along_axis0_ext (t t' : list C -> list C) (a : ndarray2 C) :
  (forall x, t x = t' x) -> along_axis0 t a = along_axis0 t' a.
Proof.
  intros H; unfold along_axis0. apply tabulate2_ext; intros k l _ _. now rewrite H.
Qed.

Lemma fft2_ortho_transform2 (a : ndarray2 C) : fft2_ortho a = transform2 (-1) a.
Proof.
  unfold fft2_ortho, transform2, along_axis1.
  rewrite (map_ext _ _ fft_ortho_lin). apply along_axis0_ext, fft_ortho_lin.
Qed.

Lemma ifft2_ortho_transform2 (a : ndarray2 C) : ifft2_ortho a = transform2 1 a.
Proof.
  unfold ifft2_ortho, transform2, along_axis1.
  rewrite (map_ext _ _ ifft_ortho_lin). apply along_axis0_ext, ifft_ortho_lin.
Qed.

Lemma rect_div_scalar (M N : nat) (a : ndarray2 C) (r : R) :
  rect M N a -> rect M N (div_scalar a r).
Proof.
  intros [HM HN]; split; unfold div_scalar; [now rewrite length_map|].
  apply Forall_map. revert HN; apply Forall_impl.
  intros row Hrow; now rewrite length_map.
Qed.

Lemma get2_div_scalar (a : ndarray2 C) (r : R) (i j : nat) :
  get2 C0 (div_scalar a r) i j = Cdivr (get2 C0 a i j) r.
Proof.
  unfold get2, div_scalar.
  change (@nil C) with (map (fun z => Cdivr z r) []) at 1.
  rewrite (map_nth (map (fun z => Cdivr z r)) a []).
  rewrite <- (Cdivr_0 r) at 1.
  now rewrite (map_nth (fun z => Cdivr z r)).
Qed.



Lemma div_scalar_twice (a : ndarray2 C) (r s : R) :
  r <> 0 -> s <> 0 -> div_scalar (div_scalar a r) s = div_scalar a (r * s).
Proof.
  intros Hr Hs; unfold div_scalar. rewrite map_map.
  apply map_ext; intros row. rewrite map_map.
  apply map_ext; intros z. now apply Cdivr_Cdivr.
Qed.

Section Transform2.

Variables M N : nat.
Hypothesis M_pos : (1 <= M)%nat.

Lemma rect_transform2 (s : R) (a : ndarray2 C) :
  rect M N a -> rect M N (transform2 s a).
Proof.
  intros Ha; unfold transform2. apply rect_along_axis0; [exact M_pos|].
  apply rect_along_axis1; [apply lin_length | exact Ha].
Qed.

Lemma axis1_div_scalar (K : nat -> nat -> nat -> C) (a : ndarray2 C) (r : R) :
  rect M N a ->
  along_axis1 (lin K) (div_scalar a r) = div_scalar (along_axis1 (lin K) a) r.
Proof.
  intros Ha.
  assert (R1 : rect M N (along_axis1 (lin K) a))
    by (apply rect_along_axis1; [apply lin_length | exact Ha]).
  apply (array_ext C0 M N).
  - apply rect_along_axis1; [apply lin_length | now apply rect_div_scalar].
  - now apply rect_div_scalar.
  - intros i j Hi Hj.
    rewrite get2_div_scalar, !(get2_axis1_lin M N)
      by (auto using rect_div_scalar).
    rewrite <- Csum_divr. apply Csum_ext; intros n _.
    now rewrite get2_div_scalar, Cdivr_mul_l.
Qed.

Lemma axis0_div_scalar (K : nat -> nat -> nat -> C) (a : ndarray2 C) (r : R) :
  rect M N a ->
  along_axis0 (lin K) (div_scalar a r) = div_scalar (along_axis0 (lin K) a) r.
Proof.
  intros Ha.
  assert (R0 : rect M N (along_axis0 (lin K) a)) by now apply rect_along_axis0.
  apply (array_ext C0 M N).
  - apply rect_along_axis0; [exact M_pos | now apply rect_div_scalar].
  - now apply rect_div_scalar.
  - intros i j Hi Hj.
    rewrite get2_div_scalar, !(get2_axis0_lin M N)
      by (auto using rect_div_scalar).
    rewrite <- Csum_divr. apply Csum_ext; intros n _.
    now rewrite get2_div_scalar, Cdivr_mul_l.
Qed.

Lemma transform2_div_scalar (s : R) (a : ndarray2 C) (r : R) :
  rect M N a -> transform2 s (div_scalar a r) = div_scalar (transform2 s a) r.
Proof.
  intros Ha; unfold transform2.
  rewrite axis1_div_scalar by assumption.
  apply axis0_div_scalar, rect_along_axis1; [apply lin_length | exact Ha].
Qed.

(** The 2-D transforms of opposite sign undo each other. *)
Lemma transform2_inverse (s : R) (a : ndarray2 C) :
  s = 1 \/ s = -1 -> rect M N a -> transform2 (- s) (transform2 s a) = a.
Proof.
  intros Hs Ha; unfold transform2.
  rewrite (axes_commute M N M_pos) by
    (apply rect_along_axis1; [apply lin_length | exact Ha]).
  rewrite axis1_inverse by (intros x; now apply lin_kernel_inverse).
  apply (axis0_inverse M N M_pos); [exact Ha|].
  intros x; now apply lin_kernel_inverse.
Qed.

Hypothesis N_pos : (1 <= N)%nat.

Lemma sqrt_size_nonzero : sqrt (INR (M * N)) <> 0.
Proof.
  apply Rgt_not_eq, sqrt_lt_R0, lt_0_INR. nia.
Qed.

(** A transform of an array divided by [r1], divided by [r2] and
    transformed back, is the array divided by [r1 * r2]. *)
Lemma scaled_round_trip (s r1 r2 : R) (a : ndarray2 C) :
  s = 1 \/ s = -1 -> rect M N a -> r1 <> 0 -> r2 <> 0 ->
  transform2 (- s) (div_scalar (transform2 s (div_scalar a r1)) r2)
  = div_scalar a (r1 * r2).
Proof.
  intros Hs Ha H1 H2.
  rewrite (transform2_div_scalar s) by assumption.
  rewrite (transform2_div_scalar (- s))
    by (apply rect_div_scalar, rect_transform2, Ha).
  rewrite (transform2_div_scalar (- s)) by (apply rect_transform2, Ha).
  rewrite transform2_inverse by assumption.
  now apply div_scalar_twice.
Qed.

Lemma forward_transform2 (a : ndarray2 C) :
  rect M N a -> forward a = transform2 (-1) (div_scalar a (sqrt (INR (M * N)))).
Proof.
  intros Ha; unfold forward.
  now rewrite fft2_ortho_transform2, (rect_shape0 M N), (rect_shape1 M N).
Qed.


Lemma rect_forward (a : ndarray2 C) : rect M N a -> rect M N (forward a).
Proof.
  intros Ha. rewrite forward_transform2 by assumption.
  now apply rect_transform2, rect_div_scalar.
Qed.




(** An orthonormal [ifft2] that divides by [sqrt(M*N)], as [forward]
    does, returns the spectrum divided by [M*N]. *)
Lemma dividing_ifft2_round_trip (a : ndarray2 C) :
  rect M N a ->
  ifft2_ortho (div_scalar (forward a) (sqrt (INR (M * N))))
  = div_scalar a (INR (M * N)).
Proof.
  intros Ha. pose proof sqrt_size_nonzero as Hr.
  rewrite ifft2_ortho_transform2, forward_transform2 by assumption.
  replace 1 with (- -1) at 1 by ring.
  rewrite scaled_round_trip; [| now right | exact Ha | exact Hr | exact Hr].
  now rewrite sqrt_sqrt by apply pos_INR.
Qed.

End Transform2.

(** ** Energy of an array *)

Lemma fold_right_Rplus_app (l1 l2 : list R) :
  fold_right Rplus 0 (l1 ++ l2) = fold_right Rplus 0 l1 + fold_right Rplus 0 l2.
Proof.
  induction l1 as [|a l1 IH]; simpl; [ring | rewrite IH; ring].
Qed.

Lemma energy_rows (a : ndarray2 C) :
  energy a = fold_right Rplus 0 (map energy1 a).
Proof.
  unfold energy. induction a as [|row a IH]; [reflexivity|].
  cbn [concat map fold_right].
  now rewrite map_app, fold_right_Rplus_app, IH.
Qed.

Lemma energy_Rsum (M N : nat) (a : ndarray2 C) :
  rect M N a ->
  energy a = Rsum M (fun i => Rsum N (fun j => Cnorm2 (get2 C0 a i j))).
Proof.
  intros Ha. rewrite energy_rows, (fold_right_Rsum []).
  replace (length a) with M by (symmetry; apply Ha).
  apply Rsum_ext; intros i Hi.
  now rewrite energy1_Rsum, (rect_nth_length M N).
Qed.

Lemma energy_axis1 (t : list C -> list C) (a : ndarray2 C) :
  (forall x, energy1 (t x) = energy1 x) -> energy (along_axis1 t a) = energy a.
Proof.
  intros Ht. rewrite !energy_rows. unfold along_axis1. rewrite map_map.
  f_equal. apply map_ext, Ht.
Qed.

Lemma energy_axis0 (M N : nat) (K : nat -> nat -> nat -> C) (a : ndarray2 C) :
  (forall x, energy1 (lin K x) = energy1 x) -> rect M N a -> (1 <= M)%nat ->
  energy (along_axis0 (lin K) a) = energy a.
Proof.
  intros HK Ha HM.
  rewrite (energy_Rsum M N) by now apply rect_along_axis0.
  rewrite (energy_Rsum M N a) by assumption.
  rewrite Rsum_exchange, (Rsum_exchange M N).
  apply Rsum_ext; intros l Hl.
  transitivity (energy1 (lin K (column a l))).
  - rewrite energy1_Rsum, lin_length, (column_length M N) by assumption.
    apply Rsum_ext; intros k Hk. now rewrite (get2_along_axis0 M N).
  - rewrite HK, energy1_Rsum, (column_length M N) by assumption.
    apply Rsum_ext; intros k _. now rewrite nth_column.
Qed.

Lemma energy_div_scalar (M N : nat) (a : ndarray2 C) (r : R) :
  rect M N a -> r <> 0 -> energy (div_scalar a r) = energy a / (r * r).
Proof.
  intros Ha Hr.
  rewrite (energy_Rsum M N) by now apply rect_div_scalar.
  rewrite (energy_Rsum M N a) by assumption.
  unfold Rdiv. rewrite <- Rsum_scal. apply Rsum_ext; intros i _.
  rewrite <- Rsum_scal. apply Rsum_ext; intros j _.
  now rewrite get2_div_scalar, Cnorm2_divr.
Qed.

(** The orthonormal 2-D transform keeps the energy. *)
Lemma transform2_energy (M N : nat) (s : R) (a : ndarray2 C) :
  s = 1 \/ s = -1 -> rect M N a -> (1 <= M)%nat ->
  energy (transform2 s a) = energy a.
Proof.
  intros Hs Ha HM; unfold transform2.
  rewrite (energy_axis0 M N); auto.
  - apply energy_axis1; intros x; now apply lin_kernel_energy.
  - intros x; now apply lin_kernel_energy.
  - apply rect_along_axis1; [apply lin_length | exact Ha].
Qed.

(** numpy's orthonormal pair on its own is a round trip and keeps the
    energy; the factors the reconstruction adds are what changes both. *)
Lemma ifft2_fft2_ortho (M N : nat) (a : ndarray2 C) :
  rect M N a -> (1 <= M)%nat -> ifft2_ortho (fft2_ortho a) = a.
Proof.
  intros Ha HM. rewrite fft2_ortho_transform2, ifft2_ortho_transform2.
  replace 1 with (- -1) by ring.
  apply (transform2_inverse M N HM); [now right | exact Ha].
Qed.

Lemma fft2_ortho_energy (M N : nat) (a : ndarray2 C) :
  rect M N a -> (1 <= M)%nat -> energy (fft2_ortho a) = energy a.
Proof.
  intros Ha HM. rewrite fft2_ortho_transform2.
  apply (transform2_energy M N); auto.
Qed.

(** The reconstruction divides the energy by the number of samples. *)
Lemma forward_energy (M N : nat) (a : ndarray2 C) :
  rect M N a -> (1 <= M)%nat -> (1 <= N)%nat ->
  energy (forward a) = energy a / INR (M * N).
Proof.
  intros Ha HM HN.
  rewrite (forward_transform2 M N) by assumption.
  rewrite (transform2_energy M N) by (auto using rect_div_scalar).
  rewrite (energy_div_scalar M N) by (auto using sqrt_size_nonzero).
  now rewrite sqrt_sqrt by apply pos_INR.
Qed.

(** ** Reconstruction of a single coefficient *)

Lemma kernel_origin (s : R) (n k : nat) :
  kernel s n 0 k = Cdivr C1 (sqrt (INR n)).
Proof.
  unfold kernel. rewrite <- Cexp_i_0. do 2 f_equal.
  simpl. unfold Rdiv. ring.
Qed.

Lemma Cabs_divr (z : C) (r : R) : 0 < r -> Cabs (Cdivr z r) = Cabs z / r.
Proof.
  intros Hr; unfold Cabs. rewrite Cnorm2_divr by lra.
  rewrite sqrt_div_alt by nra. now rewrite sqrt_square by lra.
Qed.

(** A spectrum whose only non-zero coefficient [v] sits at the origin is
    reconstructed as the constant image [v / (M*N)]. *)
Lemma forward_point (M N : nat) (v : C) (a : ndarray2 C) :
  rect M N a -> (1 <= M)%nat -> (1 <= N)%nat ->
  (forall i j, (i < M)%nat -> (j < N)%nat ->
     get2 C0 a i j = if (i =? 0)%nat && (j =? 0)%nat then v else C0) ->
  forall k l, (k < M)%nat -> (l < N)%nat ->
    get2 C0 (forward a) k l = Cdivr v (INR (M * N)).
Proof.
  intros Ha HM HN Hpt k l Hk Hl.
  rewrite (forward_transform2 M N) by assumption.
  set (r := sqrt (INR (M * N))). unfold transform2.
  assert (Hb : rect M N (div_scalar a r)) by now apply rect_div_scalar.
  assert (Hc : rect M N (along_axis1 (lin (kernel (-1))) (div_scalar a r)))
    by (apply rect_along_axis1; [apply lin_length | exact Hb]).
  rewrite (get2_axis0_lin M N) by assumption.
  rewrite (Csum_single M 0); [| lia |].
  - rewrite (get2_axis1_lin M N) by (auto; lia).
    rewrite (Csum_single N 0); [| lia |].
    + rewrite get2_div_scalar, Hpt by lia; simpl. rewrite !kernel_origin.
      assert (HsM : 0 < sqrt (INR M)) by (apply sqrt_lt_R0, lt_0_INR; lia).
      assert (HsN : 0 < sqrt (INR N)) by (apply sqrt_lt_R0, lt_0_INR; lia).
      assert (Er : r = sqrt (INR M) * sqrt (INR N)).
      { unfold r. rewrite mult_INR. apply sqrt_mult; apply pos_INR. }
      assert (Es : INR (M * N)
                   = (sqrt (INR M) * sqrt (INR M)) * (sqrt (INR N) * sqrt (INR N))).
      { rewrite !sqrt_sqrt by apply pos_INR. apply mult_INR. }
      rewrite Er, Es. destruct v as [v1 v2].
      unfold Cmul, Cdivr, C1; simpl. f_equal; field; lra.
    + intros n Hn' Hn. rewrite get2_div_scalar, Hpt by lia.
      destruct n as [|n]; [congruence|]. simpl.
      now rewrite Cdivr_0, Cmul_0_l.
  - intros m Hm Hne. rewrite (get2_axis1_lin M N) by assumption.
    rewrite (Csum_ext N _ (fun _ => C0)); [now rewrite Csum_0, Cmul_0_l|].
    intros n Hn. rewrite get2_div_scalar, Hpt by lia.
    destruct m as [|m]; [congruence|]. simpl.
    now rewrite Cdivr_0, Cmul_0_l.
Qed.

Lemma point_spectrum_injected :
  injectPoint (zeros2 C0 4 4) 0 0 (10, 10) = Ok point_spectrum.
Proof. reflexivity. Qed.

Lemma point_spectrum_shifted :
  fftshift point_spectrum
  = [[(10, 10); C0; C0; C0]; [C0; C0; C0; C0]; [C0; C0; C0; C0]; [C0; C0; C0; C0]].
Proof. reflexivity. Qed.

Lemma point_reconstruction (k l : nat) :
  (k < 4)%nat -> (l < 4)%nat ->
  get2 C0 (forward (fftshift point_spectrum)) k l = Cdivr (10, 10) 16.
Proof.
  intros Hk Hl. rewrite point_spectrum_shifted.
  replace 16 with (INR (4 * 4)) by (simpl; lra).
  apply forward_point; try lia.
  - split; [reflexivity | repeat constructor].
  - intros [|[|[|[|i]]]] [|[|[|[|j]]]] Hi Hj; try lia; reflexivity.
Qed.

Lemma Cabs_10_10_pos : 0 < Cabs (10, 10).
Proof. unfold Cabs, Cnorm2; simpl. apply sqrt_lt_R0. lra. Qed.

(** ** Round trip, energy and the single coefficient *)


Lemma rect_unit_2x2 : rect 2 2 unit_2x2.
Proof. split; [reflexivity | repeat constructor]. Qed.

Lemma rect_unit_3x3 : rect 3 3 unit_3x3.
Proof. split; [reflexivity | repeat constructor]. Qed.



Lemma energy_unit_2x2 : energy unit_2x2 = 1.
Proof.
  rewrite (energy_Rsum 2 2) by apply rect_unit_2x2.
  unfold Cnorm2, get2, unit_2x2, C1, C0; simpl. ring.
Qed.

Lemma energy_unit_3x3 : energy unit_3x3 = 1.
Proof.
  rewrite (energy_Rsum 3 3) by apply rect_unit_3x3.
  unfold Cnorm2, get2, unit_3x3, C1, C0; simpl. ring.
Qed.

(** C2 (counterexample).  The spectrum with a single 1 at the origin has
    energy 1; its reconstruction has energy 1/4 for the even shape 2 x 2
    and 1/9 for the odd shape 3 x 3. *)
Lemma forward_energy_not_preserved :
  energy unit_2x2 = 1 /\ energy (forward unit_2x2) = 1 / 4 /\
  energy unit_3x3 = 1 /\ energy (forward unit_3x3) = 1 / 9 /\
  energy (forward unit_2x2) <> energy unit_2x2 /\
  energy (forward unit_3x3) <> energy unit_3x3.
Proof.
  assert (E2 : energy (forward unit_2x2) = 1 / 4).
  { rewrite (forward_energy 2 2) by (auto using rect_unit_2x2).
    rewrite energy_unit_2x2. simpl. lra. }
  assert (E3 : energy (forward unit_3x3) = 1 / 9).
  { rewrite (forward_energy 3 3) by (auto using rect_unit_3x3).
    rewrite energy_unit_3x3. simpl. lra. }
  rewrite E2, E3, energy_unit_2x2, energy_unit_3x3.
  repeat split; lra.
Qed.

(** C2 (amended).  For every spectrum of shape (Nx, Ny) with both sizes at
    least 1, even or odd, the sum of squared magnitudes of the
    reconstruction is the sum of squared magnitudes of the spectrum divided
    by Nx*Ny: the two divisions by sqrt(Nx*Ny) scale the energy, they do
    not preserve it. *)
Theorem forward_energy_divided_by_size (Nx Ny : nat) (S : ndarray2 C) :
  rect Nx Ny S -> (1 <= Nx)%nat -> (1 <= Ny)%nat ->
  energy (forward S) = energy S / INR (Nx * Ny).
Proof.
  intros HS Hx Hy. now apply forward_energy.
Qed.

Lemma forward_energy_divided_by_size_witness :
  energy (forward unit_3x3) = energy unit_3x3 / INR (3 * 3).
Proof.
  apply (forward_energy_divided_by_size 3 3 unit_3x3);
    [apply rect_unit_3x3 | lia | lia].
Defined.

(** C3 (counterexample).  In the reconstruction of the shifted 4 x 4
    spectrum whose centre holds 10+10i, the pixel (0, 0) has magnitude
    |10+10i|/16, which is not |10+10i|/4. *)
Lemma point_magnitude_not_quarter :
  injectPoint (zeros2 C0 4 4) 0 0 (10, 10) = Ok point_spectrum /\
  Cabs (get2 C0 (forward (fftshift point_spectrum)) 0 0) = Cabs (10, 10) / 16 /\
  Cabs (get2 C0 (forward (fftshift point_spectrum)) 0 0) <> Cabs (10, 10) / 4.
Proof.
  assert (E : Cabs (get2 C0 (forward (fftshift point_spectrum)) 0 0)
              = Cabs (10, 10) / 16).
  { rewrite point_reconstruction by lia. apply Cabs_divr; lra. }
  split; [reflexivity|]. split; [exact E|].
  rewrite E. pose proof Cabs_10_10_pos. lra.
Qed.

(** C3 (amended).  For the 4 x 4 spectrum of zeros in which [injectPoint]
    sets the centre, array index (2, 2), to 10+10i, every pixel of the
    image reconstructed from the shifted spectrum has magnitude
    |10+10i|/16: the transform divides by 4 and the extra scaling divides
    by 4 again. *)
Theorem point_magnitude_sixteenth :
  exists S,
    injectPoint (zeros2 C0 4 4) 0 0 (10, 10) = Ok S /\
    get2 C0 S 2 2 = (10, 10) /\
    rect 4 4 (forward (fftshift S)) /\
    forall i j, (i < 4)%nat -> (j < 4)%nat ->
      Cabs (get2 C0 (forward (fftshift S)) i j) = Cabs (10, 10) / 16.
Proof.
  exists point_spectrum. split; [reflexivity|]. split; [reflexivity|]. split.
  - apply rect_forward; try lia. apply fftshift_rect.
    split; [reflexivity | repeat constructor].
  - intros i j Hi Hj. rewrite point_reconstruction by assumption.
    apply Cabs_divr; lra.
Qed.

(** * Further properties of the notebook's cells *)

(** ** Masking *)

Lemma map2_length {A B D : Type} (f : A -> B -> D) (l : list A) (l' : list B) :
  length (map2 f l l') = Nat.min (length l) (length l').
Proof.
  revert l'; induction l as [|x l IH]; intros [|y l']; simpl; auto.
Qed.

Lemma nth_map2 {A B D : Type} (f : A -> B -> D) (l : list A) (l' : list B)
  (i : nat) (da : A) (db : B) (dd : D) :
  (i < length l)%nat -> (i < length l')%nat ->
  nth i (map2 f l l') dd = f (nth i l da) (nth i l' db).
Proof.
  revert l' i; induction l as [|x l IH]; intros [|y l'] [|i] H H'; simpl in *;
    try lia; auto. apply IH; lia.
Qed.

Lemma rect_shapes_agree {A B : Type} (M N : nat) (a : ndarray2 A) (b : ndarray2 B) :
  rect M N a -> rect M N b -> shape0 b = shape0 a /\ shape1 b = shape1 a.
Proof.
  intros Ha Hb. rewrite (rect_shape0 M N a), (rect_shape0 M N b) by assumption.
  split; [reflexivity|].
  destruct M as [|M'].
  - apply rect_nil in Ha, Hb. now subst.
  - now rewrite (rect_shape1 (S M') N a), (rect_shape1 (S M') N b) by (auto; lia).
Qed.

Lemma rect_mask_eq_0 (M N : nat) (mask : ndarray2 bool) :
  rect M N mask -> rect M N (mask_eq_0 mask).
Proof.
  intros [HM HN]; split; unfold mask_eq_0; [now rewrite length_map|].
  apply Forall_map. revert HN; apply Forall_impl.
  intros row Hrow; now rewrite length_map.
Qed.

Lemma get2_mask_eq_0 (M N : nat) (mask : ndarray2 bool) (i j : nat) :
  rect M N mask -> (i < M)%nat -> (j < N)%nat ->
  get2 false (mask_eq_0 mask) i j = negb (get2 false mask i j).
Proof.
  intros Hm Hi Hj; unfold get2, mask_eq_0.
  rewrite (nth_indep _ [] (map negb [])) by (rewrite length_map; destruct Hm; lia).
  rewrite (map_nth (map negb) mask []).
  rewrite (nth_indep _ false (negb true))
    by (rewrite length_map, (rect_nth_length M N); auto).
  rewrite (map_nth negb). f_equal.
  apply nth_indep. rewrite (rect_nth_length M N); auto.
Qed.

(** Boolean assignment on arrays of one shape. *)
Lemma setitem_bool_ok {A : Type} (d : A) (M N : nat) (a : ndarray2 A)
  (b : ndarray2 bool) (v : A) :
  rect M N a -> rect M N b ->
  exists a', setitem_bool a b v = Ok a' /\ rect M N a' /\
    forall i j, (i < M)%nat -> (j < N)%nat ->
      get2 d a' i j = if get2 false b i j then v else get2 d a i j.
Proof.
  intros Ha Hb. destruct (rect_shapes_agree M N a b Ha Hb) as [E0 E1].
  unfold setitem_bool. rewrite E0, E1, !Nat.eqb_refl; simpl.
  eexists; split; [reflexivity|].
  assert (La : length a = M) by apply Ha. assert (Lb : length b = M) by apply Hb.
  split.
  - split; [rewrite map2_length; lia|].
    apply Forall_forall; intros row Hrow.
    destruct (In_nth _ _ [] Hrow) as [i [Hi <-]].
    rewrite map2_length in Hi.
    rewrite (nth_map2 _ a b i [] []) by lia.
    rewrite map2_length, !(rect_nth_length M N) by (auto; lia). lia.
  - intros i j Hi Hj; unfold get2.
    rewrite (nth_map2 _ a b i [] []) by lia.
    rewrite (nth_map2 _ _ _ j d false)
      by (rewrite (rect_nth_length M N); auto).
    reflexivity.
Qed.

Lemma applyMask_ok (M N : nat) (kspace : ndarray2 C) (mask : ndarray2 bool) :
  rect M N kspace -> rect M N mask ->
  exists kspace_mod, applyMask kspace mask = Ok kspace_mod /\ rect M N kspace_mod /\
    forall i j, (i < M)%nat -> (j < N)%nat ->
      get2 C0 kspace_mod i j = if get2 false mask i j then get2 C0 kspace i j else C0.
Proof.
  intros Hk Hm. unfold applyMask.
  destruct (setitem_bool_ok C0 M N kspace (mask_eq_0 mask) C0 Hk
              (rect_mask_eq_0 M N mask Hm)) as [a' [E [R G]]].
  exists a'; split; [exact E|]; split; [exact R|].
  intros i j Hi Hj. rewrite G, (get2_mask_eq_0 M N) by assumption.
  now destruct (get2 false mask i j).
Qed.

Lemma get2_zeros2_inside {A : Type} (d d' : A) (M N i j : nat) :
  (i < M)%nat -> (j < N)%nat -> get2 d' (zeros2 d M N) i j = d.
Proof.
  intros Hi Hj; unfold get2, zeros2.
  rewrite (nth_indep _ [] (repeat d N)) by (rewrite repeat_length; lia).
  rewrite nth_repeat.
  rewrite (nth_indep _ d' d) by (rewrite repeat_length; lia).
  apply nth_repeat.
Qed.

Lemma shape_mask_eq_0 (mask : ndarray2 bool) :
  shape0 (mask_eq_0 mask) = shape0 mask /\ shape1 (mask_eq_0 mask) = shape1 mask.
Proof.
  unfold shape0, shape1, mask_eq_0; split; [apply length_map|].
  destruct mask as [|row mask]; simpl; [reflexivity | apply length_map].
Qed.

Lemma Rsum_le (n : nat) (f g : nat -> R) :
  (forall i, (i < n)%nat -> f i <= g i) -> Rsum n f <= Rsum n g.
Proof.
  induction n as [|n IH]; intros H; simpl; [lra|].
  apply Rplus_le_compat; [apply IH; intros; apply H; lia | apply H; lia].
Qed.

Lemma Cnorm2_C0 : Cnorm2 C0 = 0.
Proof. unfold Cnorm2, C0; simpl; ring. Qed.

(** X1.  On a spectrum and a mask of one shape the masking cell returns an
    array of that shape that keeps every coefficient whose mask entry is
    True and holds the complex zero wherever the mask entry is False. *)
Theorem applyMask_keeps_selected (M N : nat) (kspace : ndarray2 C)
  (frequency_mask : ndarray2 bool) :
  rect M N kspace -> rect M N frequency_mask ->
  exists kspace_mod,
    applyMask kspace frequency_mask = Ok kspace_mod /\ rect M N kspace_mod /\
    forall i j, (i < M)%nat -> (j < N)%nat ->
      get2 C0 kspace_mod i j
      = if get2 false frequency_mask i j then get2 C0 kspace i j else C0.
Proof. apply applyMask_ok. Qed.

Lemma applyMask_keeps_selected_witness :
  exists kspace_mod,
    applyMask unit_2x2 [[true; false]; [false; true]] = Ok kspace_mod /\
    rect 2 2 kspace_mod /\
    forall i j, (i < 2)%nat -> (j < 2)%nat ->
      get2 C0 kspace_mod i j
      = if get2 false [[true; false]; [false; true]] i j
        then get2 C0 unit_2x2 i j else C0.
Proof.
  apply (applyMask_keeps_selected 2 2 unit_2x2 [[true; false]; [false; true]]);
    (split; [reflexivity | repeat constructor]).
Defined.

(** The masking cell raises [IndexError] exactly when the mask does
    not have the two sizes of the spectrum: it never pads or truncates a
    mask of another shape. *)
Theorem applyMask_shape_check (kspace : ndarray2 C) (frequency_mask : ndarray2 bool) :
  applyMask kspace frequency_mask = Raise IndexError
  <-> ~ (shape0 frequency_mask = shape0 kspace /\
         shape1 frequency_mask = shape1 kspace).
Proof.
  unfold applyMask, setitem_bool.
  destruct (shape_mask_eq_0 frequency_mask) as [-> ->].
  destruct (Nat.eqb_spec (shape0 frequency_mask) (shape0 kspace));
    destruct (Nat.eqb_spec (shape1 frequency_mask) (shape1 kspace)); simpl;
    split; intros H; try reflexivity; try discriminate; try tauto;
    elim H; tauto.
Qed.

(** X2.  Masking is idempotent: masking the masked spectrum with the same
    mask returns it unchanged. *)
Theorem applyMask_idempotent (M N : nat) (kspace : ndarray2 C)
  (frequency_mask : ndarray2 bool) :
  rect M N kspace -> rect M N frequency_mask ->
  exists kspace_mod,
    applyMask kspace frequency_mask = Ok kspace_mod /\
    applyMask kspace_mod frequency_mask = Ok kspace_mod.
Proof.
  intros Hk Hm.
  destruct (applyMask_ok M N kspace frequency_mask Hk Hm) as [k1 [E1 [R1 G1]]].
  destruct (applyMask_ok M N k1 frequency_mask R1 Hm) as [k2 [E2 [R2 G2]]].
  exists k1; split; [exact E1|]. rewrite E2. f_equal.
  apply (array_ext C0 M N); auto.
  intros i j Hi Hj. rewrite G2, G1 by assumption.
  now destruct (get2 false frequency_mask i j).
Qed.

Lemma applyMask_idempotent_witness :
  exists kspace_mod,
    applyMask unit_2x2 [[true; false]; [false; true]] = Ok kspace_mod /\
    applyMask kspace_mod [[true; false]; [false; true]] = Ok kspace_mod.
Proof.
  apply (applyMask_idempotent 2 2 unit_2x2 [[true; false]; [false; true]]);
    (split; [reflexivity | repeat constructor]).
Defined.

(** X3.  With a mask that is True everywhere the masking cell returns the
    spectrum itself; with a mask that is False everywhere it returns the
    array of zeros. *)
Theorem applyMask_full_masks (M N : nat) (kspace : ndarray2 C) :
  rect M N kspace ->
  applyMask kspace (zeros2 true M N) = Ok kspace /\
  applyMask kspace (zeros2 false M N) = Ok (zeros2 C0 M N).
Proof.
  intros Hk; split.
  - destruct (applyMask_ok M N kspace (zeros2 true M N) Hk (rect_zeros2 _ _ _))
      as [k1 [E1 [R1 G1]]].
    rewrite E1; f_equal. apply (array_ext C0 M N); auto.
    intros i j Hi Hj. now rewrite G1, get2_zeros2_inside.
  - destruct (applyMask_ok M N kspace (zeros2 false M N) Hk (rect_zeros2 _ _ _))
      as [k1 [E1 [R1 G1]]].
    rewrite E1; f_equal. apply (array_ext C0 M N); auto using rect_zeros2.
    intros i j Hi Hj. now rewrite G1, !get2_zeros2_inside.
Qed.

Lemma applyMask_full_masks_witness :
  applyMask unit_2x2 (zeros2 true 2 2) = Ok unit_2x2 /\
  applyMask unit_2x2 (zeros2 false 2 2) = Ok (zeros2 C0 2 2).
Proof.
  apply (applyMask_full_masks 2 2 unit_2x2); split; [reflexivity | repeat constructor].
Defined.

Lemma applyMask_energy_le (M N : nat) (kspace kspace_mod : ndarray2 C)
  (mask : ndarray2 bool) :
  rect M N kspace -> rect M N mask -> applyMask kspace mask = Ok kspace_mod ->
  rect M N kspace_mod /\ energy kspace_mod <= energy kspace.
Proof.
  intros Hk Hm E.
  destruct (applyMask_ok M N kspace mask Hk Hm) as [k1 [E1 [R1 G1]]].
  rewrite E in E1; injection E1 as <-. split; [exact R1|].
  rewrite (energy_Rsum M N kspace_mod), (energy_Rsum M N kspace) by assumption.
  apply Rsum_le; intros i Hi. apply Rsum_le; intros j Hj.
  rewrite G1 by assumption. destruct (get2 false mask i j); [lra|].
  rewrite Cnorm2_C0. apply Cnorm2_nonneg.
Qed.

(** X4.  Masking never adds energy: the sum of squared magnitudes of the
    masked spectrum is at most that of the spectrum. *)
Theorem applyMask_energy_not_increased (M N : nat) (kspace : ndarray2 C)
  (frequency_mask : ndarray2 bool) :
  rect M N kspace -> rect M N frequency_mask ->
  exists kspace_mod,
    applyMask kspace frequency_mask = Ok kspace_mod /\
    energy kspace_mod <= energy kspace.
Proof.
  intros Hk Hm.
  destruct (applyMask_ok M N kspace frequency_mask Hk Hm) as [k1 [E1 _]].
  exists k1; split; [exact E1|].
  now apply (applyMask_energy_le M N kspace k1 frequency_mask).
Qed.

Lemma applyMask_energy_not_increased_witness :
  exists kspace_mod,
    applyMask unit_2x2 [[false; true]; [true; true]] = Ok kspace_mod /\
    energy kspace_mod <= energy unit_2x2.
Proof.
  apply (applyMask_energy_not_increased 2 2 unit_2x2 [[false; true]; [true; true]]);
    (split; [reflexivity | repeat constructor]).
Defined.

(** ** The selected portion *)

Lemma slice_adjust_le (n : nat) (i : Z) : (slice_adjust n i <= n)%nat.
Proof.
  unfold slice_adjust. destruct (Z.ltb_spec i 0); lia.
Qed.

Lemma getslice_length {A : Type} (l : list A) (start stop : Z) :
  length (getslice l start stop)
  = (slice_adjust (length l) stop - slice_adjust (length l) start)%nat.
Proof.
  unfold getslice. rewrite length_firstn, length_skipn.
  pose proof (slice_adjust_le (length l) stop). lia.
Qed.

Lemma nth_getslice {A : Type} (d : A) (l : list A) (start stop : Z) (i : nat) :
  (i < slice_adjust (length l) stop - slice_adjust (length l) start)%nat ->
  nth i (getslice l start stop) d = nth (slice_adjust (length l) start + i) l d.
Proof.
  intros Hi; unfold getslice. rewrite nth_firstn.
  destruct (Nat.ltb_spec i (slice_adjust (length l) stop
                            - slice_adjust (length l) start)); [|lia].
  apply nth_skipn.
Qed.

Lemma In_firstn {A : Type} (x : A) (n : nat) (l : list A) :
  In x (firstn n l) -> In x l.
Proof.
  intros H. rewrite <- (firstn_skipn n l). apply in_or_app; now left.
Qed.

Lemma In_skipn {A : Type} (x : A) (n : nat) (l : list A) :
  In x (skipn n l) -> In x l.
Proof.
  intros H. rewrite <- (firstn_skipn n l). apply in_or_app; now right.
Qed.

Section Portion.

Context {A : Type}.
Variable d : A.
Variables M N : nat.
Variable a : ndarray2 A.
Hypothesis a_rect : rect M N a.
Variables r0 r1 c0 c1 : Z.

Lemma getslice2_rect :
  rect (slice_adjust M r1 - slice_adjust M r0) (slice_adjust N c1 - slice_adjust N c0)
       (getslice2 a r0 r1 c0 c1).
Proof.
  assert (HM : length a = M) by apply a_rect.
  unfold getslice2; split.
  - now rewrite length_map, getslice_length, HM.
  - apply Forall_map, Forall_forall; intros row Hrow.
    rewrite getslice_length.
    assert (Hin : In row a).
    { unfold getslice in Hrow. apply In_firstn in Hrow.
      revert Hrow; apply In_skipn. }
    destruct a_rect as [_ HN]. rewrite Forall_forall in HN.
    now rewrite (HN row Hin).
Qed.

Lemma get2_getslice2 (i j : nat) :
  (i < slice_adjust M r1 - slice_adjust M r0)%nat ->
  (j < slice_adjust N c1 - slice_adjust N c0)%nat ->
  get2 d (getslice2 a r0 r1 c0 c1) i j
  = get2 d a (slice_adjust M r0 + i) (slice_adjust N c0 + j).
Proof.
  intros Hi Hj. assert (HM : length a = M) by apply a_rect.
  pose proof (slice_adjust_le M r1) as Hle.
  unfold get2, getslice2.
  rewrite (nth_indep _ [] (getslice [] c0 c1))
    by (rewrite length_map, getslice_length, HM; exact Hi).
  rewrite (map_nth (fun row => getslice row c0 c1)).
  rewrite (nth_getslice []) by (rewrite HM; exact Hi). rewrite HM.
  assert (HN : length (nth (slice_adjust M r0 + i) a []) = N)
    by (apply (rect_nth_length M N); auto; lia).
  rewrite nth_getslice; rewrite HN; auto.
Qed.

End Portion.

(** Entries of the mask the notebook builds, for every input. *)
Lemma get2_built_mask (Nx Ny : nat) (OFFSETx OFFSETy Kx Ky : Z) (y x : nat) :
  (y < Nx)%nat -> (x < Ny)%nat ->
  get2 false
    (setslice2 (zeros2 false Nx Ny)
       (y_start Ny OFFSETy Ky) (y_stop Ny OFFSETy Ky + 1)
       (x_start Nx OFFSETx Kx) (x_stop Nx OFFSETx Kx + 1) true) y x
  = in_slice Nx (y_start Ny OFFSETy Ky) (y_stop Ny OFFSETy Ky + 1) y
    && in_slice Ny (x_start Nx OFFSETx Kx) (x_stop Nx OFFSETx Kx + 1) x.
Proof.
  intros Hy Hx.
  rewrite (get2_setslice2 false Nx Ny) by auto using rect_zeros2.
  rewrite get2_zeros2.
  now destruct (in_slice Nx _ _ y); destruct (in_slice Ny _ _ x).
Qed.

(** X5.  When the rectangle lies inside the array and the half-extents are
    not negative, the extracted portion has 2*Ky+1 rows and 2*Kx+1 columns
    and its entry (i, j) is the coefficient at row y_start+i and column
    x_start+j of the spectrum. *)
Theorem selectPortion_inside {A : Type} (d : A) (Nx Ny : nat) (kspace : ndarray2 A)
  (OFFSETx OFFSETy Kx Ky : Z) :
  rect Nx Ny kspace ->
  bounds_inside Nx (y_start Ny OFFSETy Ky) (y_stop Ny OFFSETy Ky) ->
  bounds_inside Ny (x_start Nx OFFSETx Kx) (x_stop Nx OFFSETx Kx) ->
  (0 <= Kx)%Z -> (0 <= Ky)%Z ->
  rect (Z.to_nat (2 * Ky + 1)) (Z.to_nat (2 * Kx + 1))
       (selectPortion kspace OFFSETx OFFSETy Kx Ky) /\
  forall i j, (i < Z.to_nat (2 * Ky + 1))%nat -> (j < Z.to_nat (2 * Kx + 1))%nat ->
    get2 d (selectPortion kspace OFFSETx OFFSETy Kx Ky) i j
    = get2 d kspace (Z.to_nat (y_start Ny OFFSETy Ky) + i)
                    (Z.to_nat (x_start Nx OFFSETx Kx) + j).
Proof.
  intros Hk [Hy0 Hy1] [Hx0 Hx1] HKx HKy.
  assert (HNx : (1 <= Nx)%nat) by lia.
  unfold selectPortion.
  rewrite (rect_shape0 Nx Ny), (rect_shape1 Nx Ny) by assumption.
  set (ys := y_start Ny OFFSETy Ky) in *. set (ye := y_stop Ny OFFSETy Ky) in *.
  set (xs := x_start Nx OFFSETx Kx) in *. set (xe := x_stop Nx OFFSETx Kx) in *.
  assert (Eye : (ye = ys + 2 * Ky)%Z) by (unfold ye, ys, y_stop, y_start; lia).
  assert (Exe : (xe = xs + 2 * Kx)%Z) by (unfold xe, xs, x_stop, x_start; lia).
  assert (S1 : slice_adjust Nx ys = Z.to_nat ys) by (apply slice_adjust_inside; lia).
  assert (S2 : slice_adjust Nx (ye + 1) = Z.to_nat (ye + 1))
    by (apply slice_adjust_inside; lia).
  assert (S3 : slice_adjust Ny xs = Z.to_nat xs) by (apply slice_adjust_inside; lia).
  assert (S4 : slice_adjust Ny (xe + 1) = Z.to_nat (xe + 1))
    by (apply slice_adjust_inside; lia).
  assert (Er : (slice_adjust Nx (ye + 1) - slice_adjust Nx ys)%nat
               = Z.to_nat (2 * Ky + 1)) by lia.
  assert (Ec : (slice_adjust Ny (xe + 1) - slice_adjust Ny xs)%nat
               = Z.to_nat (2 * Kx + 1)) by lia.
  split.
  - rewrite <- Er, <- Ec. now apply getslice2_rect.
  - intros i j Hi Hj.
    rewrite (get2_getslice2 d Nx Ny) by (auto; lia).
    now rewrite S1, S3.
Qed.

Lemma selectPortion_inside_witness :
  rect (Z.to_nat (2 * 1 + 1)) (Z.to_nat (2 * 1 + 1))
       (selectPortion (tabulate2 4 4 (fun i j => (i, j))) 0 0 1 1) /\
  forall i j, (i < Z.to_nat (2 * 1 + 1))%nat -> (j < Z.to_nat (2 * 1 + 1))%nat ->
    get2 (0, 0)%nat (selectPortion (tabulate2 4 4 (fun i j => (i, j))) 0 0 1 1) i j
    = get2 (0, 0)%nat (tabulate2 4 4 (fun i j => (i, j)))
        (Z.to_nat (y_start 4 0 1) + i) (Z.to_nat (x_start 4 0 1) + j).
Proof.
  apply (selectPortion_inside (0, 0)%nat 4 4 (tabulate2 4 4 (fun i j => (i, j))) 0 0 1 1);
    [apply rect_tabulate2 | | | lia | lia]; vm_compute; intuition congruence.
Defined.

(** X6.  Applying the mask the notebook builds keeps exactly the selected
    portion, for every offset and half-extent (also when the rectangle is
    clipped at the border): on the adjusted rectangle the masked spectrum
    holds the entries of the extracted portion, and everywhere else it is
    zero. *)
Theorem applyMask_keeps_portion (Nx Ny : nat) (kspace : ndarray2 C)
  (OFFSETx OFFSETy Kx Ky : Z) :
  rect Nx Ny kspace -> (1 <= Nx)%nat ->
  exists frequency_mask kspace_mod,
    buildRectangularMask Nx Ny OFFSETx OFFSETy Kx Ky = Ok frequency_mask /\
    applyMask kspace frequency_mask = Ok kspace_mod /\
    (forall i j,
       (i < slice_adjust Nx (y_stop Ny OFFSETy Ky + 1)
            - slice_adjust Nx (y_start Ny OFFSETy Ky))%nat ->
       (j < slice_adjust Ny (x_stop Nx OFFSETx Kx + 1)
            - slice_adjust Ny (x_start Nx OFFSETx Kx))%nat ->
       get2 C0 kspace_mod (slice_adjust Nx (y_start Ny OFFSETy Ky) + i)
                          (slice_adjust Ny (x_start Nx OFFSETx Kx) + j)
       = get2 C0 (selectPortion kspace OFFSETx OFFSETy Kx Ky) i j) /\
    (forall y x, (y < Nx)%nat -> (x < Ny)%nat ->
       ~ ((slice_adjust Nx (y_start Ny OFFSETy Ky) <= y
             < slice_adjust Nx (y_stop Ny OFFSETy Ky + 1))%nat /\
          (slice_adjust Ny (x_start Nx OFFSETx Kx) <= x
             < slice_adjust Ny (x_stop Nx OFFSETx Kx + 1))%nat) ->
       get2 C0 kspace_mod y x = C0).
Proof.
  intros Hk HNx.
  set (mask := setslice2 (zeros2 false Nx Ny)
       (y_start Ny OFFSETy Ky) (y_stop Ny OFFSETy Ky + 1)
       (x_start Nx OFFSETx Kx) (x_stop Nx OFFSETx Kx + 1) true).
  assert (Hm : rect Nx Ny mask) by apply setslice2_rect, rect_zeros2.
  destruct (applyMask_ok Nx Ny kspace mask Hk Hm) as [k1 [E1 [R1 G1]]].
  exists mask, k1; split; [reflexivity|]; split; [exact E1|]; split.
  - intros i j Hi Hj.
    pose proof (slice_adjust_le Nx (y_stop Ny OFFSETy Ky + 1)).
    pose proof (slice_adjust_le Ny (x_stop Nx OFFSETx Kx + 1)).
    rewrite G1 by lia. unfold mask. rewrite get2_built_mask by lia.
    unfold selectPortion.
    rewrite (rect_shape0 Nx Ny), (rect_shape1 Nx Ny) by assumption.
    rewrite (get2_getslice2 C0 Nx Ny) by assumption.
    unfold in_slice.
    repeat match goal with
           | |- context [(?a <=? ?b)%nat] => destruct (Nat.leb_spec a b); [|lia]
           | |- context [(?a <? ?b)%nat] => destruct (Nat.ltb_spec a b); [|lia]
           end.
    reflexivity.
  - intros y x Hy Hx Hout. rewrite G1 by assumption.
    unfold mask. rewrite get2_built_mask by assumption.
    destruct (in_slice Nx _ _ y) eqn:Ey; [|reflexivity].
    destruct (in_slice Ny _ _ x) eqn:Ex; [|reflexivity].
    apply in_slice_iff in Ey, Ex. tauto.
Qed.

Lemma applyMask_keeps_portion_witness :
  exists frequency_mask kspace_mod,
    buildRectangularMask 2 2 0 0 0 0 = Ok frequency_mask /\
    applyMask unit_2x2 frequency_mask = Ok kspace_mod /\
    (forall i j,
       (i < slice_adjust 2 (y_stop 2 0 0 + 1) - slice_adjust 2 (y_start 2 0 0))%nat ->
       (j < slice_adjust 2 (x_stop 2 0 0 + 1) - slice_adjust 2 (x_start 2 0 0))%nat ->
       get2 C0 kspace_mod (slice_adjust 2 (y_start 2 0 0) + i)
                          (slice_adjust 2 (x_start 2 0 0) + j)
       = get2 C0 (selectPortion unit_2x2 0 0 0 0) i j) /\
    (forall y x, (y < 2)%nat -> (x < 2)%nat ->
       ~ ((slice_adjust 2 (y_start 2 0 0) <= y
             < slice_adjust 2 (y_stop 2 0 0 + 1))%nat /\
          (slice_adjust 2 (x_start 2 0 0) <= x
             < slice_adjust 2 (x_stop 2 0 0 + 1))%nat) ->
       get2 C0 kspace_mod y x = C0).
Proof.
  apply (applyMask_keeps_portion 2 2 unit_2x2 0 0 0 0);
    [split; [reflexivity | repeat constructor] | lia].
Defined.

(** ** Counting the selected coefficients *)

Lemma count_interval (n a b : nat) :
  length (filter (fun k => (a <=? k)%nat && (k <? b)%nat) (seq 0 n))
  = (Nat.min b n - Nat.min a n)%nat.
Proof.
  induction n as [|n IH]; [simpl; lia|].
  rewrite seq_S, filter_app, length_app, IH; simpl.
  destruct (Nat.leb_spec a n); destruct (Nat.ltb_spec n b); simpl; lia.
Qed.

Lemma count_in_slice (n : nat) (start stop : Z) :
  length (filter (in_slice n start stop) (seq 0 n))
  = (slice_adjust n stop - slice_adjust n start)%nat.
Proof.
  unfold in_slice. rewrite count_interval.
  pose proof (slice_adjust_le n start). pose proof (slice_adjust_le n stop). lia.
Qed.

Lemma count_map_filter {A : Type} (Q : A -> bool) (l : list A) :
  length (filter (fun b : bool => b) (map Q l)) = length (filter Q l).
Proof.
  induction l as [|x l IH]; simpl; [reflexivity|].
  destruct (Q x); simpl; now rewrite IH.
Qed.

Lemma count_true_product (P Q : nat -> bool) (N : nat) (L : list nat) :
  length (filter (fun b : bool => b)
            (concat (map (fun i => map (fun j => P i && Q j) (seq 0 N)) L)))
  = (length (filter P L) * length (filter Q (seq 0 N)))%nat.
Proof.
  induction L as [|i L IH]; simpl; [reflexivity|].
  rewrite filter_app, length_app, IH.
  destruct (P i); simpl.
  - now rewrite (count_map_filter Q).
  - rewrite (count_map_filter (fun _ => false)).
    replace (length (filter (fun _ : nat => false) (seq 0 N))) with 0%nat;
      [reflexivity|].
    generalize (seq 0 N) as l; induction l; simpl; auto.
Qed.

Lemma length_concat_rect {A : Type} (M N : nat) (a : ndarray2 A) :
  rect M N a -> length (concat a) = (M * N)%nat.
Proof.
  intros [HM HN]; subst M. induction HN as [|row a Hrow Ha IH]; simpl; [reflexivity|].
  rewrite length_app, IH, Hrow. reflexivity.
Qed.

(** The number of True entries of the mask, for every input. *)
Lemma count_built_mask (Nx Ny : nat) (OFFSETx OFFSETy Kx Ky : Z) :
  count_true
    (setslice2 (zeros2 false Nx Ny)
       (y_start Ny OFFSETy Ky) (y_stop Ny OFFSETy Ky + 1)
       (x_start Nx OFFSETx Kx) (x_stop Nx OFFSETx Kx + 1) true)
  = ((slice_adjust Nx (y_stop Ny OFFSETy Ky + 1)
      - slice_adjust Nx (y_start Ny OFFSETy Ky))
     * (slice_adjust Ny (x_stop Nx OFFSETx Kx + 1)
        - slice_adjust Ny (x_start Nx OFFSETx Kx)))%nat.
Proof.
  set (mask := setslice2 _ _ _ _ _ _).
  assert (Hm : rect Nx Ny mask) by apply setslice2_rect, rect_zeros2.
  rewrite <- (tabulate2_get2 false Nx Ny mask Hm).
  rewrite (tabulate2_ext Nx Ny _
    (fun y x => in_slice Nx (y_start Ny OFFSETy Ky) (y_stop Ny OFFSETy Ky + 1) y
                && in_slice Ny (x_start Nx OFFSETx Kx) (x_stop Nx OFFSETx Kx + 1) x))
    by (intros; now apply get2_built_mask).
  unfold count_true, tabulate2.
  now rewrite count_true_product, !count_in_slice.
Qed.

(** X7.  The mask has exactly as many True entries as the extracted
    portion has coefficients, for every offset and half-extent (the two
    selections of the cell are clipped the same way). *)
Theorem mask_counts_portion {A : Type} (Nx Ny : nat) (kspace : ndarray2 A)
  (OFFSETx OFFSETy Kx Ky : Z) :
  rect Nx Ny kspace -> (1 <= Nx)%nat ->
  exists frequency_mask,
    buildRectangularMask Nx Ny OFFSETx OFFSETy Kx Ky = Ok frequency_mask /\
    count_true frequency_mask
    = length (concat (selectPortion kspace OFFSETx OFFSETy Kx Ky)).
Proof.
  intros Hk HNx. eexists; split; [reflexivity|].
  rewrite count_built_mask. symmetry.
  apply length_concat_rect. unfold selectPortion.
  rewrite (rect_shape0 Nx Ny), (rect_shape1 Nx Ny) by assumption.
  now apply getslice2_rect.
Qed.

Lemma mask_counts_portion_witness :
  exists frequency_mask,
    buildRectangularMask 4 4 0 0 3 3 = Ok frequency_mask /\
    count_true frequency_mask
    = length (concat (selectPortion sample_4x4 0 0 3 3)).
Proof.
  apply (mask_counts_portion 4 4 sample_4x4 0 0 3 3);
    [split; [reflexivity | repeat constructor] | lia].
Defined.

(** X8.  When the rectangle lies inside the array and the half-extents are
    not negative, the mask selects (2*Kx+1)*(2*Ky+1) coefficients. *)
Theorem mask_count_inside (Nx Ny : nat) (OFFSETx OFFSETy Kx Ky : Z) :
  bounds_inside Nx (y_start Ny OFFSETy Ky) (y_stop Ny OFFSETy Ky) ->
  bounds_inside Ny (x_start Nx OFFSETx Kx) (x_stop Nx OFFSETx Kx) ->
  (0 <= Kx)%Z -> (0 <= Ky)%Z ->
  exists frequency_mask,
    buildRectangularMask Nx Ny OFFSETx OFFSETy Kx Ky = Ok frequency_mask /\
    Z.of_nat (count_true frequency_mask) = ((2 * Kx + 1) * (2 * Ky + 1))%Z.
Proof.
  intros [Hy0 Hy1] [Hx0 Hx1] HKx HKy. eexists; split; [reflexivity|].
  rewrite count_built_mask.
  set (ys := y_start Ny OFFSETy Ky) in *. set (ye := y_stop Ny OFFSETy Ky) in *.
  set (xs := x_start Nx OFFSETx Kx) in *. set (xe := x_stop Nx OFFSETx Kx) in *.
  assert (Eye : (ye = ys + 2 * Ky)%Z) by (unfold ye, ys, y_stop, y_start; lia).
  assert (Exe : (xe = xs + 2 * Kx)%Z) by (unfold xe, xs, x_stop, x_start; lia).
  rewrite (slice_adjust_inside Nx ys), (slice_adjust_inside Nx (ye + 1)),
    (slice_adjust_inside Ny xs), (slice_adjust_inside Ny (xe + 1)) by lia.
  rewrite Nat2Z.inj_mul.
  replace (Z.of_nat (Z.to_nat (ye + 1) - Z.to_nat ys)) with (2 * Ky + 1)%Z by lia.
  replace (Z.of_nat (Z.to_nat (xe + 1) - Z.to_nat xs)) with (2 * Kx + 1)%Z by lia.
  apply Z.mul_comm.
Qed.

Lemma mask_count_inside_witness :
  exists frequency_mask,
    buildRectangularMask 8 8 0 0 3 3 = Ok frequency_mask /\
    Z.of_nat (count_true frequency_mask) = ((2 * 3 + 1) * (2 * 3 + 1))%Z.
Proof.
  apply (mask_count_inside 8 8 0 0 3 3); vm_compute; intuition congruence.
Defined.

(** ** What the reconstruction computes *)

Lemma Csub_self (z : C) : Csub z z = C0.
Proof. unfold Csub, C0; f_equal; ring. Qed.

Lemma Csub_0_r (z : C) : Csub z C0 = z.
Proof. destruct z; unfold Csub, C0; simpl; f_equal; ring. Qed.

Lemma Csub_mul_r (z w u : C) : Csub (Cmul z u) (Cmul w u) = Cmul (Csub z w) u.
Proof. unfold Csub, Cmul; simpl; f_equal; ring. Qed.

Lemma Csub_divr (z w : C) (r : R) : Csub (Cdivr z r) (Cdivr w r) = Cdivr (Csub z w) r.
Proof. unfold Csub, Cdivr; simpl; f_equal; unfold Rdiv; ring. Qed.

Lemma Csum_sub (n : nat) (f g : nat -> C) :
  Csub (Csum n f) (Csum n g) = Csum n (fun i => Csub (f i) (g i)).
Proof.
  induction n as [|n IH]; simpl; [apply Csub_self|].
  rewrite <- IH. unfold Csub, Cadd; simpl; f_equal; ring.
Qed.

Lemma Cnorm2_mul (z w : C) : Cnorm2 (Cmul z w) = Cnorm2 z * Cnorm2 w.
Proof. unfold Cnorm2, Cmul; simpl; ring. Qed.

Lemma Cnorm2_Cexp_i (theta : R) : Cnorm2 (Cexp_i theta) = 1.
Proof.
  unfold Cnorm2, Cexp_i; simpl.
  pose proof (sin2_cos2 theta) as H. unfold Rsqr in H. lra.
Qed.

(** Multiplying by [exp(i theta)] keeps the magnitude. *)
Lemma Cabs_mul_Cexp_i (z : C) (theta : R) : Cabs (Cmul z (Cexp_i theta)) = Cabs z.
Proof.
  unfold Cabs. now rewrite Cnorm2_mul, Cnorm2_Cexp_i, Rmult_1_r.
Qed.

Lemma fourier_sum_sub (M N : nat) (f g : nat -> nat -> C) (k l : nat) :
  Csub (fourier_sum M N f k l) (fourier_sum M N g k l)
  = fourier_sum M N (fun m n => Csub (f m n) (g m n)) k l.
Proof.
  unfold fourier_sum. rewrite Csum_sub. apply Csum_ext; intros m _.
  rewrite Csum_sub. apply Csum_ext; intros n _. apply Csub_mul_r.
Qed.

(** A Fourier sum with a single non-zero term. *)
Lemma fourier_sum_single (M N : nat) (f : nat -> nat -> C) (p q k l : nat) :
  (p < M)%nat -> (q < N)%nat ->
  (forall m n, (m < M)%nat -> (n < N)%nat -> ~ (m = p /\ n = q) -> f m n = C0) ->
  fourier_sum M N f k l
  = Cmul (f p q)
      (Cexp_i (- (2 * PI * (INR p * INR k / INR M + INR q * INR l / INR N)))).
Proof.
  intros Hp Hq Hf; unfold fourier_sum.
  rewrite (Csum_single M p); [| exact Hp |].
  - rewrite (Csum_single N q); [reflexivity | exact Hq |].
    intros n Hn Hne. rewrite Hf by (auto; tauto). apply Cmul_0_l.
  - intros m Hm Hne. rewrite (Csum_ext N _ (fun _ => C0)); [apply Csum_0|].
    intros n Hn. rewrite Hf by (auto; tauto). apply Cmul_0_l.
Qed.

Lemma scale_three (a E1 E2 : C) (sM sN : R) :
  sM <> 0 -> sN <> 0 ->
  Cmul (Cmul (Cdivr a (sM * sN)) (Cdivr E1 sN)) (Cdivr E2 sM)
  = Cdivr (Cmul a (Cmul E1 E2)) ((sM * sM) * (sN * sN)).
Proof.
  intros HM HN. destruct a as [a1 a2], E1 as [e1 e2], E2 as [g1 g2].
  unfold Cmul, Cdivr; simpl. f_equal; field; auto.
Qed.

(** Every pixel of the reconstruction is the plain Fourier sum of the
    spectrum divided by the number of coefficients. *)
Lemma forward_formula (M N : nat) (a : ndarray2 C) (k l : nat) :
  rect M N a -> (k < M)%nat -> (l < N)%nat ->
  get2 C0 (forward a) k l = Cdivr (dft2 M N a k l) (INR (M * N)).
Proof.
  intros Ha Hk Hl.
  assert (HM : (1 <= M)%nat) by lia. assert (HN : (1 <= N)%nat) by lia.
  rewrite (forward_transform2 M N) by assumption.
  set (r := sqrt (INR (M * N))). unfold transform2.
  assert (Hb : rect M N (div_scalar a r)) by now apply rect_div_scalar.
  assert (Hc : rect M N (along_axis1 (lin (kernel (-1))) (div_scalar a r)))
    by (apply rect_along_axis1; [apply lin_length | exact Hb]).
  assert (HsM : 0 < sqrt (INR M)) by (apply sqrt_lt_R0, lt_0_INR; lia).
  assert (HsN : 0 < sqrt (INR N)) by (apply sqrt_lt_R0, lt_0_INR; lia).
  assert (Er : r = sqrt (INR M) * sqrt (INR N)).
  { unfold r. rewrite mult_INR. apply sqrt_mult; apply pos_INR. }
  assert (Es : INR (M * N)
               = (sqrt (INR M) * sqrt (INR M)) * (sqrt (INR N) * sqrt (INR N))).
  { rewrite !sqrt_sqrt by apply pos_INR. apply mult_INR. }
  rewrite (get2_axis0_lin M N) by assumption.
  unfold dft2, fourier_sum. rewrite <- Csum_divr.
  apply Csum_ext; intros m Hm.
  rewrite (get2_axis1_lin M N) by assumption.
  rewrite <- Csum_mul_r, <- Csum_divr.
  apply Csum_ext; intros n Hn.
  rewrite get2_div_scalar. unfold kernel.
  rewrite Er, Es, scale_three by lra.
  do 2 f_equal. rewrite <- Cexp_i_add. f_equal.
  unfold Rdiv; ring.
Qed.

(** ** Where the shift moves the coefficients *)

Lemma shift_target_lt (n p : nat) : (1 <= n)%nat -> (shift_target n p < n)%nat.
Proof. intros H; unfold shift_target. apply Nat.mod_upper_bound; lia. Qed.

Lemma shift_target_Z (n p : nat) :
  Z.of_nat (shift_target n p) = ((Z.of_nat p + Z.of_nat n / 2) mod Z.of_nat n)%Z.
Proof.
  unfold shift_target.
  now rewrite Nat2Z.inj_mod, Nat2Z.inj_add, Nat2Z.inj_div.
Qed.

(** The shifted axis holds at [shift_target n p] what was at [p]. *)
Lemma shift_source_of_target (n p : nat) :
  (p < n)%nat ->
  Z.to_nat ((Z.of_nat (shift_target n p) - Z.of_nat n / 2) mod Z.of_nat n) = p.
Proof.
  intros Hp. rewrite shift_target_Z, Zminus_mod_idemp_l.
  replace (Z.of_nat p + Z.of_nat n / 2 - Z.of_nat n / 2)%Z with (Z.of_nat p) by lia.
  rewrite Z.mod_small by lia. apply Nat2Z.id.
Qed.

Lemma shift_source_unique (n p i : nat) :
  (i < n)%nat ->
  Z.to_nat ((Z.of_nat i - Z.of_nat n / 2) mod Z.of_nat n) = p ->
  i = shift_target n p.
Proof.
  intros Hi E. apply Nat2Z.inj. rewrite shift_target_Z, <- E.
  rewrite Z2Nat.id by (apply Z.mod_pos_bound; lia).
  rewrite Zplus_mod_idemp_l.
  replace (Z.of_nat i - Z.of_nat n / 2 + Z.of_nat n / 2)%Z with (Z.of_nat i) by lia.
  symmetry; apply Z.mod_small; lia.
Qed.

Lemma get2_fftshift {A : Type} (d : A) (M N : nat) (a : ndarray2 A) (i j : nat) :
  rect M N a -> (i < M)%nat -> (j < N)%nat ->
  get2 d (fftshift a) i j
  = get2 d a (Z.to_nat ((Z.of_nat i - Z.of_nat M / 2) mod Z.of_nat M))
             (Z.to_nat ((Z.of_nat j - Z.of_nat N / 2) mod Z.of_nat N)).
Proof.
  intros Ha Hi Hj; unfold fftshift.
  rewrite (rect_shape0 M N), (rect_shape1 M N) by (auto; lia).
  now apply get2_roll2.
Qed.

Lemma get2_fftshift_target {A : Type} (d : A) (M N : nat) (a : ndarray2 A) (p q : nat) :
  rect M N a -> (p < M)%nat -> (q < N)%nat ->
  get2 d (fftshift a) (shift_target M p) (shift_target N q) = get2 d a p q.
Proof.
  intros Ha Hp Hq.
  rewrite (get2_fftshift d M N) by (auto; apply shift_target_lt; lia).
  now rewrite !shift_source_of_target.
Qed.

Lemma shift_target_origin (n : nat) : (1 <= n)%nat -> shift_target n 0 = (n / 2)%nat.
Proof.
  intros H; unfold shift_target. rewrite Nat.add_0_l. apply Nat.mod_small.
  apply Nat.div_lt; lia.
Qed.

Lemma shift_target_centre_even (n : nat) :
  Nat.even n = true -> (1 <= n)%nat -> shift_target n (n / 2) = 0%nat.
Proof.
  intros He H; unfold shift_target.
  apply Nat.even_spec in He; destruct He as [m ->].
  replace (2 * m / 2)%nat with m by (rewrite Nat.mul_comm, Nat.div_mul; lia).
  replace (m + m)%nat with (2 * m)%nat by lia. apply Nat.Div0.mod_same.
Qed.

Lemma shift_target_centre_odd (n : nat) :
  Nat.odd n = true -> shift_target n (n / 2) = (n - 1)%nat.
Proof.
  intros Ho; unfold shift_target.
  apply Nat.odd_spec in Ho; destruct Ho as [m ->].
  replace ((2 * m + 1) / 2)%nat with m.
  - rewrite Nat.mod_small by lia. lia.
  - apply (Nat.div_unique (2 * m + 1) 2 m 1); lia.
Qed.

(** X9.  The shift moves the coefficient at index (p, q) to index
    ((p + M/2) mod M, (q + N/2) mod N).  It always moves the origin to the
    centre (M/2, N/2); it moves the centre to the origin when both sizes
    are even, and to the last index (M-1, N-1) when both sizes are odd. *)
Theorem fftshift_moves_entries {A : Type} (d : A) (M N : nat) (a : ndarray2 A) :
  rect M N a -> (1 <= M)%nat -> (1 <= N)%nat ->
  (forall p q, (p < M)%nat -> (q < N)%nat ->
     get2 d (fftshift a) ((p + M / 2) mod M)%nat ((q + N / 2) mod N)%nat
     = get2 d a p q) /\
  get2 d (fftshift a) (M / 2)%nat (N / 2)%nat = get2 d a 0 0 /\
  (Nat.even M = true -> Nat.even N = true ->
   get2 d (fftshift a) 0 0 = get2 d a (M / 2)%nat (N / 2)%nat) /\
  (Nat.odd M = true -> Nat.odd N = true ->
   get2 d (fftshift a) (M - 1)%nat (N - 1)%nat = get2 d a (M / 2)%nat (N / 2)%nat).
Proof.
  intros Ha HM HN.
  assert (HcM : (M / 2 < M)%nat) by (apply Nat.div_lt; lia).
  assert (HcN : (N / 2 < N)%nat) by (apply Nat.div_lt; lia).
  split; [|split; [|split]].
  - intros p q Hp Hq. now apply (get2_fftshift_target d M N).
  - rewrite <- (shift_target_origin M), <- (shift_target_origin N) by assumption.
    apply (get2_fftshift_target d M N); auto; lia.
  - intros EM EN.
    rewrite <- (get2_fftshift_target d M N a (M / 2) (N / 2)) by assumption.
    now rewrite (shift_target_centre_even M EM HM), (shift_target_centre_even N EN HN).
  - intros OM ON.
    rewrite <- (get2_fftshift_target d M N a (M / 2) (N / 2)) by assumption.
    now rewrite (shift_target_centre_odd M OM), (shift_target_centre_odd N ON).
Qed.

Lemma fftshift_moves_entries_witness :
  (forall p q, (p < 3)%nat -> (q < 3)%nat ->
     get2 0%Z (fftshift sample_3x3) ((p + 3 / 2) mod 3)%nat ((q + 3 / 2) mod 3)%nat
     = get2 0%Z sample_3x3 p q) /\
  get2 0%Z (fftshift sample_3x3) (3 / 2)%nat (3 / 2)%nat = get2 0%Z sample_3x3 0 0 /\
  (Nat.even 3 = true -> Nat.even 3 = true ->
   get2 0%Z (fftshift sample_3x3) 0 0 = get2 0%Z sample_3x3 (3 / 2)%nat (3 / 2)%nat) /\
  (Nat.odd 3 = true -> Nat.odd 3 = true ->
   get2 0%Z (fftshift sample_3x3) (3 - 1)%nat (3 - 1)%nat
   = get2 0%Z sample_3x3 (3 / 2)%nat (3 / 2)%nat).
Proof.
  apply (fftshift_moves_entries 0%Z 3 3 sample_3x3);
    [split; [reflexivity | repeat constructor] | lia | lia].
Defined.

(** ** The reconstruction of a shifted spectrum *)

Lemma fourier_sum_ext (M N : nat) (f g : nat -> nat -> C) (k l : nat) :
  (forall m n, (m < M)%nat -> (n < N)%nat -> f m n = g m n) ->
  fourier_sum M N f k l = fourier_sum M N g k l.
Proof.
  intros H; unfold fourier_sum.
  apply Csum_ext; intros m Hm. apply Csum_ext; intros n Hn. now rewrite H.
Qed.

Lemma rect_reconstruct (M N : nat) (a : ndarray2 C) :
  rect M N a -> (1 <= M)%nat -> (1 <= N)%nat -> rect M N (reconstruct a).
Proof.
  intros Ha HM HN; unfold reconstruct.
  apply rect_forward; auto. now apply fftshift_rect.
Qed.

Lemma reconstruct_formula (M N : nat) (a : ndarray2 C) (k l : nat) :
  rect M N a -> (k < M)%nat -> (l < N)%nat ->
  get2 C0 (reconstruct a) k l
  = Cdivr (fourier_sum M N
             (fun m n =>
                get2 C0 a
                  (Z.to_nat ((Z.of_nat m - Z.of_nat M / 2) mod Z.of_nat M))
                  (Z.to_nat ((Z.of_nat n - Z.of_nat N / 2) mod Z.of_nat N))) k l)
          (INR (M * N)).
Proof.
  intros Ha Hk Hl; unfold reconstruct.
  rewrite (forward_formula M N) by (auto using fftshift_rect).
  f_equal. unfold dft2. apply fourier_sum_ext; intros m n Hm Hn.
  now apply get2_fftshift.
Qed.

(** Two spectra that differ in one coefficient are reconstructed to images
    whose difference has the same magnitude at every pixel. *)
Lemma reconstruct_single_difference (M N : nat) (a b : ndarray2 C) (p q k l : nat) :
  rect M N a -> rect M N b -> (p < M)%nat -> (q < N)%nat ->
  (forall i j, (i < M)%nat -> (j < N)%nat -> ~ (i = p /\ j = q) ->
     get2 C0 b i j = get2 C0 a i j) ->
  (k < M)%nat -> (l < N)%nat ->
  Cabs (Csub (get2 C0 (reconstruct b) k l) (get2 C0 (reconstruct a) k l))
  = Cabs (Csub (get2 C0 b p q) (get2 C0 a p q)) / INR (M * N).
Proof.
  intros Ha Hb Hp Hq Hagree Hk Hl.
  assert (Hpos : 0 < INR (M * N)) by (apply lt_0_INR; nia).
  rewrite !(reconstruct_formula M N) by assumption.
  rewrite Csub_divr, fourier_sum_sub, Cabs_divr by assumption.
  rewrite (fourier_sum_single M N _ (shift_target M p) (shift_target N q));
    try (apply shift_target_lt; lia).
  - rewrite Cabs_mul_Cexp_i. now rewrite !shift_source_of_target.
  - intros m n Hm Hn Hne.
    rewrite Hagree; [apply Csub_self | | |].
    + pose proof (Z.mod_pos_bound (Z.of_nat m - Z.of_nat M / 2) (Z.of_nat M)). lia.
    + pose proof (Z.mod_pos_bound (Z.of_nat n - Z.of_nat N / 2) (Z.of_nat N)). lia.
    + intros [E1 E2]. apply Hne; split.
      * now apply shift_source_unique.
      * now apply shift_source_unique.
Qed.

Lemma injectPoint_ok {A : Type} (d : A) (M N : nat) (kspace : ndarray2 A)
  (OFFSETx OFFSETy : Z) (value : A) :
  rect M N kspace -> (1 <= M)%nat ->
  (- Z.of_nat M <= int_center N + OFFSETy < Z.of_nat M)%Z ->
  (- Z.of_nat N <= int_center M + OFFSETx < Z.of_nat N)%Z ->
  exists kspace_mod,
    injectPoint kspace OFFSETx OFFSETy value = Ok kspace_mod /\
    rect M N kspace_mod /\
    forall i j, (i < M)%nat -> (j < N)%nat ->
      get2 d kspace_mod i j
      = if (Z.to_nat ((int_center N + OFFSETy) mod Z.of_nat M) =? i)%nat
           && (Z.to_nat ((int_center M + OFFSETx) mod Z.of_nat N) =? j)%nat
        then value else get2 d kspace i j.
Proof.
  intros Hk HM Hr Hc. unfold injectPoint, setitem2.
  rewrite (rect_shape0 M N), (rect_shape1 M N) by assumption.
  replace (length kspace) with M by (symmetry; apply Hk).
  pose proof (py_index_valid_bound M _ Hr) as Br.
  pose proof (py_index_valid_bound N _ Hc) as Bc.
  rewrite (py_index_valid M _ Hr); simpl.
  rewrite (rect_nth_length M N) by assumption.
  rewrite (py_index_valid N _ Hc); simpl.
  eexists; split; [reflexivity|]; split.
  - apply rect_list_set; [assumption|].
    rewrite list_set_length. now apply (rect_nth_length M N).
  - intros i j Hi Hj. now rewrite (get2_list_set d M N).
Qed.

(** X10.  The interference is additive and uniform: when the injected
    position is a valid index, the image reconstructed from the modified
    spectrum differs from the image reconstructed from the spectrum by a
    complex number of the same magnitude at every pixel, namely
    |value - overwritten coefficient| / (Nx*Ny). *)
Theorem interference_is_uniform (M N : nat) (kspace : ndarray2 C)
  (OFFSETx OFFSETy : Z) (value : C) :
  rect M N kspace -> (1 <= M)%nat -> (1 <= N)%nat ->
  (- Z.of_nat M <= int_center N + OFFSETy < Z.of_nat M)%Z ->
  (- Z.of_nat N <= int_center M + OFFSETx < Z.of_nat N)%Z ->
  exists kspace_mod,
    injectPoint kspace OFFSETx OFFSETy value = Ok kspace_mod /\
    forall k l, (k < M)%nat -> (l < N)%nat ->
      Cabs (Csub (get2 C0 (reconstruct kspace_mod) k l)
                 (get2 C0 (reconstruct kspace) k l))
      = Cabs (Csub value
                (get2 C0 kspace
                   (Z.to_nat ((int_center N + OFFSETy) mod Z.of_nat M))
                   (Z.to_nat ((int_center M + OFFSETx) mod Z.of_nat N))))
        / INR (M * N).
Proof.
  intros Hk HM HN Hr Hc.
  destruct (injectPoint_ok C0 M N kspace OFFSETx OFFSETy value Hk HM Hr Hc)
    as [km [E [R G]]].
  exists km; split; [exact E|]. intros k l Hk' Hl'.
  set (p := Z.to_nat ((int_center N + OFFSETy) mod Z.of_nat M)) in *.
  set (q := Z.to_nat ((int_center M + OFFSETx) mod Z.of_nat N)) in *.
  assert (Hp : (p < M)%nat) by (apply py_index_valid_bound; exact Hr).
  assert (Hq : (q < N)%nat) by (apply py_index_valid_bound; exact Hc).
  rewrite (reconstruct_single_difference M N kspace km p q) by
    (auto; intros i j Hi Hj Hne; rewrite G by assumption;
     destruct (Nat.eqb_spec p i); destruct (Nat.eqb_spec q j); simpl;
     try reflexivity; elim Hne; split; congruence).
  rewrite G by assumption. now rewrite !Nat.eqb_refl.
Qed.

Lemma interference_is_uniform_witness :
  exists kspace_mod,
    injectPoint unit_2x2 0 0 (10, 10) = Ok kspace_mod /\
    forall k l, (k < 2)%nat -> (l < 2)%nat ->
      Cabs (Csub (get2 C0 (reconstruct kspace_mod) k l)
                 (get2 C0 (reconstruct unit_2x2) k l))
      = Cabs (Csub (10, 10)
                (get2 C0 unit_2x2
                   (Z.to_nat ((int_center 2 + 0) mod Z.of_nat 2))
                   (Z.to_nat ((int_center 2 + 0) mod Z.of_nat 2))))
        / INR (2 * 2).
Proof.
  apply (interference_is_uniform 2 2 unit_2x2 0 0 (10, 10));
    [split; [reflexivity | repeat constructor] | lia | lia | | ];
    vm_compute; intuition congruence.
Defined.

(** X11.  Every pixel of the image that the reconstruction cell computes
    is the discrete Fourier sum of its input divided by the number of
    coefficients, and pixel (0, 0) is the mean of all coefficients. *)
Theorem forward_is_fourier_sum_over_size (M N : nat) (a : ndarray2 C) :
  rect M N a -> (1 <= M)%nat -> (1 <= N)%nat ->
  (forall k l, (k < M)%nat -> (l < N)%nat ->
     get2 C0 (forward a) k l
     = Cdivr (fourier_sum M N (get2 C0 a) k l) (INR (M * N))) /\
  get2 C0 (forward a) 0 0
  = Cdivr (Csum M (fun m => Csum N (fun n => get2 C0 a m n))) (INR (M * N)).
Proof.
  intros Ha HM HN; split.
  - intros k l Hk Hl. now apply forward_formula.
  - rewrite (forward_formula M N) by (auto; lia). f_equal.
    unfold dft2, fourier_sum. apply Csum_ext; intros m _.
    apply Csum_ext; intros n _.
    replace (- (2 * PI * (INR m * INR 0 / INR M + INR n * INR 0 / INR N))) with 0
      by (simpl; unfold Rdiv; ring).
    rewrite Cexp_i_0. apply Cmul_1_r.
Qed.

Lemma forward_is_fourier_sum_over_size_witness :
  (forall k l, (k < 2)%nat -> (l < 2)%nat ->
     get2 C0 (forward unit_2x2) k l
     = Cdivr (fourier_sum 2 2 (get2 C0 unit_2x2) k l) (INR (2 * 2))) /\
  get2 C0 (forward unit_2x2) 0 0
  = Cdivr (Csum 2 (fun m => Csum 2 (fun n => get2 C0 unit_2x2 m n))) (INR (2 * 2)).
Proof.
  apply (forward_is_fourier_sum_over_size 2 2 unit_2x2);
    [apply rect_unit_2x2 | lia | lia].
Defined.

(** X12.  A spectrum with a single non-zero coefficient [v], wherever it
    sits, is reconstructed to an image of constant magnitude
    |v| / (Nx*Ny), with or without the shift. *)
Theorem single_coefficient_constant_magnitude (M N : nat) (a : ndarray2 C)
  (p q : nat) (v : C) :
  rect M N a -> (p < M)%nat -> (q < N)%nat ->
  (forall i j, (i < M)%nat -> (j < N)%nat ->
     get2 C0 a i j = if (i =? p)%nat && (j =? q)%nat then v else C0) ->
  forall k l, (k < M)%nat -> (l < N)%nat ->
    Cabs (get2 C0 (forward a) k l) = Cabs v / INR (M * N) /\
    Cabs (get2 C0 (reconstruct a) k l) = Cabs v / INR (M * N).
Proof.
  intros Ha Hp Hq Hpt k l Hk Hl.
  assert (Hpos : 0 < INR (M * N)) by (apply lt_0_INR; nia).
  assert (Hpq : get2 C0 a p q = v) by (rewrite Hpt, !Nat.eqb_refl; auto).
  split.
  - rewrite (forward_formula M N), Cabs_divr by assumption. unfold dft2.
    rewrite (fourier_sum_single M N _ p q) by
      (auto; intros m n Hm Hn Hne; rewrite Hpt by assumption;
       destruct (Nat.eqb_spec m p); destruct (Nat.eqb_spec n q); simpl;
       try reflexivity; elim Hne; tauto).
    now rewrite Cabs_mul_Cexp_i, Hpq.
  - rewrite (reconstruct_formula M N), Cabs_divr by assumption.
    rewrite (fourier_sum_single M N _ (shift_target M p) (shift_target N q));
      try (apply shift_target_lt; lia).
    + now rewrite Cabs_mul_Cexp_i, !shift_source_of_target, Hpq.
    + intros m n Hm Hn Hne.
      pose proof (Z.mod_pos_bound (Z.of_nat m - Z.of_nat M / 2) (Z.of_nat M)).
      pose proof (Z.mod_pos_bound (Z.of_nat n - Z.of_nat N / 2) (Z.of_nat N)).
      rewrite Hpt by lia.
      destruct (Nat.eqb_spec
                  (Z.to_nat ((Z.of_nat m - Z.of_nat M / 2) mod Z.of_nat M)) p);
        destruct (Nat.eqb_spec
                    (Z.to_nat ((Z.of_nat n - Z.of_nat N / 2) mod Z.of_nat N)) q);
        simpl; try reflexivity.
      elim Hne; split; now apply shift_source_unique.
Qed.

Lemma single_coefficient_constant_magnitude_witness :
  Cabs (get2 C0 (forward unit_3x3) 1 2) = Cabs C1 / INR (3 * 3) /\
  Cabs (get2 C0 (reconstruct unit_3x3) 1 2) = Cabs C1 / INR (3 * 3).
Proof.
  apply (single_coefficient_constant_magnitude 3 3 unit_3x3 0 0 C1);
    try lia; [apply rect_unit_3x3|].
  intros [|[|[|i]]] [|[|[|j]]] Hi Hj; try lia; reflexivity.
Defined.

(** ** Energy through the whole pipeline *)

Lemma fold_right_Rplus_permutation (l l' : list R) :
  Permutation l l' -> fold_right Rplus 0 l = fold_right Rplus 0 l'.
Proof.
  induction 1; simpl; lra.
Qed.

Lemma fftshift_energy (a : ndarray2 C) : energy (fftshift a) = energy a.
Proof.
  unfold energy. apply fold_right_Rplus_permutation, Permutation_map,
    fftshift_permutation.
Qed.

Lemma reconstruct_energy (M N : nat) (a : ndarray2 C) :
  rect M N a -> (1 <= M)%nat -> (1 <= N)%nat ->
  energy (reconstruct a) = energy a / INR (M * N).
Proof.
  intros Ha HM HN; unfold reconstruct.
  rewrite (forward_energy M N) by (auto using fftshift_rect).
  now rewrite fftshift_energy.
Qed.

(** X13.  The shift keeps the energy of the spectrum, and the image
    reconstructed from the shifted spectrum has the energy of the spectrum
    divided by Nx*Ny. *)
Theorem reconstruct_energy_over_size (M N : nat) (kspace : ndarray2 C) :
  rect M N kspace -> (1 <= M)%nat -> (1 <= N)%nat ->
  energy (fftshift kspace) = energy kspace /\
  energy (reconstruct kspace) = energy kspace / INR (M * N).
Proof.
  intros Hk HM HN; split; [apply fftshift_energy | now apply reconstruct_energy].
Qed.

Lemma reconstruct_energy_over_size_witness :
  energy (fftshift unit_3x3) = energy unit_3x3 /\
  energy (reconstruct unit_3x3) = energy unit_3x3 / INR (3 * 3).
Proof.
  apply (reconstruct_energy_over_size 3 3 unit_3x3); [apply rect_unit_3x3 | lia | lia].
Defined.

(** X14.  The image reconstructed from the masked spectrum never has more
    energy than the image reconstructed from the whole spectrum. *)
Theorem masked_reconstruction_energy (M N : nat) (kspace : ndarray2 C)
  (frequency_mask : ndarray2 bool) :
  rect M N kspace -> rect M N frequency_mask -> (1 <= M)%nat -> (1 <= N)%nat ->
  exists kspace_mod,
    applyMask kspace frequency_mask = Ok kspace_mod /\
    energy (reconstruct kspace_mod) <= energy (reconstruct kspace).
Proof.
  intros Hk Hm HM HN.
  destruct (applyMask_ok M N kspace frequency_mask Hk Hm) as [k1 [E1 _]].
  exists k1; split; [exact E1|].
  destruct (applyMask_energy_le M N kspace k1 frequency_mask Hk Hm E1) as [R1 Hle].
  rewrite !(reconstruct_energy M N) by assumption.
  assert (Hpos : 0 < INR (M * N)) by (apply lt_0_INR; nia).
  unfold Rdiv. apply Rmult_le_compat_r; [|exact Hle].
  left; now apply Rinv_0_lt_compat.
Qed.

Lemma masked_reconstruction_energy_witness :
  exists kspace_mod,
    applyMask unit_2x2 [[false; true]; [true; true]] = Ok kspace_mod /\
    energy (reconstruct kspace_mod) <= energy (reconstruct unit_2x2).
Proof.
  apply (masked_reconstruction_energy 2 2 unit_2x2 [[false; true]; [true; true]]);
    try lia; (split; [reflexivity | repeat constructor]).
Defined.

(** ** The difference of the magnitude images *)

Lemma Cabs_nonneg (z : C) : 0 <= Cabs z.
Proof. apply sqrt_pos. Qed.

Lemma Cabs_triangle (u v : C) : Cabs (Cadd u v) <= Cabs u + Cabs v.
Proof.
  apply Rsqr_incr_0_var;
    [| pose proof (Cabs_nonneg u); pose proof (Cabs_nonneg v); lra].
  pose proof (sqrt_cauchy (fst u) (snd u) (fst v) (snd v)) as Hc.
  unfold Rsqr in *.
  pose proof (Cabs_sqr (Cadd u v)) as Euv.
  pose proof (Cabs_sqr u) as Eu. pose proof (Cabs_sqr v) as Ev.
  simpl in Euv, Eu, Ev. rewrite Rmult_1_r in Euv, Eu, Ev.
  rewrite Euv.
  replace ((Cabs u + Cabs v) * (Cabs u + Cabs v))
    with (Cabs u * Cabs u + Cabs v * Cabs v + 2 * (Cabs u * Cabs v)) by ring.
  rewrite Eu, Ev.
  unfold Cabs, Cnorm2 in *. unfold Cadd; simpl. nra.
Qed.

Lemma Cabs_sub_sym (z w : C) : Cabs (Csub z w) = Cabs (Csub w z).
Proof. unfold Cabs, Cnorm2, Csub; simpl. f_equal; ring. Qed.

(** The magnitudes of two complex numbers differ by at most the magnitude
    of their difference. *)
Lemma Cabs_reverse_triangle (z w : C) : Rabs (Cabs z - Cabs w) <= Cabs (Csub z w).
Proof.
  apply Rabs_le; split.
  - pose proof (Cabs_triangle z (Csub w z)) as H.
    replace (Cadd z (Csub w z)) with w in H
      by (destruct z, w; unfold Cadd, Csub; simpl; f_equal; ring).
    rewrite (Cabs_sub_sym z w). lra.
  - pose proof (Cabs_triangle w (Csub z w)) as H.
    replace (Cadd w (Csub z w)) with z in H
      by (destruct z, w; unfold Cadd, Csub; simpl; f_equal; ring).
    lra.
Qed.

Lemma broadcast_dim_same (n : nat) : broadcast_dim n n = Ok n.
Proof. unfold broadcast_dim. now rewrite Nat.eqb_refl. Qed.

Lemma broadcast_get_same {A : Type} (d : A) (M N : nat) (a : ndarray2 A) (i j : nat) :
  rect M N a -> (i < M)%nat -> (j < N)%nat -> broadcast_get d a i j = get2 d a i j.
Proof.
  intros Ha Hi Hj; unfold broadcast_get.
  rewrite (rect_shape0 M N), (rect_shape1 M N) by (auto; lia).
  destruct (Nat.eqb_spec M 1) as [EM|_]; destruct (Nat.eqb_spec N 1) as [EN|_];
    try (assert (i = 0%nat) by lia; subst i);
    try (assert (j = 0%nat) by lia; subst j); reflexivity.
Qed.

Lemma magnitudeDifference_ok (M N : nat) (img img_mod : ndarray2 C) :
  rect M N img -> rect M N img_mod ->
  exists difference,
    magnitudeDifference img img_mod = Ok difference /\ rect M N difference /\
    forall i j, (i < M)%nat -> (j < N)%nat ->
      get2 0 difference i j = Cabs (get2 C0 img i j) - Cabs (get2 C0 img_mod i j).
Proof.
  intros Hi Hm. destruct (rect_shapes_agree M N img img_mod Hi Hm) as [E0 E1].
  unfold magnitudeDifference. rewrite E0, E1, !broadcast_dim_same; simpl.
  eexists; split; [reflexivity|].
  destruct M as [|M'].
  - apply rect_nil in Hi; subst img.
    split; [split; [reflexivity | constructor] | intros; lia].
  - rewrite (rect_shape0 (S M') N), (rect_shape1 (S M') N) by (auto; lia).
    split; [apply rect_tabulate2|].
    intros i j Hi' Hj'. rewrite get2_tabulate2 by assumption.
    now rewrite !(broadcast_get_same C0 (S M') N).
Qed.

(** X15.  For two images of one shape the difference cell returns an
    array of that shape holding |img| - |img_mod| pixel by pixel (signed),
    and no entry exceeds in absolute value the magnitude of the difference
    of the two complex pixels. *)
Theorem magnitudeDifference_bounded (M N : nat) (img img_mod : ndarray2 C) :
  rect M N img -> rect M N img_mod ->
  exists difference,
    magnitudeDifference img img_mod = Ok difference /\ rect M N difference /\
    forall i j, (i < M)%nat -> (j < N)%nat ->
      get2 0 difference i j = Cabs (get2 C0 img i j) - Cabs (get2 C0 img_mod i j) /\
      Rabs (get2 0 difference i j)
      <= Cabs (Csub (get2 C0 img i j) (get2 C0 img_mod i j)).
Proof.
  intros Hi Hm.
  destruct (magnitudeDifference_ok M N img img_mod Hi Hm) as [df [E [R G]]].
  exists df; split; [exact E|]; split; [exact R|].
  intros i j Hi' Hj'; split; [now apply G|].
  rewrite G by assumption. apply Cabs_reverse_triangle.
Qed.

Lemma magnitudeDifference_bounded_witness :
  exists difference,
    magnitudeDifference unit_2x2 (zeros2 C0 2 2) = Ok difference /\
    rect 2 2 difference /\
    forall i j, (i < 2)%nat -> (j < 2)%nat ->
      get2 0 difference i j
      = Cabs (get2 C0 unit_2x2 i j) - Cabs (get2 C0 (zeros2 C0 2 2) i j) /\
      Rabs (get2 0 difference i j)
      <= Cabs (Csub (get2 C0 unit_2x2 i j) (get2 C0 (zeros2 C0 2 2) i j)).
Proof.
  apply (magnitudeDifference_bounded 2 2 unit_2x2 (zeros2 C0 2 2));
    [apply rect_unit_2x2 | apply rect_zeros2].
Defined.

(** The difference cell raises [ValueError] exactly when, on one of
    the two axes, the images have different lengths neither of which is 1;
    images whose shapes differ only by an axis of length 1 are broadcast,
    not refused. *)
Theorem magnitudeDifference_shape_check (img img_mod : ndarray2 C) :
  magnitudeDifference img img_mod = Raise ValueError
  <-> (shape0 img <> shape0 img_mod /\ shape0 img <> 1%nat /\ shape0 img_mod <> 1%nat)
      \/ (shape1 img <> shape1 img_mod /\ shape1 img <> 1%nat /\ shape1 img_mod <> 1%nat).
Proof.
  unfold magnitudeDifference, broadcast_dim.
  destruct (Nat.eqb_spec (shape0 img) (shape0 img_mod));
    destruct (Nat.eqb_spec (shape0 img) 1);
    destruct (Nat.eqb_spec (shape0 img_mod) 1);
    destruct (Nat.eqb_spec (shape1 img) (shape1 img_mod));
    destruct (Nat.eqb_spec (shape1 img) 1);
    destruct (Nat.eqb_spec (shape1 img_mod) 1); simpl;
    split; intros H; try reflexivity; try discriminate; try tauto;
    try (exfalso; lia).
Qed.

(** X16.  After an interference at a valid index, the displayed
    difference of the two magnitude images is bounded at every pixel by
    |value - overwritten coefficient| / (Nx*Ny). *)
Theorem interference_difference_bounded (M N : nat) (kspace : ndarray2 C)
  (OFFSETx OFFSETy : Z) (value : C) :
  rect M N kspace -> (1 <= M)%nat -> (1 <= N)%nat ->
  (- Z.of_nat M <= int_center N + OFFSETy < Z.of_nat M)%Z ->
  (- Z.of_nat N <= int_center M + OFFSETx < Z.of_nat N)%Z ->
  exists kspace_mod difference,
    injectPoint kspace OFFSETx OFFSETy value = Ok kspace_mod /\
    magnitudeDifference (reconstruct kspace) (reconstruct kspace_mod) = Ok difference /\
    forall k l, (k < M)%nat -> (l < N)%nat ->
      Rabs (get2 0 difference k l)
      <= Cabs (Csub value
                 (get2 C0 kspace
                    (Z.to_nat ((int_center N + OFFSETy) mod Z.of_nat M))
                    (Z.to_nat ((int_center M + OFFSETx) mod Z.of_nat N))))
         / INR (M * N).
Proof.
  intros Hk HM HN Hr Hc.
  destruct (injectPoint_ok C0 M N kspace OFFSETx OFFSETy value Hk HM Hr Hc)
    as [km [E [R G]]].
  destruct (magnitudeDifference_ok M N (reconstruct kspace) (reconstruct km))
    as [df [Ed [Rd Gd]]]; try (apply rect_reconstruct; assumption).
  exists km, df; split; [exact E|]; split; [exact Ed|].
  intros k l Hk' Hl'. rewrite Gd by assumption.
  eapply Rle_trans; [apply Cabs_reverse_triangle|].
  rewrite Cabs_sub_sym.
  set (p := Z.to_nat ((int_center N + OFFSETy) mod Z.of_nat M)) in *.
  set (q := Z.to_nat ((int_center M + OFFSETx) mod Z.of_nat N)) in *.
  assert (Hp : (p < M)%nat) by (apply py_index_valid_bound; exact Hr).
  assert (Hq : (q < N)%nat) by (apply py_index_valid_bound; exact Hc).
  rewrite (reconstruct_single_difference M N kspace km p q) by
    (auto; intros i j Hi Hj Hne; rewrite G by assumption;
     destruct (Nat.eqb_spec p i); destruct (Nat.eqb_spec q j); simpl;
     try reflexivity; elim Hne; split; congruence).
  rewrite G by assumption. rewrite !Nat.eqb_refl. simpl. lra.
Qed.

Lemma interference_difference_bounded_witness :
  exists kspace_mod difference,
    injectPoint unit_2x2 0 0 (10, 10) = Ok kspace_mod /\
    magnitudeDifference (reconstruct unit_2x2) (reconstruct kspace_mod)
    = Ok difference /\
    forall k l, (k < 2)%nat -> (l < 2)%nat ->
      Rabs (get2 0 difference k l)
      <= Cabs (Csub (10, 10)
                 (get2 C0 unit_2x2
                    (Z.to_nat ((int_center 2 + 0) mod Z.of_nat 2))
                    (Z.to_nat ((int_center 2 + 0) mod Z.of_nat 2))))
         / INR (2 * 2).
Proof.
  apply (interference_difference_bounded 2 2 unit_2x2 0 0 (10, 10));
    [split; [reflexivity | repeat constructor] | lia | lia | | ];
    vm_compute; intuition congruence.
Defined.

(** ** Frequencies of the pixels of k-space *)

Lemma K_max_ok (Nx : nat) : (1 <= Nx)%nat -> K_max Nx = Ok (1 / (220 / INR Nx)).
Proof.
  intros H. assert (Hpos : 0 < INR Nx) by (apply lt_0_INR; lia).
  unfold K_max, resolution. rewrite py_div_nonzero by lra; simpl.
  apply py_div_nonzero. apply Rgt_not_eq. apply Rdiv_lt_0_compat; lra.
Qed.

Lemma pixel_frequency_ok (Nx : nat) (ix : Z) :
  (1 <= Nx)%nat -> pixel_frequency Nx ix = Ok ((IZR ix - INR Nx / 2) / 220).
Proof.
  intros H. assert (Hpos : 0 < INR Nx) by (apply lt_0_INR; lia).
  unfold pixel_frequency. rewrite K_max_ok by assumption; simpl.
  unfold frequency, center. rewrite py_div_nonzero by lra.
  f_equal. field. lra.
Qed.

(** X17.  For a spectrum with Nx >= 1 columns the frequency assigned to
    the integer [ix] is (ix - Nx/2) / 220: it is zero at ix = Nx/2 and
    grows by 1/220 per pixel.  With Nx = 0 the computation raises
    [ZeroDivisionError]. *)
Theorem pixel_frequency_value (Nx : nat) (ix : Z) :
  ((1 <= Nx)%nat ->
   pixel_frequency Nx ix = Ok ((IZR ix - INR Nx / 2) / 220) /\
   pixel_frequency Nx (ix + 1) = Ok ((IZR ix - INR Nx / 2) / 220 + 1 / 220)) /\
  pixel_frequency 0 ix = Raise ZeroDivisionError.
Proof.
  split.
  - intros H; split; [now apply pixel_frequency_ok|].
    rewrite pixel_frequency_ok by assumption. f_equal.
    rewrite plus_IZR. field.
  - unfold pixel_frequency, K_max, resolution. simpl. now rewrite py_div_zero.
Qed.



(** ** More on the sinusoid *)

(** X19.  On a square shape with non-zero periods [calculate_sinusoid]
    returns an array of that shape whose entry [x, y] is the documented
    value, and every entry lies between -pi and pi. *)
Theorem calculate_sinusoid_square_bounded (n : Z) (wx wy fx fy phix phiy : R) :
  (0 <= n)%Z -> wx <> 0 -> wy <> 0 ->
  exists sin_xy,
    calculate_sinusoid [n; n] wx wy fx fy phix phiy = Ok sin_xy /\
    rect (Z.to_nat n) (Z.to_nat n) sin_xy /\
    forall x y, (x < Z.to_nat n)%nat -> (y < Z.to_nat n)%nat ->
      get2 0 sin_xy x y
      = PI * sin (2 * PI * fx * INR x / wx + phix + 2 * PI * fy * INR y / wy + phiy)
      /\ - PI <= get2 0 sin_xy x y <= PI.
Proof.
  intros Hn Hwx Hwy.
  destruct (calculate_sinusoid_square n wx wy fx fy phix phiy Hn Hwx Hwy)
    as [a [E [R G]]].
  exists a; split; [exact E|]; split; [exact R|].
  intros x y Hx Hy. rewrite G by assumption. unfold sinusoid_formula.
  split; [reflexivity|].
  pose proof PI_RGT_0.
  pose proof (SIN_bound (2 * PI * fx * INR x / wx + phix
                         + 2 * PI * fy * INR y / wy + phiy)). nra.
Qed.

Lemma calculate_sinusoid_square_bounded_witness :
  exists sin_xy,
    calculate_sinusoid [4; 4]%Z 4 4 1 1 0 0 = Ok sin_xy /\
    rect (Z.to_nat 4) (Z.to_nat 4) sin_xy /\
    forall x y, (x < Z.to_nat 4)%nat -> (y < Z.to_nat 4)%nat ->
      get2 0 sin_xy x y
      = PI * sin (2 * PI * 1 * INR x / 4 + 0 + 2 * PI * 1 * INR y / 4 + 0)
      /\ - PI <= get2 0 sin_xy x y <= PI.
Proof.
  apply (calculate_sinusoid_square_bounded 4 4 4 1 1 0 0); [lia | lra | lra].
Defined.

(** X20.  On every shape of two different sizes, both at least 1, and
    non-zero periods, [calculate_sinusoid] raises [IndexError]: only
    square images can be produced. *)
Theorem calculate_sinusoid_rectangular_raises (d0 d1 : Z) (wx wy fx fy phix phiy : R) :
  (1 <= d0)%Z -> (1 <= d1)%Z -> d0 <> d1 -> wx <> 0 -> wy <> 0 ->
  calculate_sinusoid [d0; d1] wx wy fx fy phix phiy = Raise IndexError.
Proof. apply calculate_sinusoid_non_square. Qed.

Lemma calculate_sinusoid_rectangular_raises_witness :
  calculate_sinusoid [3; 2]%Z 4 4 1 1 0 0 = Raise IndexError.
Proof.
  apply (calculate_sinusoid_rectangular_raises 3 2 4 4 1 1 0 0); try lia; lra.
Defined.

(** X21.  For an even size N the sinusoid the notebook draws for the
    coefficient at the centre of k-space, with K_x = K_y computed for
    ix = iy = int(Cx), is the image of zeros: the centre has frequency 0
    and the pattern is a sine. *)
Theorem centre_sinusoid_is_zero (N : nat) :
  Nat.even N = true -> (1 <= N)%nat ->
  exists kmax sin2D,
    K_max N = Ok kmax /\
    pixel_frequency N (int_center N) = Ok 0 /\
    calculate_sinusoid [Z.of_nat N; Z.of_nat N] kmax kmax 0 0 0 0 = Ok sin2D /\
    rect N N sin2D /\
    forall x y, (x < N)%nat -> (y < N)%nat -> get2 0 sin2D x y = 0.
Proof.
  intros He H. assert (Hpos : 0 < INR N) by (apply lt_0_INR; lia).
  assert (Hk : 1 / (220 / INR N) <> 0).
  { apply Rgt_not_eq. apply Rdiv_lt_0_compat; [lra|].
    apply Rdiv_lt_0_compat; lra. }
  destruct (calculate_sinusoid_square (Z.of_nat N)
              (1 / (220 / INR N)) (1 / (220 / INR N)) 0 0 0 0) as [a [E [R G]]];
    try assumption; [lia|].
  rewrite Nat2Z.id in R, G.
  exists (1 / (220 / INR N)), a.
  split; [now apply K_max_ok|]. split; [|split; [exact E|split; [exact R|]]].
  - rewrite pixel_frequency_ok by assumption. f_equal.
    apply Nat.even_spec in He; destruct He as [m ->].
    unfold int_center.
    replace (Z.of_nat (2 * m)) with (Z.of_nat m * 2)%Z by lia.
    rewrite Z.quot_mul by lia.
    rewrite <- INR_IZR_INZ, mult_INR. simpl. field.
  - intros x y Hx Hy. rewrite G by assumption. unfold sinusoid_formula.
    replace (2 * PI * 0 * INR x / (1 / (220 / INR N)) + 0
             + 2 * PI * 0 * INR y / (1 / (220 / INR N)) + 0) with 0
      by (field; lra).
    rewrite sin_0. ring.
Qed.

Lemma centre_sinusoid_is_zero_witness :
  exists kmax sin2D,
    K_max 4 = Ok kmax /\
    pixel_frequency 4 (int_center 4) = Ok 0 /\
    calculate_sinusoid [Z.of_nat 4; Z.of_nat 4] kmax kmax 0 0 0 0 = Ok sin2D /\
    rect 4 4 sin2D /\
    forall x y, (x < 4)%nat -> (y < 4)%nat -> get2 0 sin2D x y = 0.
Proof.
  apply (centre_sinusoid_is_zero 4); [reflexivity | lia].
Defined.

(** ** The shift only changes the phase of the image *)

Lemma Csum_split (a b : nat) (f : nat -> C) :
  Csum (a + b) f = Cadd (Csum a f) (Csum b (fun i => f (a + i)%nat)).
Proof.
  induction b as [|b IH].
  - rewrite Nat.add_0_r. simpl. now rewrite Cadd_0_r.
  - rewrite Nat.add_succ_r. cbn [Csum]. now rewrite IH, Cadd_assoc.
Qed.

(** A sum over a rotated index is the sum itself. *)
Lemma Csum_cyclic (n t : nat) (F : nat -> C) :
  (t <= n)%nat -> Csum n (fun m => F ((m + t) mod n)%nat) = Csum n F.
Proof.
  intros Ht. destruct (Nat.eq_dec t n) as [->|Hne].
  - apply Csum_ext; intros m Hm.
    replace (m + n)%nat with (m + 1 * n)%nat by lia.
    now rewrite Nat.Div0.mod_add, Nat.mod_small.
  - set (G := fun m => F ((m + t) mod n)%nat).
    assert (E1 : Csum n G
                 = Cadd (Csum (n - t) G) (Csum t (fun i => G (n - t + i)%nat)))
      by (rewrite <- Csum_split; f_equal; lia).
    assert (E2 : Csum n F
                 = Cadd (Csum t F) (Csum (n - t) (fun i => F (t + i)%nat)))
      by (rewrite <- Csum_split; f_equal; lia).
    rewrite E1, E2, Cadd_comm. unfold G. f_equal.
    + apply Csum_ext; intros i Hi. f_equal.
      replace (n - t + i + t)%nat with (i + 1 * n)%nat by lia.
      rewrite Nat.Div0.mod_add. apply Nat.mod_small; lia.
    + apply Csum_ext; intros i Hi. f_equal.
      rewrite Nat.mod_small by lia. lia.
Qed.

Lemma axis_kernel_add (n m h k : nat) :
  axis_kernel n (m + h) k = Cmul (axis_kernel n m k) (axis_kernel n h k).
Proof.
  unfold axis_kernel. rewrite <- Cexp_i_add, plus_INR. f_equal.
  unfold Rdiv; ring.
Qed.

Lemma axis_kernel_mod (n x k : nat) :
  (1 <= n)%nat -> axis_kernel n (x mod n) k = axis_kernel n x k.
Proof.
  intros Hn. assert (Hpos : 0 < INR n) by (apply lt_0_INR; lia).
  rewrite (Nat.div_mod_eq x n) at 2.
  rewrite Nat.add_comm, axis_kernel_add.
  replace (axis_kernel n (n * (x / n)) k) with C1; [now rewrite Cmul_1_r|].
  unfold axis_kernel. rewrite mult_INR.
  replace (- (2 * PI * (INR n * INR (x / n) * INR k / INR n)))
    with (2 * PI * IZR (- Z.of_nat (x / n * k)))
    by (rewrite opp_IZR, <- INR_IZR_INZ, mult_INR; field; lra).
  symmetry; apply Cexp_i_2PI_Z.
Qed.

Lemma source_rotation (n m : nat) :
  (m < n)%nat ->
  Z.to_nat ((Z.of_nat m - Z.of_nat n / 2) mod Z.of_nat n)
  = ((m + (n - n / 2)) mod n)%nat.
Proof.
  intros Hm. apply Nat2Z.inj.
  rewrite Z2Nat.id by (apply Z.mod_pos_bound; lia).
  rewrite Nat2Z.inj_mod, Nat2Z.inj_add, Nat2Z.inj_sub, Nat2Z.inj_div
    by (apply Nat.Div0.div_le_upper_bound; lia).
  change (Z.of_nat 2) with 2%Z.
  replace (Z.of_nat m + (Z.of_nat n - Z.of_nat n / 2))%Z
    with (Z.of_nat m - Z.of_nat n / 2 + 1 * Z.of_nat n)%Z by lia.
  now rewrite Z_mod_plus_full.
Qed.

(** Rotating a signal by half its length multiplies its Fourier sum by a
    complex number of magnitude 1. *)
Lemma rotate_sum (n k : nat) (g : nat -> C) :
  (1 <= n)%nat ->
  Csum n (fun m => Cmul (g ((m + (n - n / 2)) mod n)%nat) (axis_kernel n m k))
  = Cmul (Csum n (fun m => Cmul (g m) (axis_kernel n m k))) (axis_kernel n (n / 2) k).
Proof.
  intros Hn.
  assert (Hh : (n / 2 <= n)%nat) by (apply Nat.Div0.div_le_upper_bound; lia).
  rewrite <- Csum_mul_r.
  rewrite <- (Csum_cyclic n (n - n / 2)
                (fun m => Cmul (Cmul (g m) (axis_kernel n m k))
                            (axis_kernel n (n / 2) k))) by lia.
  apply Csum_ext; intros m Hm.
  rewrite <- Cmul_assoc, <- axis_kernel_add. f_equal.
  rewrite <- (axis_kernel_mod n (_ + n / 2)) by assumption.
  f_equal. rewrite Nat.Div0.add_mod_idemp_l.
  replace (m + (n - n / 2) + n / 2)%nat with (m + 1 * n)%nat by lia.
  rewrite Nat.Div0.mod_add. symmetry; apply Nat.mod_small; lia.
Qed.

Lemma fourier_sum_axes (M N : nat) (f : nat -> nat -> C) (k l : nat) :
  fourier_sum M N f k l
  = Csum M (fun m =>
      Cmul (Csum N (fun n => Cmul (f m n) (axis_kernel N n l))) (axis_kernel M m k)).
Proof.
  unfold fourier_sum. apply Csum_ext; intros m _.
  rewrite <- Csum_mul_r. apply Csum_ext; intros n _.
  rewrite <- Cmul_assoc. f_equal. unfold axis_kernel.
  rewrite <- Cexp_i_add. f_equal. ring.
Qed.

Lemma fourier_sum_shift (M N : nat) (f : nat -> nat -> C) (k l : nat) :
  (1 <= M)%nat -> (1 <= N)%nat ->
  fourier_sum M N
    (fun m n => f ((m + (M - M / 2)) mod M)%nat ((n + (N - N / 2)) mod N)%nat) k l
  = Cmul (Cmul (fourier_sum M N f k l) (axis_kernel M (M / 2) k))
         (axis_kernel N (N / 2) l).
Proof.
  intros HM HN. rewrite !fourier_sum_axes.
  rewrite (Csum_ext M _
    (fun m => Cmul
       (Cmul (Csum N (fun n => Cmul (f ((m + (M - M / 2)) mod M)%nat n)
                                 (axis_kernel N n l)))
             (axis_kernel M m k))
       (axis_kernel N (N / 2) l))).
  - rewrite Csum_mul_r. f_equal.
    apply (rotate_sum M k
             (fun m => Csum N (fun n => Cmul (f m n) (axis_kernel N n l)))).
    exact HM.
  - intros m Hm. rewrite (rotate_sum N l) by assumption.
    rewrite <- !Cmul_assoc. f_equal. apply Cmul_comm.
Qed.

Lemma Cabs_mul_axis_kernel (z : C) (n m k : nat) : Cabs (Cmul z (axis_kernel n m k)) = Cabs z.
Proof. unfold axis_kernel. apply Cabs_mul_Cexp_i. Qed.

Lemma reconstruct_magnitude (M N : nat) (a : ndarray2 C) (k l : nat) :
  rect M N a -> (k < M)%nat -> (l < N)%nat ->
  Cabs (get2 C0 (reconstruct a) k l) = Cabs (get2 C0 (forward a) k l).
Proof.
  intros Ha Hk Hl.
  assert (Hpos : 0 < INR (M * N)) by (apply lt_0_INR; nia).
  rewrite (reconstruct_formula M N), (forward_formula M N) by assumption.
  rewrite !Cabs_divr by assumption. f_equal. unfold dft2.
  rewrite (fourier_sum_ext M N _
    (fun m n => get2 C0 a ((m + (M - M / 2)) mod M)%nat
                          ((n + (N - N / 2)) mod N)%nat))
    by (intros m n Hm Hn; now rewrite !source_rotation).
  rewrite (fourier_sum_shift M N (get2 C0 a)) by lia.
  now rewrite !Cabs_mul_axis_kernel.
Qed.

(** X22.  The shift changes only the phase of the image: at every pixel
    the image reconstructed from the shifted spectrum has the magnitude of
    the image reconstructed from the spectrum as it is. *)
Theorem shift_changes_only_phase (M N : nat) (kspace : ndarray2 C) :
  rect M N kspace ->
  forall k l, (k < M)%nat -> (l < N)%nat ->
    Cabs (get2 C0 (forward (fftshift kspace)) k l)
    = Cabs (get2 C0 (forward kspace) k l).
Proof.
  intros Hk k l Hk' Hl'. now apply (reconstruct_magnitude M N).
Qed.

Lemma shift_changes_only_phase_witness :
  Cabs (get2 C0 (forward (fftshift unit_3x3)) 1 2)
  = Cabs (get2 C0 (forward unit_3x3) 1 2).
Proof.
  apply (shift_changes_only_phase 3 3 unit_3x3); [apply rect_unit_3x3 | lia | lia].
Defined.

(** ** The sinusoid figure *)

Lemma getitem2_inside {A : Type} (d : A) (M N : nat) (a : ndarray2 A) (i j : nat) :
  rect M N a -> (i < M)%nat -> (j < N)%nat ->
  getitem2 d a (Z.of_nat i) (Z.of_nat j) = Ok (get2 d a i j).
Proof.
  intros Ha Hi Hj; unfold getitem2.
  rewrite py_index_of_nat by (destruct Ha; lia); simpl.
  rewrite (rect_nth_length M N) by assumption.
  now rewrite py_index_of_nat by lia.
Qed.

Lemma getitem2_row_outside {A : Type} (d : A) (a : ndarray2 A) (i : nat) (c : Z) :
  (length a <= i)%nat -> getitem2 d a (Z.of_nat i) c = Raise IndexError.
Proof.
  intros Hi; unfold getitem2. now rewrite py_index_of_nat_out.
Qed.

Lemma getitem2_col_outside {A : Type} (d : A) (M N : nat) (a : ndarray2 A) (i j : nat) :
  rect M N a -> (i < M)%nat -> (N <= j)%nat ->
  getitem2 d a (Z.of_nat i) (Z.of_nat j) = Raise IndexError.
Proof.
  intros Ha Hi Hj; unfold getitem2.
  rewrite py_index_of_nat by (destruct Ha; lia); simpl.
  rewrite (rect_nth_length M N) by assumption.
  now rewrite py_index_of_nat_out.
Qed.

Lemma frequency_ok (kmax : R) (n : nat) (ix : Z) :
  (1 <= n)%nat ->
  frequency kmax (center n) ix = Ok (kmax / 2 * (IZR ix - center n) / center n).
Proof.
  intros H. assert (Hpos : 0 < INR n) by (apply lt_0_INR; lia).
  unfold frequency. apply py_div_nonzero. unfold center. lra.
Qed.

Section SquareFigure.

Variable N : nat.
Variable kmax : R.
Variable mask : ndarray2 bool.
Hypothesis N_pos : (1 <= N)%nat.
Hypothesis kmax_nonzero : kmax <> 0.
Hypothesis mask_rect : rect N N mask.

(** The number of selected coefficients among the columns [L] of row [iy]. *)
Let selected_in (iy : nat) (L : list nat) : nat :=
  length (filter (fun ix => get2 false mask iy ix) L).

Lemma draw_cell_not_selected (iy ix : nat) (st : nat * list subplot) :
  (iy < N)%nat -> (ix < N)%nat -> get2 false mask iy ix = false ->
  draw_cell N N kmax mask iy ix st = Ok (st, Continue).
Proof.
  intros Hy Hx Hsel; unfold draw_cell.
  rewrite (getitem2_inside false N N) by assumption; simpl. now rewrite Hsel.
Qed.

Lemma draw_cell_break (iy ix : nat) (st : nat * list subplot) :
  (iy < N)%nat -> (ix < N)%nat -> get2 false mask iy ix = true ->
  (40 <= fst st)%nat ->
  draw_cell N N kmax mask iy ix st = Ok ((S (fst st), snd st), Break).
Proof.
  intros Hy Hx Hsel Hn; unfold draw_cell.
  rewrite (getitem2_inside false N N) by assumption; simpl. rewrite Hsel.
  destruct (Nat.ltb_spec 40 (S (fst st))); [reflexivity | lia].
Qed.

Lemma draw_cell_draws (iy ix : nat) (st : nat * list subplot) :
  (iy < N)%nat -> (ix < N)%nat -> get2 false mask iy ix = true ->
  (fst st < 40)%nat ->
  exists p, position p = S (fst st) /\
    draw_cell N N kmax mask iy ix st = Ok ((S (fst st), snd st ++ [p]), Continue).
Proof.
  intros Hy Hx Hsel Hn; unfold draw_cell.
  rewrite (getitem2_inside false N N) by assumption; simpl. rewrite Hsel.
  destruct (Nat.ltb_spec 40 (S (fst st))); [lia|].
  rewrite !frequency_ok by assumption; simpl.
  destruct (calculate_sinusoid_square (Z.of_nat N) kmax kmax
              (kmax / 2 * (IZR (Z.of_nat iy) - center N) / center N)
              (kmax / 2 * (IZR (Z.of_nat ix) - center N) / center N) 0 0)
    as [a [E _]]; try assumption; [lia|].
  rewrite E; simpl. unfold subplot_4x10.
  destruct (Nat.leb_spec 1 (S (fst st))); [|lia].
  destruct (Nat.leb_spec (S (fst st)) 40); [|lia]. simpl.
  eexists; split; [|reflexivity]. reflexivity.
Qed.

Lemma figure_after_break (c extra : nat) (st : nat * list subplot) :
  figure_after c st -> (40 <= fst st)%nat -> (1 <= extra)%nat ->
  figure_after (c + extra) (S (fst st), snd st).
Proof.
  intros [H1 [H2 [H3 H4]]] Hn He.
  assert (Hc : (40 <= c)%nat).
  { destruct (Nat.le_gt_cases c 40) as [Hle|Hgt]; [|lia]. rewrite <- (H3 Hle); lia. }
  unfold figure_after; cbn [fst snd].
  replace (Nat.min 40 (c + extra)) with (Nat.min 40 c) by lia.
  repeat split; auto; lia.
Qed.

Lemma figure_after_draw (c : nat) (st : nat * list subplot) (p : subplot) :
  figure_after c st -> (fst st < 40)%nat -> position p = S (fst st) ->
  figure_after (S c) (S (fst st), snd st ++ [p]).
Proof.
  intros [H1 [H2 [H3 H4]]] Hn Hp.
  assert (Hc : (c < 40)%nat).
  { destruct (Nat.le_gt_cases c 40) as [Hle|Hgt];
      [rewrite <- (H3 Hle); lia | specialize (H4 Hgt); lia]. }
  assert (En : fst st = c) by (apply H3; lia).
  unfold figure_after; cbn [fst snd].
  replace (Nat.min 40 (S c)) with (S c) by lia.
  replace (Nat.min 40 c) with c in H1, H2 by lia.
  rewrite length_app, map_app, H1, H2, seq_S; cbn [length map].
  rewrite Hp, En.
  repeat split; try lia; reflexivity.
Qed.

(** The inner loop over the columns [L] of row [iy]. *)
Lemma draw_row_figure (iy : nat) (L : list nat) :
  (iy < N)%nat -> Forall (fun ix => (ix < N)%nat) L ->
  forall c st, figure_after c st ->
  exists st', for_in_break L (draw_cell N N kmax mask iy) st = Ok st' /\
              figure_after (c + selected_in iy L) st'.
Proof.
  intros Hy HL; induction HL as [|ix L Hx HL IH]; intros c st Hst.
  - exists st; split; [reflexivity|]. unfold selected_in; simpl.
    now rewrite Nat.add_0_r.
  - cbn [for_in_break]. unfold selected_in; cbn [filter].
    destruct (get2 false mask iy ix) eqn:Hsel.
    + destruct (Nat.le_gt_cases 40 (fst st)) as [Hn|Hn].
      * rewrite draw_cell_break by assumption; simpl.
        eexists; split; [reflexivity|].
        apply figure_after_break; auto. simpl; lia.
      * destruct (draw_cell_draws iy ix st Hy Hx Hsel Hn) as [p [Hp E]].
        rewrite E; simpl.
        destruct (IH (S c) _ (figure_after_draw c st p Hst Hn Hp)) as [st' [E' F']].
        exists st'; split; [exact E'|].
        unfold selected_in in F'. simpl.
        now replace (c + S (length (filter (fun ix0 => get2 false mask iy ix0) L)))%nat
          with (S c + length (filter (fun ix0 => get2 false mask iy ix0) L))%nat by lia.
    + rewrite draw_cell_not_selected by assumption; simpl. apply IH, Hst.
Qed.

(** The outer loop over the rows [R]. *)
Lemma draw_rows_figure (R : list nat) :
  Forall (fun iy => (iy < N)%nat) R ->
  forall c st, figure_after c st ->
  exists st',
    for_in R (fun iy st => for_in_break (range N) (draw_cell N N kmax mask iy) st) st
    = Ok st' /\
    figure_after (c + list_sum (map (fun iy => selected_in iy (range N)) R)) st'.
Proof.
  intros HR; induction HR as [|iy R Hy HR IH]; intros c st Hst.
  - exists st; split; [reflexivity|]. simpl. now rewrite Nat.add_0_r.
  - cbn [for_in].
    destruct (draw_row_figure iy (range N) Hy) with (c := c) (st := st)
      as [st1 [E1 F1]]; auto.
    { apply Forall_forall; intros ix Hix. apply in_seq in Hix; lia. }
    rewrite E1; simpl.
    destruct (IH _ _ F1) as [st' [E' F']].
    exists st'; split; [exact E'|].
    now rewrite Nat.add_assoc.
Qed.

End SquareFigure.

Lemma list_sum_rev (l : list nat) : list_sum (rev l) = list_sum l.
Proof.
  induction l as [|x l IH]; simpl; [reflexivity|].
  rewrite list_sum_app, IH; simpl. lia.
Qed.

Lemma count_true_rows (f : nat -> nat -> bool) (N : nat) (L : list nat) :
  length (filter (fun b : bool => b)
            (concat (map (fun i => map (fun j => f i j) (seq 0 N)) L)))
  = list_sum (map (fun i => length (filter (fun j => f i j) (seq 0 N))) L).
Proof.
  induction L as [|i L IH]; simpl; [reflexivity|].
  now rewrite filter_app, length_app, IH, (count_map_filter (fun j => f i j)).
Qed.

Lemma count_true_by_rows (M N : nat) (mask : ndarray2 bool) :
  rect M N mask ->
  count_true mask
  = list_sum (map (fun iy => length (filter (fun ix => get2 false mask iy ix) (range N)))
                  (rev (range M))).
Proof.
  intros Hm. rewrite map_rev, list_sum_rev.
  rewrite <- (tabulate2_get2 false M N mask Hm) at 1.
  unfold count_true, tabulate2, range. apply count_true_rows.
Qed.

Lemma K_max_nonzero (Nx : nat) : (1 <= Nx)%nat -> 1 / (220 / INR Nx) <> 0.
Proof.
  intros H. assert (Hpos : 0 < INR Nx) by (apply lt_0_INR; lia).
  apply Rgt_not_eq. apply Rdiv_lt_0_compat; [lra|].
  apply Rdiv_lt_0_compat; lra.
Qed.

(** X23.  On a square mask of size N >= 1 the sinusoid cell ends without
    an exception and draws exactly min(40, number of selected
    coefficients) sub-plots, at the positions 1, 2, 3, ... of the 4 x 10
    grid: the [break] leaves only the inner loop, yet no sub-plot beyond
    the 40th is ever requested. *)
Theorem show_sinusoids_square (N : nat) (frequency_mask : ndarray2 bool) :
  (1 <= N)%nat -> rect N N frequency_mask ->
  exists image_number plots,
    show_sinusoids N N frequency_mask = Ok (image_number, plots) /\
    length plots = Nat.min 40 (count_true frequency_mask) /\
    map position plots = seq 1 (Nat.min 40 (count_true frequency_mask)).
Proof.
  intros HN Hm. unfold show_sinusoids. rewrite K_max_ok by assumption; simpl.
  destruct (draw_rows_figure N (1 / (220 / INR N)) frequency_mask HN
              (K_max_nonzero N HN) Hm (rev (range N)))
    with (c := 0%nat) (st := (0%nat, @nil subplot)) as [[n plots] [E F]].
  - apply Forall_forall; intros iy Hiy. apply in_rev, in_seq in Hiy. lia.
  - unfold figure_after; simpl. repeat split; auto; lia.
  - exists n, plots; split; [exact E|].
    rewrite Nat.add_0_l, <- (count_true_by_rows N N) in F by assumption.
    destruct F as [F1 [F2 _]]. split; assumption.
Qed.

Lemma show_sinusoids_square_witness :
  exists image_number plots,
    show_sinusoids 2 2 [[true; false]; [true; true]] = Ok (image_number, plots) /\
    length plots = Nat.min 40 (count_true [[true; false]; [true; true]]) /\
    map position plots = seq 1 (Nat.min 40 (count_true [[true; false]; [true; true]])).
Proof.
  apply (show_sinusoids_square 2 [[true; false]; [true; true]]);
    [lia | split; [reflexivity | repeat constructor]].
Defined.

(** A row of a mask with fewer columns than rows: every selected entry
    asks for a sinusoid that is not square, and past the last column the
    mask itself refuses the index. *)
Lemma draw_row_not_square (Nx Ny : nat) (kmax : R) (mask : ndarray2 bool)
  (iy : nat) (st : nat * list subplot) (k s : nat) (rest : list nat) :
  rect Nx Ny mask -> (1 <= Ny)%nat -> (Ny < Nx)%nat -> kmax <> 0 ->
  (iy < Nx)%nat -> (fst st < 40)%nat -> (s + k = Ny)%nat ->
  for_in_break (seq s k ++ Ny :: rest) (draw_cell Nx Ny kmax mask iy) st
  = Raise IndexError.
Proof.
  intros Hm HNy Hlt Hk Hy Hst. revert s.
  induction k as [|k IH]; intros s Hs.
  - simpl. unfold draw_cell at 1.
    now rewrite (getitem2_col_outside false Nx Ny) by (auto; lia).
  - cbn [seq app for_in_break]. unfold draw_cell at 1.
    rewrite (getitem2_inside false Nx Ny) by (auto; lia); simpl.
    destruct (get2 false mask iy s).
    + destruct (Nat.ltb_spec 40 (S (fst st))); [lia|].
      rewrite !frequency_ok by lia; simpl.
      rewrite calculate_sinusoid_non_square by (auto; lia). reflexivity.
    + simpl. apply IH. lia.
Qed.

(** X24.  On a mask that is not square (both sizes at least 1) the
    sinusoid cell raises [IndexError], whatever the mask selects. *)
Theorem show_sinusoids_rectangular_raises (Nx Ny : nat) (frequency_mask : ndarray2 bool) :
  rect Nx Ny frequency_mask -> (1 <= Nx)%nat -> (1 <= Ny)%nat -> Nx <> Ny ->
  show_sinusoids Nx Ny frequency_mask = Raise IndexError.
Proof.
  intros Hm HNx HNy Hne. unfold show_sinusoids.
  rewrite K_max_ok by assumption; simpl.
  unfold range at 1. replace Ny with (S (Ny - 1)) at 1 by lia.
  rewrite seq_S, rev_app_distr; cbn [rev app for_in].
  rewrite Nat.add_0_l.
  destruct (Nat.lt_ge_cases Ny Nx) as [Hlt|Hge].
  - unfold range. replace Nx with (Ny + S (Nx - S Ny))%nat at 1 by lia.
    rewrite seq_app; cbn [seq]. rewrite Nat.add_0_l.
    rewrite (draw_row_not_square Nx Ny); auto using K_max_nonzero; simpl; lia.
  - rewrite (range_head Nx) by assumption; cbn [for_in_break].
    unfold draw_cell at 1.
    rewrite getitem2_row_outside by (destruct Hm; lia). reflexivity.
Qed.

Lemma show_sinusoids_rectangular_raises_witness :
  show_sinusoids 2 3 [[true; true; true]; [false; false; false]] = Raise IndexError.
Proof.
  apply (show_sinusoids_rectangular_raises 2 3);
    [split; [reflexivity | repeat constructor] | lia | lia | lia].
Defined.
